(** * pyrdmp: Dynamic Movement Primitives ([pyrdmp/dmp.py])

    A shallow embedding of the class [DynamicMovementPrimitive] and the
    properties of its methods.

    Conventions of the embedding.
    - A float64 is an ideal real number ([R]): rounding, overflow and the
      special values inf and nan are outside the model.  Statements that
      divide say which denominators they need to be non-zero.
    - A Python exception is the outcome [Raise e]; a normal return is [Ok v].
    - A numpy value is a scalar or a one-dimensional array ([Np.nd]); a
      float array that a method indexes by rows is one- or two-dimensional
      ([Np.ndarray]).  Binary operations broadcast as numpy does on these
      shapes.
    - An array received from the caller and updated in place lives in a
      store and is named by a location ([Mem.value]); numpy scalars are
      immutable and are passed by value.
    - [adapt] loops until a random search meets its threshold: the loop
      is run for a bounded number of turns ([None] when they do not
      suffice), the draws of [np.random] are a stream given to the
      model, and [np.argsort] is a parameter. *)

From Stdlib Require Import Reals Lra Lia List ZArith Bool Arith.
Import ListNotations.
Local Open Scope R_scope.

(** ** Python outcomes *)

Module Py.

Inductive exn : Set :=
| IndexError
| ValueError
| TypeError
| ZeroDivisionError.

Inductive res (A : Type) : Type :=
| Ok (a : A)
| Raise (e : exn).

Arguments Ok {A} a.
Arguments Raise {A} e.

Definition bind {A B : Type} (m : res A) (k : A -> res B) : res B :=
  match m with
  | Ok a => k a
  | Raise e => Raise e
  end.

Definition index {A : Type} (l : list A) (i : nat) : res A :=
  match nth_error l i with
  | Some a => Ok a
  | None => Raise IndexError
  end.

(** [l[-1]] *)
Definition last_item {A : Type} (l : list A) : res A :=
  match l with
  | [] => Raise IndexError
  | _ :: _ => index l (length l - 1)
  end.

(** [l[i-1]] for [i] in [range(len(l))]: index [-1] wraps to the end. *)
Definition index_prev {A : Type} (l : list A) (i : nat) : res A :=
  match i with
  | O => last_item l
  | S k => index l k
  end.

(** [l[i] = a] for an index in range (out of range: IndexError). *)
Fixpoint set_item {A : Type} (l : list A) (i : nat) (a : A) : res (list A) :=
  match l, i with
  | [], _ => Raise IndexError
  | _ :: t, O => Ok (a :: t)
  | h :: t, S k =>
      match set_item t k a with
      | Ok t' => Ok (h :: t')
      | Raise e => Raise e
      end
  end.

(** [for a in l: s = body(a, s)] *)
Fixpoint for_each {A S : Type} (l : list A) (body : A -> S -> res S) (s : S)
  : res S :=
  match l with
  | [] => Ok s
  | a :: l' =>
      match body a s with
      | Ok s' => for_each l' body s'
      | Raise e => Raise e
      end
  end.

(** [[f(a) for a in l]] *)
Fixpoint map_res {A B : Type} (f : A -> res B) (l : list A) : res (list B) :=
  match l with
  | [] => Ok []
  | a :: l' =>
      match f a with
      | Ok b =>
          match map_res f l' with
          | Ok bs => Ok (b :: bs)
          | Raise e => Raise e
          end
      | Raise e => Raise e
      end
  end.

End Py.

Import Py.

Notation "x <- m ;; k" := (Py.bind m (fun x => k))
  (at level 61, m at next level, right associativity).
Notation "' p <- m ;; k" := (Py.bind m (fun p => k))
  (at level 61, p pattern, m at next level, right associativity).

(** ** The part of numpy the class uses *)

Module Np.

(** A scalar or a one-dimensional array. *)
Inductive nd : Type :=
| Sc (r : R)
| Vec (v : list R).

(** A float array indexed by rows: shape [(N,)] or [(N, D)]. *)
Inductive ndarray : Type :=
| A1 (v : list R)
| A2 (rows : list (list R)).

Definition Rltb (x y : R) : bool := if Rlt_dec x y then true else false.

Fixpoint zip_with (f : R -> R -> R) (u v : list R) : list R :=
  match u, v with
  | x :: u', y :: v' => f x y :: zip_with f u' v'
  | _, _ => []
  end.

Definition lift1 (f : R -> R) (a : nd) : nd :=
  match a with
  | Sc r => Sc (f r)
  | Vec v => Vec (map f v)
  end.

(** Element-wise binary operation with broadcasting. *)
Definition lift2 (f : R -> R -> R) (a b : nd) : res nd :=
  match a, b with
  | Sc x, Sc y => Ok (Sc (f x y))
  | Sc x, Vec v => Ok (Vec (map (f x) v))
  | Vec u, Sc y => Ok (Vec (map (fun x => f x y) u))
  | Vec u, Vec v =>
      if (length u =? length v)%nat then Ok (Vec (zip_with f u v))
      else match u, v with
           | [x], _ => Ok (Vec (map (f x) v))
           | _, [y] => Ok (Vec (map (fun x => f x y) u))
           | _, _ => Raise ValueError
           end
  end.

Definition add := lift2 Rplus.
Definition sub := lift2 Rminus.
Definition mul := lift2 Rmult.
Definition div := lift2 Rdiv.

Definition same_shape (a b : nd) : bool :=
  match a, b with
  | Sc _, Sc _ => true
  | Vec u, Vec v => (length u =? length v)%nat
  | _, _ => false
  end.

(** [a += e] on an array [a]: the result keeps the shape of [a]. *)
Definition iadd_array (a e : nd) : res nd :=
  r <- add a e ;;
  if same_shape a r then Ok r else Raise ValueError.

(** [a += e] on a local name: a numpy scalar is rebound to [a + e], an
    array is updated in place. *)
Definition iadd (a e : nd) : res nd :=
  match a with
  | Sc _ => add a e
  | Vec _ => iadd_array a e
  end.

Definition zeros_like (a : nd) : nd :=
  match a with
  | Sc _ => Sc 0
  | Vec v => Vec (map (fun _ => 0) v)
  end.

Definition sum (l : list R) : R := fold_left Rplus l 0.

Definition ravel (a : nd) : list R :=
  match a with
  | Sc r => [r]
  | Vec v => v
  end.

(** [np.linalg.norm]: the 2-norm of the flattened argument. *)
Definition norm (a : nd) : R :=
  sqrt (sum (map (fun x => x * x) (ravel a))).

(** [np.dot] on scalars and one-dimensional arrays. *)
Definition dot (a b : nd) : res nd :=
  match a, b with
  | Vec u, Vec v =>
      if (length u =? length v)%nat then Ok (Sc (sum (zip_with Rmult u v)))
      else Raise ValueError
  | _, _ => mul a b
  end.

(** Truth value of [a < 0] in an [if]. *)
Definition is_negative (a : nd) : res bool :=
  match a with
  | Sc r => Ok (Rltb r 0)
  | Vec [] => Ok false
  | Vec [r] => Ok (Rltb r 0)
  | Vec _ => Raise ValueError
  end.

(** [np.linspace(start, stop, num)]. *)
Definition linspace (start stop : R) (num : nat) : list R :=
  match num with
  | O => []
  | S O => [start]
  | _ => map (fun i => start + INR i * ((stop - start) / INR (num - 1)))
             (seq 0 num)
  end.

Definition mean (l : list R) : R := sum l / INR (length l).

(** [np.std]: the population standard deviation. *)
Definition std (l : list R) : R :=
  sqrt (mean (map (fun x => (x - mean l) * (x - mean l)) l)).

(** [np.cumsum] *)
Fixpoint cumsum_from (acc : R) (l : list R) : list R :=
  match l with
  | [] => []
  | x :: l' => (acc + x) :: cumsum_from (acc + x) l'
  end.

Definition cumsum (l : list R) : list R := cumsum_from 0 l.

(** [arr[i]] on a row-indexed array. *)
Definition row (arr : ndarray) (i : nat) : res nd :=
  match arr with
  | A1 v => r <- index v i ;; Ok (Sc r)
  | A2 rows => r <- index rows i ;; Ok (Vec r)
  end.

Definition row_last (arr : ndarray) : res nd :=
  match arr with
  | A1 v => r <- last_item v ;; Ok (Sc r)
  | A2 rows => r <- last_item rows ;; Ok (Vec r)
  end.

(** The shape of one row of an array allocated by [np.zeros]. *)
Inductive slot : Type :=
| SlotSc
| SlotRow (D : nat).

Definition zero (sl : slot) : nd :=
  match sl with
  | SlotSc => Sc 0
  | SlotRow D => Vec (repeat 0 D)
  end.

(** [arr[i] = v]: the value stored in a row of shape [sl].  A scalar
    slot takes a scalar or a one-element array; a row takes whatever
    broadcasts to its length. *)
Definition assign (sl : slot) (v : nd) : res nd :=
  match sl, v with
  | SlotSc, Sc r => Ok (Sc r)
  | SlotSc, Vec [r] => Ok (Sc r)
  | SlotSc, Vec _ => Raise ValueError
  | SlotRow D, Sc r => Ok (Vec (repeat r D))
  | SlotRow D, Vec u =>
      if (length u =? D)%nat then Ok (Vec u)
      else match u with
           | [r] => Ok (Vec (repeat r D))
           | _ => Raise ValueError
           end
  end.

Definition scalar_of (c : nd) : R :=
  match c with
  | Sc r => r
  | Vec v => nth 0 v 0
  end.

(** The array whose rows are the cells [cells], all of shape [sl]. *)
Definition pack (sl : slot) (cells : list nd) : ndarray :=
  match sl with
  | SlotSc => A1 (map scalar_of cells)
  | SlotRow _ => A2 (map ravel cells)
  end.

End Np.

Import Np.

(** ** The class *)

(** The attributes set by [__init__], with the gain [_a] a float; [b]
    and [as_deg] are derived from [a]. *)
Record DynamicMovementPrimitive : Type := {
  a : R;
  ng : nat;
  stb : bool;
  obs : bool;
  obs_gamma : R;
  obs_beta : R
}.

Definition b (self : DynamicMovementPrimitive) : R := a self / 4.
Definition as_deg (self : DynamicMovementPrimitive) : R := a self / 3.

(** [phase]: [np.exp((-self.as_deg) * np.linspace(0, 1.0, len(time))).T] *)
Definition phase (self : DynamicMovementPrimitive) (time : list R) : list R :=
  map (fun u => exp (- as_deg self * u)) (linspace 0 1 (length time)).

(** Arithmetic on outcomes, evaluated left to right as Python does. *)
Definition op2 (f : nd -> nd -> res nd) (ma mb : res nd) : res nd :=
  x <- ma ;; y <- mb ;; f x y.

Definition sc (r : R) : res nd := Ok (Sc r).

Notation "x .+ y" := (op2 Np.add x y) (at level 50, left associativity).
Notation "x .- y" := (op2 Np.sub x y) (at level 50, left associativity).
Notation "x .* y" := (op2 Np.mul x y) (at level 40, left associativity).
Notation "x ./ y" := (op2 Np.div x y) (at level 40, left associativity).

(** [reward]; [dist*dist.T] is the square of a scalar distance. *)
Definition reward (goal position time tau w threshold : R) : R :=
  let dist := goal - position in
  if Rltb (Rabs (time - tau)) threshold
  then w * exp (- sqrt (dist * dist))
  else (1 - w) * exp (- sqrt (dist * dist)) / tau.

(** [reward] with the default [w=0.9, threshold=0.01]. *)
Definition reward_default (goal position time tau : R) : R :=
  reward goal position time tau (9 / 10) (1 / 100).

(** Python's [min] and [max] of a sequence. *)
Definition py_min (l : list R) : res R :=
  match l with
  | [] => Raise ValueError
  | x :: l' => Ok (fold_left Rmin l' x)
  end.

Definition py_max (l : list R) : res R :=
  match l with
  | [] => Raise ValueError
  | x :: l' => Ok (fold_left Rmax l' x)
  end.

Section Basis.

(** The kernel [psi(h, c, s)] of [pyrdmp.utils], which this file does
    not contain: a parameter of the basis builder. *)
Variable psi : R -> R -> R -> R.

(** [distributions] *)
Definition distributions (self : DynamicMovementPrimitive) (s : list R)
  (h : R) : res (list (list R)) :=
  lo <- py_min s ;;
  hi <- py_max s ;;
  let c := linspace lo hi (ng self) in
  c1 <- index c 1 ;;
  c0 <- index c 0 ;;
  let d := c1 - c0 in
  let c := map (fun x => x / d) c in
  Ok (map (fun _c => map (fun _s => psi h _c (_s / d)) s) c).

End Basis.

(** The shape of the rows of the arrays allocated for an input [arr]:
    [arr.ndim > 1] selects rows of length [len(arr[0])]. *)
Definition slot_of (arr : ndarray) : res slot :=
  match arr with
  | A1 _ => Ok SlotSc
  | A2 rows => r0 <- index rows 0 ;; Ok (SlotRow (length r0))
  end.

(** [np.diag(p)] *)
Definition diag (p : list R) : list (list R) :=
  map (fun j => map (fun k => if (j =? k)%nat then nth j p 0 else 0)
                    (seq 0 (length p)))
      (seq 0 (length p)).

(** The product of a vector of length [n] with an [n x D] matrix. *)
Definition vecmat (D : nat) (v : list R) (m : list (list R)) : list R :=
  fold_left (fun acc vr => zip_with Rplus acc (map (Rmult (fst vr)) (snd vr)))
            (combine v m) (repeat 0 D).

(** [v.dot(np.diag(p))] *)
Definition dot_diag (v p : list R) : res (list R) :=
  if (length v =? length p)%nat then Ok (vecmat (length p) v (diag p))
  else Raise ValueError.

(** [v.dot(cells)] where [cells] are the rows of an array of row shape
    [sl]. *)
Definition dot_rows (sl : slot) (v : list R) (cells : list nd) : res nd :=
  if (length v =? length cells)%nat then
    match sl with
    | SlotSc => Ok (Sc (Np.sum (zip_with Rmult v (map scalar_of cells))))
    | SlotRow D => Ok (Vec (vecmat D v (map ravel cells)))
    end
  else Raise ValueError.

(** [np.array(w)] for a list of scalars or of equal rows. *)
Definition np_array (sl : slot) (w : list nd) : ndarray :=
  match w with
  | [] => A1 []
  | _ => pack sl w
  end.

(** [imitate] *)
Definition imitate (self : DynamicMovementPrimitive) (x dx ddx : ndarray)
  (time s : list R) (psv : list (list R)) : res (ndarray * ndarray) :=
  let N := length time in
  sl <- slot_of x ;;
  g <- row_last x ;;
  x0 <- row x 0 ;;
  tau <- last_item time ;;
  '(sigma, f_target) <-
    for_each (seq 0 N)
      (fun i '(sigma, f_target) =>
         '(mod_, sig) <-
           (if stb self then
              m <- sc (b self) .* (Ok g .- Ok x0)
                   .* (si <- index s i ;; sc si) ;;
              e <- (Ok g .- Ok x0) .* (si <- index s i ;; sc si) ;;
              Ok (m, e)
            else
              si <- index s i ;; Ok (Sc 0, Sc si)) ;;
         sig <- assign SlotSc sig ;;
         sigma <- set_item sigma i (scalar_of sig) ;;
         f <- sc (tau ^ 2) .* row ddx i
              .- sc (a self) .* (sc (b self) .* (Ok g .- row x i)
                                 .- sc tau .* row dx i)
              .+ Ok mod_ ;;
         f <- assign sl f ;;
         f_target <- set_item f_target i f ;;
         Ok (sigma, f_target))
      (repeat 0 N, repeat (zero sl) N) ;;
  w <- map_res
         (fun p =>
            sp <- dot_diag sigma p ;;
            num <- dot_rows sl sp f_target ;;
            den <- Np.dot (Vec sp) (Vec sigma) ;;
            Np.div num den)
         psv ;;
  Ok (pack sl f_target, np_array sl w).

(** The [obstacles] argument: the default of [generate] is the Python
    list [[]]; a caller that has obstacles passes a two-dimensional
    array, one obstacle a row. *)
Inductive obstacles_arg : Type :=
| PyEmptyList
| ObstacleArray (rows : list (list R)).

(** [obstacles[:,:3]]: a list does not take a tuple of slices. *)
Definition first_three (obstacles : obstacles_arg) : res (list (list R)) :=
  match obstacles with
  | PyEmptyList => Raise TypeError
  | ObstacleArray rows => Ok (map (firstn 3) rows)
  end.

(** The body of the loop of [avoid_obstacles]: every statement of it is
    under the velocity test (the lines that the source indents with
    twelve spaces and a tab stand at column 16, with the statements
    under the test).  [o - x] and [np.dot(dx, o - x)], which the source
    writes several times, are evaluated once. *)
Definition avoid_one (self : DynamicMovementPrimitive) (x dx g : nd)
  (o : list R) (p : nd) : res nd :=
  if Rltb (5 / 100000) (norm dx) then
    ox <- Np.sub (Vec o) x ;;
    dt <- Np.dot dx ox ;;
    phi <- Np.div dt (Sc (norm ox * norm dx)) ;;
    let phi := lift1 acos phi in
    neg <- is_negative dt ;;
    let phi := if neg then lift1 Ropp phi else phi in
    dphi <- sc (obs_gamma self) .* Ok phi
            .* Ok (lift1 exp (lift1 (Rmult (- obs_beta self))
                                    (lift1 Rabs phi))) ;;
    gx <- Np.sub g x ;;
    let dphi := if Rltb (norm gx) (norm ox) then Sc 0 else dphi in
    iadd_array p dphi
  else Ok p.

(** [avoid_obstacles] *)
Definition avoid_obstacles (self : DynamicMovementPrimitive) (x dx g : nd)
  (obstacles : obstacles_arg) : res nd :=
  let p := zeros_like x in
  os <- first_three obstacles ;;
  for_each os (avoid_one self x dx g) p.

(** ** Caller-owned arrays *)

Module Mem.

Definition loc := nat.

(** The arrays the caller holds, by location. *)
Definition store := list (list R).

(** What a name is bound to: an immutable scalar or an array no one
    else holds ([Imm]), or an array of the caller ([Ref]). *)
Inductive value : Type :=
| Imm (d : nd)
| Ref (l : loc).

Definition read (st : store) (v : value) : res nd :=
  match v with
  | Imm d => Ok d
  | Ref l => r <- index st l ;; Ok (Vec r)
  end.

(** [v += e]: through a reference the array is updated where it is. *)
Definition iadd_value (st : store) (v : value) (e : nd)
  : res (store * value) :=
  match v with
  | Imm d => r <- Np.iadd d e ;; Ok (st, Imm r)
  | Ref l =>
      old <- index st l ;;
      r <- Np.iadd_array (Vec old) e ;;
      st' <- set_item st l (ravel r) ;;
      Ok (st', Ref l)
  end.

End Mem.

Import Mem.

(** The names [generate] updates in its loop. *)
Record rollout : Type := {
  r_mem : store;
  r_dx_r : nd;
  r_x_r : value;
  r_p : nd;
  r_ddx : list nd;
  r_dx : list nd;
  r_x : list nd
}.

(** One turn of the loop of [generate].  [sigma[i]] and [f_rep[i]] are
    written and read back in the same turn: the model keeps the value
    the row holds after the assignment. *)
Definition generate_step (self : DynamicMovementPrimitive) (w : ndarray)
  (x0 g : value) (time s : list R) (psv : list (list R))
  (obstacles : obstacles_arg) (sl : slot) (tau : R) (i : nat) (r : rollout)
  : res rollout :=
  let st := r_mem r in
  ti <- index time i ;;
  dt <- match i with
        | O => Ok ti
        | S k => tk <- index time k ;; Ok (ti - tk)
        end ;;
  '(mod_, sig) <-
    (if stb self then
       m <- sc (b self) .* (read st g .- read st x0)
            .* (si <- index s i ;; sc si) ;;
       e <- (read st g .- read st x0) .* (si <- index s i ;; sc si) ;;
       Ok (m, e)
     else
       si <- index s i ;; Ok (Sc 0, Sc si)) ;;
  sigma_i <- assign SlotSc sig ;;
  '(p_sum, p_div) <-
    for_each (seq 0 (ng self))
      (fun j '(p_sum, p_div) =>
         psv_j <- index psv j ;;
         psv_ji <- index psv_j i ;;
         t <- sc psv_ji .* row w j ;;
         p_sum <- Np.iadd p_sum t ;;
         Ok (p_sum, p_div + psv_ji))
      (Sc 0, 0) ;;
  q <- (if (ng self =? 0)%nat then Raise ZeroDivisionError
        else Np.div p_sum (Sc p_div)) ;;
  f <- Np.mul q sigma_i ;;
  f_rep_i <- assign sl f ;;
  p <- (if obs self then
          xp <- index_prev (r_x r) i ;;
          dxp <- index_prev (r_dx r) i ;;
          gv <- read st g ;;
          avoid_obstacles self xp dxp gv obstacles
        else Ok (r_p r)) ;;
  ddx_r <- (sc (a self) .* (sc (b self) .* (read st g .- read st (r_x_r r))
                            .- sc tau .* Ok (r_dx_r r))
            .+ Ok f_rep_i .+ Ok mod_ .+ Ok p) ./ sc (tau ^ 2) ;;
  dx_r <- (e <- Ok ddx_r .* sc dt ;; Np.iadd (r_dx_r r) e) ;;
  '(st, x_r) <- (e <- Ok dx_r .* sc dt ;; iadd_value st (r_x_r r) e) ;;
  c_ddx <- assign sl ddx_r ;;
  c_dx <- assign sl dx_r ;;
  c_x <- (xv <- read st x_r ;; assign sl xv) ;;
  ddx <- set_item (r_ddx r) i c_ddx ;;
  dx <- set_item (r_dx r) i c_dx ;;
  x <- set_item (r_x r) i c_x ;;
  Ok {| r_mem := st; r_dx_r := dx_r; r_x_r := x_r; r_p := p;
        r_ddx := ddx; r_dx := dx; r_x := x |}.

(** [generate]: returns the store it leaves and the three arrays. *)
Definition generate (self : DynamicMovementPrimitive) (st : store)
  (w : ndarray) (x0 g : value) (time s : list R) (psv : list (list R))
  (obstacles : obstacles_arg)
  : res (store * (ndarray * ndarray * ndarray)) :=
  let N := length time in
  sl <- slot_of w ;;
  tau <- last_item time ;;
  r <- for_each (seq 0 N)
         (generate_step self w x0 g time s psv obstacles sl tau)
         {| r_mem := st; r_dx_r := Sc 0; r_x_r := x0; r_p := Sc 0;
            r_ddx := repeat (zero sl) N; r_dx := repeat (zero sl) N;
            r_x := repeat (zero sl) N |} ;;
  Ok (r_mem r, (pack sl (r_ddx r), pack sl (r_dx r), pack sl (r_x r))).

(** [l[:k]] for a Python integer [k]. *)
Definition slice_to {A : Type} (l : list A) (k : Z) : list A :=
  if (0 <=? k)%Z then firstn (Z.to_nat k) l
  else firstn (length l - Z.to_nat (- k)) l.

(** The first axis of [np.transpose(rollouts, (1, 2, 0))]: arrays of
    shape [(N, samples)], entry [[j, i]] being sample [j] of rollout [i].
    An empty list of rollouts has no such axes. *)
Definition by_sample (N : nat) (ls : list (list R)) : list (list R) :=
  map (fun j => map (fun l => nth j l 0) ls) (seq 0 N).

Definition transpose_rollouts (N : nat)
  (rs : list (list R * list R * list R))
  : res (list (list R) * list (list R) * list (list R)) :=
  match rs with
  | [] => Raise ValueError
  | _ => Ok (by_sample N (map (fun r => fst (fst r)) rs),
             by_sample N (map (fun r => snd (fst r)) rs),
             by_sample N (map snd rs))
  end.

(** [m[:, k]] *)
Definition column (m : list (list R)) (k : nat) : res (list R) :=
  map_res (fun r => index r k) m.

(** What one turn of the loop of [adapt] leaves in its local names. *)
Record iteration : Type := {
  it_exploration : list (list R);
  it_actions : list (list R);
  it_ddx : list (list R);
  it_dx : list (list R);
  it_x : list (list R);
  it_Q : list R;
  it_sort_Q : list nat;
  it_best : nat;
  it_gain : R;
  it_met_threshold : bool
}.

(** What [adapt] returns. *)
Record adapted : Type := {
  out_ddx : list R;
  out_dx : list R;
  out_x : list R;
  out_w : list R;
  out_trace : list R
}.

Section Adapt.

(** [np.argsort], whose order among equal keys numpy leaves open. *)
Variable argsort : list R -> list nat.

(** The standard normal draws of [np.random], in the order they are
    taken; [np.random.normal(loc, scale)] is [loc + scale * z]. *)
Variable randn : nat -> R.

Definition normal (k : nat) (loc scale : R) : R := loc + scale * randn k.

(** One turn of the loop of [adapt]; [aref] is the array that both
    [a] and the argument [w] name, [k] the number of draws taken so
    far.  The start position [x0] and the goal [g] are floats, passed by
    value to every rollout: what is proved of [adapt] is proved of calls
    with such arguments. *)
Definition adapt_iteration (self : DynamicMovementPrimitive) (st : store)
  (aref : loc) (x0 g : R) (t s : list R) (psv : list (list R))
  (samples : nat) (rate : R) (tau : R) (k : nat) : res (store * iteration) :=
  exploration <-
    map_res (fun i =>
      map_res (fun j =>
        psv_j <- index psv j ;;
        a_ <- index st aref ;;
        a_j <- index a_ j ;;
        Ok (normal (k + i * ng self + j) 0
                   (std (map (fun v => v * a_j) psv_j))))
        (seq 0 (ng self)))
      (seq 0 samples) ;;
  actions <-
    map_res (fun e =>
      a_ <- index st aref ;;
      r <- Np.add (Vec a_) (Vec e) ;;
      Ok (ravel r))
      exploration ;;
  '(st, rollouts) <-
    for_each actions
      (fun act '(st, acc) =>
         '(st, out) <- generate self st (A1 act) (Imm (Sc x0)) (Imm (Sc g))
                                t s psv PyEmptyList ;;
         match out with
         | (A1 ddx, A1 dx, A1 x) => Ok (st, acc ++ [(ddx, dx, x)])
         | _ => Raise ValueError
         end)
      (st, []) ;;
  '(ddx, dx, x) <- transpose_rollouts (length t) rollouts ;;
  Q <- map_res (fun i =>
         rs <- map_res (fun j =>
                 x_j <- index x j ;;
                 x_ji <- index x_j i ;;
                 t_j <- index t j ;;
                 Ok (reward_default g x_ji t_j tau))
                 (seq 0 (length t)) ;;
         Ok (Np.sum rs))
         (seq 0 samples) ;;
  let sort_Q := slice_to (rev (argsort Q)) (Zfloor (INR samples * rate)) in
  sumQ_y <- (qs <- map_res (index Q) sort_Q ;; Ok (Np.sum qs)) ;;
  sumQ_x <-
    (es <- map_res (fun i =>
             e <- index exploration i ;;
             q <- index Q i ;;
             Ok (map (fun v => v * q) e))
             sort_Q ;;
     for_each es (fun e acc => Np.add acc (Vec e)) (Sc 0)) ;;
  update <- match sort_Q with
            | [] => Raise ZeroDivisionError
            | _ => Np.div sumQ_x (Sc sumQ_y)
            end ;;
  st <- (a_ <- index st aref ;;
         r <- iadd_array (Vec a_) update ;;
         set_item st aref (ravel r)) ;;
  best <- index sort_Q 0 ;;
  gain <- index Q best ;;
  x_end <- (x_last <- last_item x ;; index x_last best) ;;
  Ok (st, {| it_exploration := exploration; it_actions := actions;
             it_ddx := ddx; it_dx := dx; it_x := x;
             it_Q := Q; it_sort_Q := sort_Q; it_best := best;
             it_gain := gain;
             it_met_threshold := Rltb (Rabs (x_end - g)) (1 / 100) |}).

(** The [return] of [adapt], from the names of the last turn. *)
Definition adapt_return (it : iteration) (gain : list R) : res adapted :=
  ddx <- column (it_ddx it) (it_best it) ;;
  dx <- column (it_dx it) (it_best it) ;;
  x <- column (it_x it) (it_best it) ;;
  w <- index (it_actions it) (it_best it) ;;
  Ok {| out_ddx := ddx; out_dx := dx; out_x := x; out_w := w;
        out_trace := cumsum gain |}.

(** The [while not met_threshold] loop, for at most [fuel] turns;
    [None] when the loop is still running after them. *)
Fixpoint adapt_loop (fuel : nat) (self : DynamicMovementPrimitive)
  (st : store) (aref : loc) (x0 g : R) (t s : list R)
  (psv : list (list R)) (samples : nat) (rate : R) (tau : R) (k : nat)
  (gain : list R) : option (res (store * adapted)) :=
  match fuel with
  | O => None
  | S fuel' =>
      match adapt_iteration self st aref x0 g t s psv samples rate tau k with
      | Raise e => Some (Raise e)
      | Ok (st', it) =>
          let gain' := gain ++ [it_gain it] in
          if it_met_threshold it then
            Some (out <- adapt_return it gain' ;; Ok (st', out))
          else
            adapt_loop fuel' self st' aref x0 g t s psv samples rate tau
                       (k + samples * ng self) gain'
      end
  end.

(** [adapt]; the line it prints is not modelled. *)
Definition adapt (fuel : nat) (self : DynamicMovementPrimitive) (st : store)
  (w : loc) (x0 g : R) (t s : list R) (psv : list (list R))
  (samples : nat) (rate : R) : option (res (store * adapted)) :=
  match last_item t with
  | Raise e => Some (Raise e)
  | Ok tau => adapt_loop fuel self st w x0 g t s psv samples rate tau 0 []
  end.

(** The turns of the loop that did not meet the threshold: from the
    store [st] and [k] draws taken to the store [st'] and [k'] draws. *)
Inductive adapt_turns (self : DynamicMovementPrimitive) (aref : loc)
  (x0 g : R) (t s : list R) (psv : list (list R)) (samples : nat)
  (rate tau : R) : store -> nat -> list iteration -> store -> nat -> Prop :=
| turns_done (st : store) (k : nat) :
    adapt_turns self aref x0 g t s psv samples rate tau st k [] st k
| turns_more (st st1 st' : store) (k k' : nat) (it : iteration)
    (its : list iteration) :
    adapt_iteration self st aref x0 g t s psv samples rate tau k
    = Ok (st1, it) ->
    it_met_threshold it = false ->
    adapt_turns self aref x0 g t s psv samples rate tau
                st1 (k + samples * ng self) its st' k' ->
    adapt_turns self aref x0 g t s psv samples rate tau
                st k (it :: its) st' k'.

End Adapt.

(** An argsort for running [adapt] on an input: insertion of the indices
    in order, an index going before the first one with a larger key. *)
Fixpoint insert_index (key : nat -> R) (i : nat) (l : list nat) : list nat :=
  match l with
  | [] => [i]
  | j :: l' =>
      if Rltb (key i) (key j) then i :: l else j :: insert_index key i l'
  end.

Definition argsort_insertion (q : list R) : list nat :=
  fold_left (fun acc i => insert_index (fun k => nth k q 0) i acc)
            (seq 0 (length q)) [].

(** A primitive with one basis function, gain 4 and neither
    stabilization nor obstacle avoidance, for running the methods. *)
Definition dmp_plain : DynamicMovementPrimitive :=
  {| a := 4; ng := 1; stb := false; obs := false;
     obs_gamma := 1200; obs_beta := 63662 / 10000 |}.

(** Modelled from the spec: the kernel [psi] of [pyrdmp.utils] is not
    part of this file; the spec calls it a Gaussian kernel centred at
    [c] with bandwidth [h].  Used only to run [distributions] on an
    input. *)
Definition gaussian (h c s : R) : R := exp (- h * ((s - c) * (s - c))).

(** A scalar, or an array of at most one element. *)
Definition small (d : nd) : Prop :=
  match d with
  | Sc _ => True
  | Vec v => (length v <= 1)%nat
  end.

(** The state before sample [i]: the start value, or sample [i-1]. *)
Definition before {A : Type} (init : A) (get : nat -> A) (i : nat) : A :=
  match i with
  | O => init
  | S k => get k
  end.

(** The step [dt] of sample [i]. *)
Definition step_of (time : list R) (i : nat) : R :=
  match i with
  | O => nth 0 time 0
  | S k => nth (S k) time 0 - nth k time 0
  end.

(** [p_div] of sample [i]: the activations of the [ng] basis rows,
    summed in the order of the loop. *)
Definition activation_sum (self : DynamicMovementPrimitive)
  (psv : list (list R)) (i : nat) : R :=
  Np.sum (map (fun j => nth i (nth j psv []) 0) (seq 0 (ng self))).

(** The number held by row [k] of a one-dimensional array. *)
Definition cellv (cells : list nd) (k : nat) : R :=
  scalar_of (nth k cells (Sc 0)).

(** The quantities of [imitate] for a trajectory of scalars with goal
    [g], start [x0] and duration [tau]. *)
Definition sigma_at (self : DynamicMovementPrimitive) (g x0 : R)
  (s : list R) (i : nat) : R :=
  if stb self then (g - x0) * nth i s 0 else nth i s 0.

Definition mod_at (self : DynamicMovementPrimitive) (g x0 : R)
  (s : list R) (i : nat) : R :=
  if stb self then b self * (g - x0) * nth i s 0 else 0.

Definition f_target_at (self : DynamicMovementPrimitive) (g x0 tau : R)
  (x dx ddx s : list R) (i : nat) : R :=
  tau ^ 2 * nth i ddx 0
  - a self * (b self * (g - nth i x 0) - tau * nth i dx 0)
  + mod_at self g x0 s i.

(** [(sigma . diag(p) . f_target) / (sigma . diag(p) . sigma)] *)
Definition weight_of (sigma f_target p : list R) : R :=
  let sp := vecmat (length p) sigma (diag p) in
  Np.sum (zip_with Rmult sp f_target) / Np.sum (zip_with Rmult sp sigma).

(** The point-attractor recurrence on the first [k] samples of the
    sequences [ddx], [dx], [x], from the start [x0] at rest. *)
Definition attractor_upto (self : DynamicMovementPrimitive) (x0 g tau : R)
  (time : list R) (k : nat) (ddx dx x : nat -> R) : Prop :=
  forall i, (i < k)%nat ->
    tau ^ 2 * ddx i
    = a self * (b self * (g - before x0 x i) - tau * before 0 dx i) /\
    dx i = before 0 dx i + ddx i * step_of time i /\
    x i = before x0 x i + dx i * step_of time i.

(** What the loop of [generate] maintains on scalars with no forcing. *)
Definition attractor_inv (self : DynamicMovementPrimitive) (x0 g tau : R)
  (time : list R) (st : store) (k : nat) (r : rollout) : Prop :=
  r_mem r = st /\ r_p r = Sc 0 /\
  length (r_ddx r) = length time /\
  length (r_dx r) = length time /\
  length (r_x r) = length time /\
  r_dx_r r = Sc (before 0 (cellv (r_dx r)) k) /\
  r_x_r r = Imm (Sc (before x0 (cellv (r_x r)) k)) /\
  attractor_upto self x0 g tau time k
    (cellv (r_ddx r)) (cellv (r_dx r)) (cellv (r_x r)).

(** The running names are scalars and the arrays have their length. *)
Definition scalar_state (time : list R) (r : rollout) : Prop :=
  (exists dv, r_dx_r r = Sc dv) /\ (exists xv, r_x_r r = Imm (Sc xv)) /\
  (exists pv, r_p r = Sc pv) /\
  length (r_ddx r) = length time /\ length (r_dx r) = length time /\
  length (r_x r) = length time.

(** [len(arr)] *)
Definition nrows (arr : ndarray) : nat :=
  match arr with
  | A1 v => length v
  | A2 rows => length rows
  end.

(** [p_sum] of sample [i] for a weight vector [w]: the activations times
    the weights, summed in the order of the loop. *)
Definition weighted_sum (self : DynamicMovementPrimitive)
  (psv : list (list R)) (w : list R) (i : nat) : R :=
  Np.sum (map (fun j => nth i (nth j psv []) 0 * nth j w 0)
              (seq 0 (ng self))).

(** [f_rep[i]], the forcing term of sample [i]. *)
Definition forcing_at (self : DynamicMovementPrimitive)
  (psv : list (list R)) (w : list R) (g x0 : R) (s : list R) (i : nat) : R :=
  weighted_sum self psv w i / activation_sum self psv i
  * sigma_at self g x0 s i.

(** The transformation system on the first [k] samples of the sequences
    [ddx], [dx], [x], from the start [x0] at rest. *)
Definition driven_upto (self : DynamicMovementPrimitive)
  (psv : list (list R)) (w : list R) (x0 g tau : R) (time s : list R)
  (k : nat) (ddx dx x : nat -> R) : Prop :=
  forall i, (i < k)%nat ->
    ddx i
    = (a self * (b self * (g - before x0 x i) - tau * before 0 dx i)
       + forcing_at self psv w g x0 s i + mod_at self g x0 s i) / tau ^ 2 /\
    dx i = before 0 dx i + ddx i * step_of time i /\
    x i = before x0 x i + dx i * step_of time i.

(** What the loop of [generate] maintains on scalars. *)
Definition driven_inv (self : DynamicMovementPrimitive)
  (psv : list (list R)) (w : list R) (x0 g tau : R) (time s : list R)
  (st : store) (k : nat) (r : rollout) : Prop :=
  r_mem r = st /\ r_p r = Sc 0 /\
  length (r_ddx r) = length time /\
  length (r_dx r) = length time /\
  length (r_x r) = length time /\
  r_dx_r r = Sc (before 0 (cellv (r_dx r)) k) /\
  r_x_r r = Imm (Sc (before x0 (cellv (r_x r)) k)) /\
  driven_upto self psv w x0 g tau time s k
    (cellv (r_ddx r)) (cellv (r_dx r)) (cellv (r_x r)).

(** All the entries are zero. *)
Definition all_zero (d : nd) : Prop := Forall (eq 0) (ravel d).

(** The primitive [self] with obstacle avoidance switched off. *)
Definition without_obstacles (self : DynamicMovementPrimitive)
  : DynamicMovementPrimitive :=
  {| a := a self; ng := ng self; stb := stb self; obs := false;
     obs_gamma := obs_gamma self; obs_beta := obs_beta self |}.

(** The rows of a one-dimensional array in the making are scalars. *)
Definition is_scalar (c : nd) : Prop :=
  match c with
  | Sc _ => True
  | Vec _ => False
  end.

(** The state of the loop on scalars, whichever way the obstacle term
    is computed. *)
Definition clear_state (time : list R) (r : rollout) : Prop :=
  r_p r = Sc 0 /\
  length (r_dx r) = length time /\ length (r_x r) = length time /\
  Forall is_scalar (r_dx r) /\ Forall is_scalar (r_x r).

(** What one obstacle [o] adds to every component of the repulsion
    when the position, the velocity and the goal have three components:
    the loop body of [avoid_obstacles] on these shapes, where the dot
    product, the angle and [dphi] are numbers. *)
Definition dphi_of (self : DynamicMovementPrimitive) (x dx g o : list R)
  : R :=
  if Rltb (5 / 100000) (norm (Vec dx)) then
    let ox := zip_with Rminus o x in
    let dt := Np.sum (zip_with Rmult dx ox) in
    let phi := acos (dt / (norm (Vec ox) * norm (Vec dx))) in
    let phi := if Rltb dt 0 then - phi else phi in
    if Rltb (norm (Vec (zip_with Rminus g x))) (norm (Vec ox)) then 0
    else obs_gamma self * phi * exp (- obs_beta self * Rabs phi)
  else 0.

(** The angle of the velocity to the direction of obstacle [o] is
    computed from a quotient strictly inside (-1, 1), or is not used:
    the velocity is below the threshold, or the obstacle is farther
    than the goal. *)
Definition angle_defined (x dx g o : list R) : Prop :=
  norm (Vec dx) <= 5 / 100000 \/
  norm (Vec (zip_with Rminus g x)) < norm (Vec (zip_with Rminus o x)) \/
  Rabs (Np.sum (zip_with Rmult dx (zip_with Rminus o x)))
  < norm (Vec (zip_with Rminus o x)) * norm (Vec dx).

(** The score a turn appends to [gain]: [Q[sort_Q[0]]], a sum of
    rewards, each of them positive when [tau > 0]. *)
Definition best_score (g tau : R) (it : iteration) : Prop :=
  index (it_sort_Q it) 0 = Ok (it_best it) /\
  index (it_Q it) (it_best it) = Ok (it_gain it) /\
  exists rs,
    it_gain it = Np.sum rs /\
    Forall (fun r => 0 < r /\
                     exists pos tj, r = reward_default g pos tj tau) rs.

(** The draws of a run of two turns: 0, then 1. *)
Definition two_draws (k : nat) : R :=
  match k with
  | O => 0
  | S _ => 1
  end.

(** ** Properties *)

(** *** Outcomes and loops *)

Lemma Rltb_true (x y : R) : Rltb x y = true <-> x < y.
Proof.
  unfold Rltb. destruct (Rlt_dec x y); split; intro H;
    try reflexivity; try assumption; try discriminate; contradiction.
Qed.

Lemma Rltb_false (x y : R) : Rltb x y = false <-> y <= x.
Proof.
  unfold Rltb. destruct (Rlt_dec x y); split; intro H;
    try reflexivity; try discriminate; lra.
Qed.

Lemma for_each_invariant {A St : Type} (P : nat -> St -> Prop)
  (l : list A) (body : A -> St -> res St) :
  forall (k : nat) (s0 s : St),
    for_each l body s0 = Ok s ->
    P k s0 ->
    (forall i x s1 s2, nth_error l i = Some x -> P (k + i)%nat s1 ->
                       body x s1 = Ok s2 -> P (S (k + i))%nat s2) ->
    P (k + length l)%nat s.
Proof.
  induction l as [|x l IH]; intros k s0 s Hrun H0 Hstep; simpl in Hrun.
  - inversion Hrun; subst. simpl. rewrite Nat.add_0_r. assumption.
  - destruct (body x s0) as [s1|e] eqn:Hb; [|discriminate].
    simpl length. replace (k + S (length l))%nat with (S k + length l)%nat by lia.
    apply (IH (S k) s1 s Hrun).
    + specialize (Hstep O x s0 s1 eq_refl). rewrite Nat.add_0_r in Hstep.
      apply Hstep; assumption.
    + intros i y s2 s3 Hi HP Hy.
      replace (S (S k + i)) with (S (k + S i)) by lia.
      apply (Hstep (S i) y s2 s3); [exact Hi| |exact Hy].
      replace (k + S i)%nat with (S k + i)%nat by lia. assumption.
Qed.

(** Case analysis on the first outcome of a sequence that returned. *)
Ltac first_outcome t :=
  match t with
  | bind ?m _ =>
      match m with
      | bind _ _ => first_outcome m
      | _ => m
      end
  end.

Tactic Notation "bind_ok" hyp(H) "as" ident(x) ident(E) :=
  cbn [bind] in H;
  match type of H with
  | ?t = Ok _ =>
      let m := first_outcome t in
      destruct m as [x|] eqn:E; [cbn [bind] in H | discriminate H]
  end.

Tactic Notation "bind_top" hyp(H) "as" ident(x) ident(E) :=
  cbn [bind] in H;
  match type of H with
  | bind ?m _ = Ok _ =>
      destruct m as [x|] eqn:E; [cbn [bind] in H | discriminate H]
  end.

Lemma for_each_total {A St : Type} (P : nat -> St -> Prop)
  (l : list A) (body : A -> St -> res St) :
  forall (k : nat) (s0 : St),
    P k s0 ->
    (forall i x s1, nth_error l i = Some x -> P (k + i)%nat s1 ->
       exists s2, body x s1 = Ok s2 /\ P (S (k + i))%nat s2) ->
    exists s, for_each l body s0 = Ok s /\ P (k + length l)%nat s.
Proof.
  induction l as [|x l IH]; intros k s0 H0 Hstep; simpl.
  - exists s0. rewrite Nat.add_0_r. split; [reflexivity | assumption].
  - destruct (Hstep O x s0 eq_refl) as [s1 [Hb H1]].
    { rewrite Nat.add_0_r. assumption. }
    rewrite Hb. rewrite Nat.add_0_r in H1.
    destruct (IH (S k) s1 H1) as [s [Hs HP]].
    + intros i y s2 Hi HP.
      replace (S k + i)%nat with (k + S i)%nat in * by lia.
      apply (Hstep (S i) y s2 Hi HP).
    + exists s. split; [assumption|].
      replace (k + S (length l))%nat with (S k + length l)%nat by lia.
      assumption.
Qed.

(** *** Indexing *)

Lemma set_item_length {A : Type} (l : list A) (i : nat) (v : A) (l' : list A) :
  set_item l i v = Ok l' -> length l' = length l.
Proof.
  revert i l'. induction l as [|h t IH]; intros [|i] l' H; simpl in H;
    try discriminate.
  - inversion H; subst. reflexivity.
  - destruct (set_item t i v) as [t'|] eqn:E; [|discriminate].
    inversion H; subst. simpl. f_equal. apply (IH i). assumption.
Qed.

Lemma set_item_nth_same {A : Type} (l : list A) (i : nat) (v d : A)
  (l' : list A) :
  set_item l i v = Ok l' -> nth i l' d = v.
Proof.
  revert i l'. induction l as [|h t IH]; intros [|i] l' H; simpl in H;
    try discriminate.
  - inversion H; subst. reflexivity.
  - destruct (set_item t i v) as [t'|] eqn:E; [|discriminate].
    inversion H; subst. simpl. apply (IH i). assumption.
Qed.

Lemma set_item_nth_other {A : Type} (l : list A) (i j : nat) (v d : A)
  (l' : list A) :
  set_item l i v = Ok l' -> j <> i -> nth j l' d = nth j l d.
Proof.
  revert i j l'. induction l as [|h t IH]; intros [|i] j l' H Hj;
    simpl in H; try discriminate.
  - inversion H; subst. destruct j; [contradiction | reflexivity].
  - destruct (set_item t i v) as [t'|] eqn:E; [|discriminate].
    inversion H; subst. destruct j; simpl; [reflexivity|].
    apply (IH i); [assumption | lia].
Qed.

Lemma set_item_in_range {A : Type} (l : list A) (i : nat) (v : A) :
  (i < length l)%nat -> exists l', set_item l i v = Ok l'.
Proof.
  revert i. induction l as [|h t IH]; intros [|i] H; simpl in *; try lia.
  - eexists. reflexivity.
  - destruct (IH i) as [t' Ht]; [lia|]. rewrite Ht. eexists. reflexivity.
Qed.

Lemma index_nth {A : Type} (l : list A) (i : nat) (v d : A) :
  index l i = Ok v -> nth i l d = v /\ (i < length l)%nat.
Proof.
  unfold index. destruct (nth_error l i) as [u|] eqn:E; [|discriminate].
  intro H. inversion H; subst. split.
  - apply nth_error_nth. assumption.
  - apply nth_error_Some. rewrite E. discriminate.
Qed.

Lemma nth_error_seq0 (n i k : nat) :
  nth_error (seq 0 n) i = Some k -> k = i /\ (i < n)%nat.
Proof.
  intro H. rewrite nth_error_seq in H.
  destruct (Nat.ltb_spec i n); [|discriminate].
  inversion H; subst. split; [reflexivity | assumption].
Qed.

Lemma index_Some {A : Type} (l : list A) (i : nat) (v : A) :
  index l i = Ok v <-> nth_error l i = Some v.
Proof.
  unfold index. destruct (nth_error l i); split; intro H;
    inversion H; subst; reflexivity.
Qed.

Lemma index_in_range {A : Type} (l : list A) (i : nat) (d : A) :
  (i < length l)%nat -> index l i = Ok (nth i l d).
Proof.
  intro H. apply index_Some. apply nth_error_nth'. assumption.
Qed.

Lemma last_item_nth_error {A : Type} (l : list A) (v : A) :
  last_item l = Ok v -> nth_error l (length l - 1) = Some v.
Proof.
  destruct l as [|x l]; [discriminate|].
  unfold last_item. intro H. apply index_Some. assumption.
Qed.

Lemma cellv_set_same (cells cells' : list nd) (k : nat) (v : R) :
  set_item cells k (Sc v) = Ok cells' -> cellv cells' k = v.
Proof.
  intro H. unfold cellv. rewrite (set_item_nth_same _ _ _ _ _ H). reflexivity.
Qed.

Lemma cellv_set_other (cells cells' : list nd) (k j : nat) (c : nd) :
  set_item cells k c = Ok cells' -> j <> k -> cellv cells' j = cellv cells j.
Proof.
  intros H Hj. unfold cellv. rewrite (set_item_nth_other _ _ _ _ _ _ H Hj).
  reflexivity.
Qed.

Lemma cellv_pack (cells : list nd) (i : nat) :
  nth i (map scalar_of cells) 0 = cellv cells i.
Proof.
  unfold cellv. change 0 with (scalar_of (Sc 0)) at 1. apply map_nth.
Qed.

(** *** Comprehensions and sums *)

Lemma map_res_nth {A B : Type} (f : A -> res B) (l : list A) (l' : list B) :
  map_res f l = Ok l' ->
  length l' = length l /\
  forall i x, nth_error l i = Some x ->
    exists y, f x = Ok y /\ nth_error l' i = Some y.
Proof.
  revert l'. induction l as [|x0 l IH]; intros l' H; simpl in H.
  - inversion H; subst. split; [reflexivity|].
    intros [|i] x Hx; discriminate.
  - destruct (f x0) as [y0|] eqn:E0; [|discriminate].
    destruct (map_res f l) as [ys|] eqn:E; [|discriminate].
    inversion H; subst. destruct (IH ys eq_refl) as [Hlen Hnth].
    split; [simpl; congruence|].
    intros [|i] x Hx; simpl in Hx.
    + inversion Hx; subst. exists y0. split; [assumption | reflexivity].
    + apply Hnth. assumption.
Qed.

Lemma map_res_In {A B : Type} (f : A -> res B) (l : list A) (l' : list B)
  (y : B) :
  map_res f l = Ok l' -> In y l' -> exists x, In x l /\ f x = Ok y.
Proof.
  revert l'. induction l as [|x0 l IH]; intros l' H Hy; simpl in H.
  - inversion H; subst. contradiction.
  - destruct (f x0) as [y0|] eqn:E0; [|discriminate].
    destruct (map_res f l) as [ys|] eqn:E; [|discriminate].
    inversion H; subst. destruct Hy as [<-|Hy].
    + exists x0. split; [left; reflexivity | assumption].
    + destruct (IH ys eq_refl Hy) as [x [Hx Hfx]].
      exists x. split; [right; assumption | assumption].
Qed.

Lemma map_res_total {A B : Type} (f : A -> res B) (h : A -> B) (l : list A) :
  (forall x, In x l -> f x = Ok (h x)) -> map_res f l = Ok (map h l).
Proof.
  induction l as [|x l IH]; intro H; simpl.
  - reflexivity.
  - rewrite (H x) by (left; reflexivity).
    rewrite IH by (intros y Hy; apply H; right; assumption).
    reflexivity.
Qed.

Lemma map_res_last {A B : Type} (f : A -> res B) (l : list A) (l' : list B)
  (x : A) (y : B) :
  map_res f l = Ok l' -> last_item l = Ok x -> f x = Ok y ->
  last_item l' = Ok y.
Proof.
  intros Hmap Hlast Hf.
  destruct (map_res_nth f l l' Hmap) as [Hlen Hnth].
  apply last_item_nth_error in Hlast.
  destruct (Hnth _ _ Hlast) as [y' [Hy' Hn]].
  assert (y' = y) by congruence. subst y'.
  destruct l' as [|y0 l'].
  - destruct (length l - 1)%nat; discriminate.
  - unfold last_item. apply index_Some. rewrite Hlen. assumption.
Qed.

Lemma nth_seq_self {A : Type} (l : list A) (d : A) :
  map (fun j => nth j l d) (seq 0 (length l)) = l.
Proof.
  apply (nth_ext _ _ d d).
  - rewrite length_map, length_seq. reflexivity.
  - intros n Hn. rewrite length_map, length_seq in Hn.
    rewrite (nth_indep _ d (nth 0 l d))
      by (rewrite length_map, length_seq; assumption).
    rewrite (map_nth (fun j => nth j l d)), seq_nth by assumption.
    reflexivity.
Qed.

(** Column [k] of the transposed rollouts is the array of rollout [k]. *)
Lemma column_by_sample (N : nat) (ls : list (list R)) (k : nat) (l : list R) :
  nth_error ls k = Some l -> length l = N ->
  column (by_sample N ls) k = Ok l.
Proof.
  intros Hk Hl. unfold column, by_sample.
  rewrite (map_res_total _ (fun r => nth k r 0)).
  - rewrite map_map. subst N.
    rewrite (map_ext _ (fun j => nth j l 0)); [rewrite nth_seq_self; reflexivity|].
    intro j.
    rewrite (nth_indep _ 0 (nth j l 0))
      by (rewrite length_map; apply nth_error_Some; congruence).
    rewrite (map_nth (fun l' => nth j l' 0)).
    rewrite (nth_error_nth _ _ _ Hk). reflexivity.
  - intros r Hr. apply in_map_iff in Hr. destruct Hr as [j [<- _]].
    apply index_Some. apply nth_error_nth'.
    rewrite length_map. apply nth_error_Some. congruence.
Qed.

Lemma sum_snoc (l : list R) (x : R) : Np.sum (l ++ [x]) = Np.sum l + x.
Proof. unfold Np.sum. rewrite fold_left_app. reflexivity. Qed.

Lemma sum_from_nonneg (l : list R) (acc : R) :
  0 <= acc -> Forall (fun r => 0 <= r) l -> 0 <= fold_left Rplus l acc.
Proof.
  revert acc. induction l as [|x l IH]; intros acc Hacc Hl; simpl.
  - assumption.
  - inversion Hl; subst. apply IH; [lra | assumption].
Qed.

Lemma sum_nonneg (l : list R) :
  Forall (fun r => 0 <= r) l -> 0 <= Np.sum l.
Proof. apply sum_from_nonneg. lra. Qed.

(** *** Phase *)

Lemma linspace_length (start stop : R) (num : nat) :
  length (linspace start stop num) = num.
Proof.
  destruct num as [|[|n]]; simpl; try reflexivity.
  rewrite length_map, length_seq. reflexivity.
Qed.

Lemma linspace_nth (start stop : R) (num i : nat) :
  (2 <= num)%nat -> (i < num)%nat ->
  nth i (linspace start stop num) 0 =
  start + INR i * ((stop - start) / INR (num - 1)).
Proof.
  intros Hn Hi.
  destruct num as [|[|n]]; try lia.
  unfold linspace.
  set (f := fun k => start + INR k * ((stop - start) / INR (S (S n) - 1))).
  rewrite (nth_indep _ 0 (f O)) by (rewrite length_map, length_seq; lia).
  rewrite (map_nth f), seq_nth by lia. reflexivity.
Qed.

Lemma phase_length (self : DynamicMovementPrimitive) (time : list R) :
  length (phase self time) = length time.
Proof. unfold phase. rewrite length_map. apply linspace_length. Qed.

Lemma phase_nth (self : DynamicMovementPrimitive) (time : list R) (i : nat) :
  (2 <= length time)%nat -> (i < length time)%nat ->
  nth i (phase self time) 0 =
  exp (- as_deg self * (INR i / INR (length time - 1))).
Proof.
  intros Hn Hi. unfold phase.
  set (f := fun u => exp (- as_deg self * u)).
  rewrite (nth_indep _ 0 (f 0)) by (rewrite length_map, linspace_length; lia).
  rewrite (map_nth f), linspace_nth by lia.
  unfold f. f_equal. f_equal.
  assert (INR (length time - 1) <> 0).
  { apply not_0_INR. lia. }
  field. assumption.
Qed.

(** C5. With gain [a > 0] and a time vector of length [N >= 2], [phase]
    returns [N] values [s[i] = exp(-as_deg * i/(N-1))]; hence [s[0] = 1],
    every value is in (0, 1] and the sequence is non-increasing. *)
Theorem phase_decay (self : DynamicMovementPrimitive) (time : list R) :
  0 < a self -> (2 <= length time)%nat ->
  let s := phase self time in
  let N := length time in
  length s = N /\
  (forall i, (i < N)%nat ->
     nth i s 0 = exp (- as_deg self * (INR i / INR (N - 1)))) /\
  nth 0 s 0 = 1 /\
  (forall i, (i < N)%nat -> 0 < nth i s 0 <= 1) /\
  (forall i j, (i <= j)%nat -> (j < N)%nat -> nth j s 0 <= nth i s 0).
Proof.
  intros Ha HN s N. subst s N.
  assert (Hden : 0 < INR (length time - 1)) by (apply lt_0_INR; lia).
  assert (Hdeg : 0 < as_deg self) by (unfold as_deg; lra).
  assert (Hfrac : forall i, 0 <= INR i / INR (length time - 1)).
  { intro i. apply Rmult_le_pos; [apply pos_INR|].
    left. apply Rinv_0_lt_compat. assumption. }
  split; [apply phase_length|].
  split; [intros i Hi; apply phase_nth; lia|].
  split.
  { rewrite phase_nth by lia. simpl INR.
    replace (- as_deg self * (0 / INR (length time - 1))) with 0.
    - apply exp_0.
    - unfold Rdiv. ring. }
  split.
  - intros i Hi. rewrite phase_nth by lia. split; [apply exp_pos|].
    rewrite <- exp_0.
    destruct (Req_dec (- as_deg self * (INR i / INR (length time - 1))) 0)
      as [E|E].
    + rewrite E. right. reflexivity.
    + left. apply exp_increasing. specialize (Hfrac i). nra.
  - intros i j Hij Hj. rewrite !phase_nth by lia.
    assert (Hle : INR i / INR (length time - 1)
                  <= INR j / INR (length time - 1)).
    { apply Rmult_le_compat_r.
      - left. apply Rinv_0_lt_compat. assumption.
      - apply le_INR. assumption. }
    destruct (Req_dec (- as_deg self * (INR j / INR (length time - 1)))
                      (- as_deg self * (INR i / INR (length time - 1))))
      as [E|E].
    + rewrite E. right. reflexivity.
    + left. apply exp_increasing. nra.
Qed.

Lemma phase_decay_witness :
  let self := {| a := 25; ng := 10; stb := true; obs := false;
                 obs_gamma := 1200; obs_beta := 63662 / 10000 |} in
  let time := [0; 1 / 2; 1] in
  nth 0 (phase self time) 0 = 1 /\
  (forall i, (i < 3)%nat -> 0 < nth i (phase self time) 0 <= 1).
Proof.
  intros self time.
  assert (Ha : 0 < a self) by (simpl; lra).
  assert (HN : (2 <= length time)%nat) by (simpl; lia).
  destruct (phase_decay self time Ha HN) as (_ & _ & H0 & Hr & _).
  split; [exact H0 | exact Hr].
Defined.

(** *** Reward *)

Lemma reward_end (goal position time tau : R) :
  Rabs (time - tau) < 1 / 100 ->
  reward_default goal position time tau =
  9 / 10 * exp (- Rabs (goal - position)).
Proof.
  intro H. unfold reward_default, reward.
  apply Rltb_true in H. rewrite H.
  fold (Rsqr (goal - position)). rewrite sqrt_Rsqr_abs. reflexivity.
Qed.

Lemma reward_mid (goal position time tau : R) :
  ~ Rabs (time - tau) < 1 / 100 ->
  reward_default goal position time tau =
  (1 - 9 / 10) * exp (- Rabs (goal - position)) / tau.
Proof.
  intro H. unfold reward_default, reward.
  assert (E : Rltb (Rabs (time - tau)) (1 / 100) = false).
  { apply Rltb_false. lra. }
  rewrite E.
  fold (Rsqr (goal - position)). rewrite sqrt_Rsqr_abs. reflexivity.
Qed.

Lemma reward_default_pos (goal position time tau : R) :
  0 < tau -> 0 < reward_default goal position time tau.
Proof.
  intro Htau.
  pose proof (exp_pos (- Rabs (goal - position))) as He.
  destruct (Rlt_dec (Rabs (time - tau)) (1 / 100)) as [H|H].
  - rewrite reward_end by assumption. lra.
  - rewrite reward_mid by assumption.
    apply Rmult_lt_0_compat; [lra|]. apply Rinv_0_lt_compat. assumption.
Qed.

(** C8 (as amended). For equal distances to the goal, the reward of the
    end-of-trajectory branch exceeds that of the mid-trajectory branch
    exactly when [tau > 1/9]: the mid-trajectory term is divided by
    [tau]. *)
Theorem reward_end_larger_iff (goal1 position1 goal2 position2
  t_end t_mid tau : R) :
  0 < tau ->
  Rabs (goal1 - position1) = Rabs (goal2 - position2) ->
  Rabs (t_end - tau) < 1 / 100 ->
  ~ Rabs (t_mid - tau) < 1 / 100 ->
  (reward_default goal2 position2 t_mid tau
   < reward_default goal1 position1 t_end tau
   <-> 1 / 9 < tau).
Proof.
  intros Htau Hd Hend Hmid.
  rewrite (reward_end goal1 position1 t_end tau Hend).
  rewrite (reward_mid goal2 position2 t_mid tau Hmid).
  rewrite <- Hd.
  pose proof (exp_pos (- Rabs (goal1 - position1))) as He.
  set (e := exp (- Rabs (goal1 - position1))) in *.
  assert (Hinv : 0 < / tau) by (apply Rinv_0_lt_compat; assumption).
  assert (Hone : tau * / tau = 1) by (apply Rinv_r; lra).
  unfold Rdiv at 2.
  split; intro H.
  - assert (H1 : (1 - 9 / 10) * / tau < 9 / 10).
    { apply (Rmult_lt_reg_r e); [assumption|]. nra. }
    nra.
  - assert (H1 : (1 - 9 / 10) * / tau < 9 / 10) by nra.
    nra.
Qed.

Lemma reward_end_larger_iff_witness :
  reward_default 1 0 0 1 < reward_default 1 0 1 1 <-> 1 / 9 < 1.
Proof.
  apply (reward_end_larger_iff 1 0 1 0 1 0 1).
  - lra.
  - reflexivity.
  - replace (1 - 1) with 0 by ring. rewrite Rabs_R0. lra.
  - replace (0 - 1) with (- (1)) by ring. rewrite Rabs_Ropp, Rabs_R1. lra.
Defined.

(** C8 (as stated) fails for a short trajectory: with [tau = 1/10] the
    mid-trajectory reward at distance 0 is 1, the end-of-trajectory
    reward 9/10. *)
Lemma reward_end_smaller_short_tau :
  0 < 1 / 10 /\
  Rabs (0 - 0) = Rabs (0 - 0) /\
  Rabs (1 / 10 - 1 / 10) < 1 / 100 /\
  ~ Rabs (0 - 1 / 10) < 1 / 100 /\
  ~ reward_default 0 0 0 (1 / 10) < reward_default 0 0 (1 / 10) (1 / 10).
Proof.
  assert (Hend : Rabs (1 / 10 - 1 / 10) < 1 / 100).
  { replace (1 / 10 - 1 / 10) with 0 by lra. rewrite Rabs_R0. lra. }
  assert (Hmid : ~ Rabs (0 - 1 / 10) < 1 / 100).
  { replace (0 - 1 / 10) with (- (1 / 10)) by lra.
    rewrite Rabs_Ropp, Rabs_pos_eq by lra. lra. }
  repeat split; try assumption; try lra.
  rewrite (reward_end 0 0 (1 / 10) (1 / 10) Hend).
  rewrite (reward_mid 0 0 0 (1 / 10) Hmid).
  replace (0 - 0) with 0 by lra. rewrite Rabs_R0, Ropp_0, exp_0. lra.
Qed.

(** *** Basis builder *)

Lemma py_min_cons (x : R) (l : list R) : exists lo, py_min (x :: l) = Ok lo.
Proof. eexists. reflexivity. Qed.

Lemma py_max_cons (x : R) (l : list R) : exists hi, py_max (x :: l) = Ok hi.
Proof. eexists. reflexivity. Qed.

Lemma index_map_seq {A : Type} (f : nat -> A) (n i : nat) :
  (i < n)%nat -> index (map f (seq 0 n)) i = Ok (f i).
Proof.
  intro H. unfold index.
  rewrite nth_error_map, nth_error_seq.
  destruct (Nat.ltb_spec i n); [reflexivity | lia].
Qed.

(** C6 (as amended). For [ng >= 2] and a phase whose largest value is
    above its smallest, [distributions] divides by the positive spacing
    [d = (max(s) - min(s))/(ng - 1)] and returns [ng] rows, row [k] being
    the kernel centred at [c_k/d] on the samples [s_i/d], where the
    centres [c_k = min(s) + k*d] run from [min(s)] to [max(s)]; for an
    odd [ng] the middle one is the midpoint of the phase domain. *)
Theorem distributions_centres (psi : R -> R -> R -> R)
  (self : DynamicMovementPrimitive) (s : list R) (h lo hi : R) :
  py_min s = Ok lo -> py_max s = Ok hi -> lo < hi -> (2 <= ng self)%nat ->
  let d := (hi - lo) / INR (ng self - 1) in
  0 < d /\
  distributions psi self s h =
  Ok (map (fun k => map (fun _s => psi h ((lo + INR k * d) / d) (_s / d)) s)
          (seq 0 (ng self))) /\
  lo + INR 0 * d = lo /\ lo + INR (ng self - 1) * d = hi /\
  forall m, ng self = (2 * m + 1)%nat -> lo + INR m * d = (lo + hi) / 2.
Proof.
  intros Hlo Hhi Hlt Hng d.
  assert (Hn : 0 < INR (ng self - 1)) by (apply lt_0_INR; lia).
  split; [|split; [|split; [|split]]].
  - unfold d. apply Rmult_lt_0_compat; [lra|].
    apply Rinv_0_lt_compat. assumption.
  - unfold distributions. rewrite Hlo, Hhi. cbn [bind]. unfold d.
    remember (ng self) as n eqn:En.
    destruct n as [|[|n]]; try lia.
    unfold linspace.
    set (f := fun i => lo + INR i * ((hi - lo) / INR (S (S n) - 1))).
    rewrite !index_map_seq by lia. cbn [bind].
    assert (Hd : f 1%nat - f 0%nat = (hi - lo) / INR (S (S n) - 1)).
    { unfold f. simpl INR. ring. }
    rewrite Hd. rewrite !map_map. reflexivity.
  - simpl INR. ring.
  - unfold d. field. lra.
  - intros m Hm. unfold d. rewrite Hm.
    replace (2 * m + 1 - 1)%nat with (2 * m)%nat by lia.
    assert (Hm0 : 0 < INR m).
    { apply lt_0_INR. lia. }
    rewrite mult_INR. simpl INR. field. lra.
Qed.

Lemma distributions_centres_witness :
  let self := {| a := 25; ng := 3; stb := true; obs := false;
                 obs_gamma := 1200; obs_beta := 63662 / 10000 |} in
  let s := [1; 3 / 4; 1 / 2] in
  let d := (1 - 1 / 2) / INR (ng self - 1) in
  0 < d /\
  distributions gaussian self s 1 =
  Ok (map (fun k =>
             map (fun _s => gaussian 1 ((1 / 2 + INR k * d) / d) (_s / d)) s)
          (seq 0 (ng self))) /\
  1 / 2 + INR 0 * d = 1 / 2 /\ 1 / 2 + INR (ng self - 1) * d = 1 /\
  forall m, ng self = (2 * m + 1)%nat ->
    1 / 2 + INR m * d = (1 / 2 + 1) / 2.
Proof.
  intros self s d.
  apply (distributions_centres gaussian self s 1 (1 / 2) 1).
  - simpl. f_equal. rewrite (Rmin_right 1 (3 / 4)) by lra.
    apply Rmin_right. lra.
  - simpl. f_equal. rewrite (Rmax_left 1 (3 / 4)) by lra.
    apply Rmax_left. lra.
  - lra.
  - simpl. lia.
Defined.

(** C6 (as stated) fails: with [ng = 1] no basis matrix is returned. *)
Lemma distributions_single_basis_raises :
  distributions gaussian
    {| a := 25; ng := 1; stb := false; obs := false;
       obs_gamma := 1200; obs_beta := 63662 / 10000 |}
    [1; 3 / 4; 1 / 2] 1 = Raise IndexError.
Proof. reflexivity. Qed.

(** *** Obstacle term *)

Lemma avoid_one_slow (self : DynamicMovementPrimitive) (x dx g : nd)
  (o : list R) (p : nd) :
  norm dx <= 5 / 100000 -> avoid_one self x dx g o p = Ok p.
Proof.
  intro H. unfold avoid_one.
  apply Rltb_false in H. rewrite H. reflexivity.
Qed.

Lemma for_each_unchanged {A St : Type} (l : list A)
  (body : A -> St -> res St) (s : St) :
  (forall x, In x l -> body x s = Ok s) -> for_each l body s = Ok s.
Proof.
  induction l as [|x l IH]; intro H; simpl.
  - reflexivity.
  - rewrite (H x) by (left; reflexivity).
    apply IH. intros y Hy. apply H. right. assumption.
Qed.

(** On obstacles given as a two-dimensional array the repulsion term is
    all zeros when the array has no rows, and for any rows when the
    velocity magnitude is at most 0.00005, whatever the position and the
    goal. *)
Theorem avoid_obstacles_zero (self : DynamicMovementPrimitive)
  (x dx g : nd) :
  avoid_obstacles self x dx g (ObstacleArray []) = Ok (zeros_like x) /\
  (forall rows, norm dx <= 5 / 100000 ->
     avoid_obstacles self x dx g (ObstacleArray rows) = Ok (zeros_like x)).
Proof.
  split.
  - reflexivity.
  - intros rows H. unfold avoid_obstacles. simpl.
    apply for_each_unchanged. intros o _. apply avoid_one_slow. assumption.
Qed.

(** The slicing [obstacles[:,:3]] is that of a two-dimensional array:
    the Python list that [generate] has as default is rejected before
    the loop. *)
Lemma avoid_obstacles_python_list (self : DynamicMovementPrimitive)
  (x dx g : nd) :
  avoid_obstacles self x dx g PyEmptyList = Raise TypeError.
Proof. reflexivity. Qed.

Lemma norm_zero3 : norm (Vec [0; 0; 0]) = 0.
Proof.
  unfold norm, Np.sum. simpl.
  replace (0 + 0 * 0 + 0 * 0 + 0 * 0) with 0 by ring. apply sqrt_0.
Qed.

Lemma avoid_obstacles_zero_witness :
  avoid_obstacles
    {| a := 25; ng := 10; stb := true; obs := true;
       obs_gamma := 1200; obs_beta := 63662 / 10000 |}
    (Vec [1; 2; 3]) (Vec [0; 0; 0]) (Vec [4; 4; 4])
    (ObstacleArray [[2; 2; 3; 1]]) = Ok (Vec [0; 0; 0]).
Proof.
  apply (avoid_obstacles_zero _ (Vec [1; 2; 3]) (Vec [0; 0; 0]) (Vec [4; 4; 4])).
  rewrite norm_zero3. lra.
Defined.

(** Shapes through the element-wise operations. *)

Lemma zip_with_length (f : R -> R -> R) (u v : list R) :
  length u = length v -> length (zip_with f u v) = length u.
Proof.
  revert v. induction u as [|x u IH]; intros [|y v] H; simpl in *;
    try reflexivity; try discriminate.
  f_equal. apply IH. lia.
Qed.

Lemma lift1_small (f : R -> R) (d : nd) : small d -> small (lift1 f d).
Proof. destruct d; simpl; [trivial | rewrite length_map; trivial]. Qed.

Lemma lift2_small (f : R -> R -> R) (d e r : nd) :
  small d -> small e -> lift2 f d e = Ok r -> small r.
Proof.
  intros Hd He H. destruct d as [x|u], e as [y|v]; simpl in *.
  - inversion H; subst. exact I.
  - inversion H; subst. simpl. rewrite length_map. assumption.
  - inversion H; subst. simpl. rewrite length_map. assumption.
  - destruct (length u =? length v)%nat eqn:E.
    + apply Nat.eqb_eq in E. inversion H; subst. simpl.
      rewrite zip_with_length by assumption. assumption.
    + destruct u as [|x [|x' u]]; simpl in *.
      * destruct v as [|y [|y' v]]; simpl in *; try discriminate.
        inversion H; subst. simpl. lia.
      * inversion H; subst. simpl. rewrite length_map. assumption.
      * lia.
Qed.

Lemma is_negative_small (d : nd) (neg : bool) :
  is_negative d = Ok neg -> small d.
Proof.
  destruct d as [x|[|x [|y v]]]; simpl; intro H;
    try exact I; try lia; discriminate.
Qed.

(** Adding a scalar or a one-element array to an array whose components
    are all equal leaves them all equal. *)
Lemma iadd_array_uniform (x : list R) (c : R) (e r : nd) :
  small e ->
  iadd_array (Vec (map (fun _ => c) x)) e = Ok r ->
  exists c', r = Vec (map (fun _ => c') x).
Proof.
  intros He H. unfold iadd_array, Np.add in H.
  destruct e as [y|v].
  - simpl in H. rewrite !length_map, Nat.eqb_refl in H.
    inversion H; subst. exists (c + y). rewrite map_map. reflexivity.
  - simpl in He. destruct v as [|y [|y' v]]; simpl in He; try lia.
    + (* an empty array *)
      simpl in H. rewrite length_map in H.
      destruct x as [|x0 [|x1 x]]; simpl in H; try discriminate.
      inversion H; subst. exists c. reflexivity.
    + (* one element *)
      simpl in H. rewrite length_map in H.
      destruct x as [|x0 [|x1 x]]; simpl in H; try discriminate.
      * inversion H; subst. exists c. reflexivity.
      * inversion H; subst. exists (c + y). reflexivity.
      * rewrite !length_map, Nat.eqb_refl in H.
        inversion H; subst. exists (c + y). simpl. rewrite map_map.
        reflexivity.
Qed.

Lemma avoid_one_uniform (self : DynamicMovementPrimitive) (x : list R)
  (dx g : nd) (o : list R) (c : R) (r : nd) :
  avoid_one self (Vec x) dx g o (Vec (map (fun _ => c) x)) = Ok r ->
  exists c', r = Vec (map (fun _ => c') x).
Proof.
  unfold avoid_one. intro H.
  destruct (Rltb (5 / 100000) (norm dx)).
  2:{ inversion H; subst. exists c. reflexivity. }
  bind_ok H as ox Hox. bind_ok H as dt Hdt. bind_ok H as phi Hphi.
  bind_ok H as neg Hneg.
  pose proof (is_negative_small _ _ Hneg) as Hsmall.
  assert (Hphi_small : small phi).
  { apply (lift2_small Rdiv dt (Sc (norm ox * norm dx)) phi Hsmall I Hphi). }
  set (phi' := if neg then lift1 Ropp (lift1 acos phi) else lift1 acos phi)
    in *.
  assert (Hphi' : small phi').
  { subst phi'. destruct neg; repeat apply lift1_small; assumption. }
  unfold op2, sc in H.
  bind_ok H as m Hm.
  assert (Hm_small : small m).
  { apply (lift2_small Rmult (Sc (obs_gamma self)) phi' m I Hphi' Hm). }
  bind_ok H as dphi Hdphi.
  assert (Hdphi_small : small dphi).
  { apply (lift2_small Rmult m _ dphi Hm_small) in Hdphi; [assumption|].
    repeat apply lift1_small. assumption. }
  bind_ok H as gx Hgx.
  apply (iadd_array_uniform x c _ r) in H; [assumption|].
  destruct (Rltb (norm gx) (norm ox)); [exact I | assumption].
Qed.

Lemma zip3 (f : R -> R -> R) (u v : list R) :
  length u = 3%nat -> length v = 3%nat ->
  exists r, lift2 f (Vec u) (Vec v) = Ok (Vec r) /\ length r = 3%nat.
Proof.
  intros Hu Hv. simpl. rewrite Hu, Hv. simpl.
  eexists. split; [reflexivity|].
  rewrite zip_with_length; congruence.
Qed.

(** For a position, a velocity and a goal with three components and
    obstacles of at least three, [avoid_obstacles] returns a vector of
    three components. *)
Lemma avoid_obstacles_returns (self : DynamicMovementPrimitive)
  (x dx g : list R) (rows : list (list R)) :
  length x = 3%nat -> length dx = 3%nat -> length g = 3%nat ->
  Forall (fun o => (3 <= length o)%nat) rows ->
  exists p,
    avoid_obstacles self (Vec x) (Vec dx) (Vec g) (ObstacleArray rows)
    = Ok (Vec p) /\ length p = 3%nat.
Proof.
  intros Hx Hdx Hg Hrows. unfold avoid_obstacles. simpl first_three.
  cbn [bind].
  destruct (for_each_total
              (fun _ q => exists p, q = Vec p /\ length p = 3%nat)
              (map (firstn 3) rows)
              (avoid_one self (Vec x) (Vec dx) (Vec g))
              O (zeros_like (Vec x))) as [q [Hrun [p [-> Hp]]]].
  - simpl. eexists. split; [reflexivity|]. rewrite length_map. assumption.
  - intros i o q Ho [p [-> Hp]].
    assert (Lo : length o = 3%nat).
    { rewrite nth_error_map in Ho.
      destruct (nth_error rows i) as [row|] eqn:Er; [|discriminate].
      change (Some (firstn 3 row) = Some o) in Ho.
      assert (Eo : o = firstn 3 row) by congruence. subst o.
      rewrite Forall_forall in Hrows.
      specialize (Hrows row (nth_error_In _ _ Er)).
      rewrite length_firstn. lia. }
    unfold avoid_one.
    destruct (Rltb (5 / 100000) (norm (Vec dx))).
    2:{ eexists. split; [reflexivity|]. eexists. split; [reflexivity|].
        assumption. }
    unfold Np.sub.
    destruct (zip3 Rminus o x Lo Hx) as [ox [-> Lox]]. cbn [bind].
    unfold Np.dot. rewrite Hdx, Lox. simpl Nat.eqb. cbn iota. cbn [bind].
    simpl Np.div. cbn [bind]. simpl is_negative. cbn [bind].
    unfold op2, sc.
    destruct (Rltb (Np.sum (zip_with Rmult dx ox)) 0);
      cbn [lift1]; unfold Np.mul; cbn [lift2 bind];
      rewrite Hg, Hx; cbn [Nat.eqb bind];
      destruct (Rltb (norm (Vec (zip_with Rminus g x))) (norm (Vec ox)));
      unfold iadd_array, Np.add; cbn [lift2 bind same_shape];
      rewrite !length_map, Nat.eqb_refl;
      (eexists; split; [reflexivity|]; eexists; split; [reflexivity|];
       rewrite length_map; assumption).
  - exists p. split; assumption.
Qed.

Lemma lift2_three (f : R -> R -> R) (u v : list R) :
  length u = 3%nat -> length v = 3%nat ->
  lift2 f (Vec u) (Vec v) = Ok (Vec (zip_with f u v)).
Proof. intros Hu Hv. simpl. rewrite Hu, Hv. reflexivity. Qed.

(** On three components one obstacle adds the number [dphi_of] to every
    component of the accumulator. *)
Lemma avoid_one_value (self : DynamicMovementPrimitive)
  (x dx g o : list R) (c : R) :
  length x = 3%nat -> length dx = 3%nat -> length g = 3%nat ->
  length o = 3%nat ->
  avoid_one self (Vec x) (Vec dx) (Vec g) o (Vec (map (fun _ => c) x))
  = Ok (Vec (map (fun _ => c + dphi_of self x dx g o) x)).
Proof.
  intros Hx Hdx Hg Ho.
  assert (Hadd : forall d,
            iadd_array (Vec (map (fun _ => c) x)) (Sc d)
            = Ok (Vec (map (fun _ => c + d) x))).
  { intro d. unfold iadd_array, Np.add. cbn [lift2 bind same_shape].
    rewrite !length_map, Nat.eqb_refl, map_map. reflexivity. }
  unfold avoid_one, dphi_of.
  destruct (Rltb (5 / 100000) (norm (Vec dx))).
  2:{ f_equal. f_equal. apply map_ext. intro. ring. }
  unfold Np.sub.
  rewrite (lift2_three Rminus o x Ho Hx), (lift2_three Rminus g x Hg Hx).
  cbn [bind]. unfold Np.dot.
  rewrite Hdx, (zip_with_length Rminus o x) by congruence.
  rewrite Ho. simpl Nat.eqb. cbn iota. cbn [bind].
  simpl Np.div. cbn [bind]. simpl is_negative. cbn [bind].
  unfold op2, sc.
  destruct (Rltb (Np.sum (zip_with Rmult dx (zip_with Rminus o x))) 0);
    cbn [lift1]; unfold Np.mul; cbn [lift2 bind];
    destruct (Rltb (norm (Vec (zip_with Rminus g x)))
                   (norm (Vec (zip_with Rminus o x))));
    rewrite Hadd; reflexivity.
Qed.

Lemma avoid_obstacles_value (self : DynamicMovementPrimitive)
  (x dx g : list R) (rows : list (list R)) :
  length x = 3%nat -> length dx = 3%nat -> length g = 3%nat ->
  Forall (fun o => (3 <= length o)%nat) rows ->
  avoid_obstacles self (Vec x) (Vec dx) (Vec g) (ObstacleArray rows)
  = Ok (Vec (map (fun _ =>
                    Np.sum (map (fun o => dphi_of self x dx g (firstn 3 o))
                                rows)) x)).
Proof.
  intros Hx Hdx Hg Hrows.
  assert (G : forall c,
            for_each (map (firstn 3) rows)
                     (avoid_one self (Vec x) (Vec dx) (Vec g))
                     (Vec (map (fun _ => c) x))
            = Ok (Vec (map (fun _ =>
                              fold_left Rplus
                                (map (fun o =>
                                        dphi_of self x dx g (firstn 3 o))
                                     rows) c) x))).
  { induction Hrows as [|o rows Ho Hrows IH]; intro c.
    - reflexivity.
    - rewrite !map_cons. cbn [for_each fold_left].
      rewrite (avoid_one_value self x dx g (firstn 3 o) c Hx Hdx Hg)
        by (rewrite length_firstn; lia).
      apply IH. }
  unfold avoid_obstacles. simpl first_three. cbn [bind].
  apply (G 0).
Qed.

(** C10. For a vector-valued position, the repulsion vector that
    [avoid_obstacles] returns has all its components equal: every
    obstacle adds one number to every component.  On three components,
    the shapes of the method, that number is the [dphi] of the obstacle
    and the common value of the components is the sum of them over the
    obstacles (where the angle of an obstacle is used, its quotient is
    to be inside (-1, 1)). *)
Theorem avoid_obstacles_uniform (self : DynamicMovementPrimitive)
  (x : list R) (dx g : nd) (obstacles : obstacles_arg) (p : nd) :
  avoid_obstacles self (Vec x) dx g obstacles = Ok p ->
  (exists c, p = Vec (map (fun _ => c) x)) /\
  (forall (dxl gl : list R) (rows : list (list R)),
     dx = Vec dxl -> g = Vec gl -> obstacles = ObstacleArray rows ->
     length x = 3%nat -> length dxl = 3%nat -> length gl = 3%nat ->
     Forall (fun o => (3 <= length o)%nat /\
                      angle_defined x dxl gl (firstn 3 o)) rows ->
     p = Vec (map (fun _ =>
                     Np.sum (map (fun o => dphi_of self x dxl gl (firstn 3 o))
                                 rows)) x)).
Proof.
  intro H. split.
  - unfold avoid_obstacles in H.
    destruct (first_three obstacles) as [os|] eqn:Hos; simpl in H;
      [|discriminate].
    apply (for_each_invariant
             (fun _ q => exists c, q = Vec (map (fun _ => c) x))
             os (avoid_one self (Vec x) dx g) O _ p H).
    + exists 0. reflexivity.
    + intros i o q q' _ [c Hq] Hstep. subst q.
      apply (avoid_one_uniform self x dx g o c q' Hstep).
  - intros dxl gl rows -> -> -> Hx Hdx Hg Hrows.
    rewrite (avoid_obstacles_value self x dxl gl rows Hx Hdx Hg) in H.
    + inversion H. reflexivity.
    + eapply Forall_impl; [|exact Hrows]. simpl. intros o [Ho _]. exact Ho.
Qed.

(** The norm of a vector on the first axis, and the dot product of two
    vectors at a right angle, for running the method on an input. *)
Lemma norm_axis (c y z : R) :
  0 <= c -> y = 0 -> z = 0 -> norm (Vec [c; y; z]) = c.
Proof.
  intros Hc -> ->. unfold norm, Np.sum. simpl.
  replace (0 + c * c + 0 * 0 + 0 * 0) with (c * c) by ring.
  apply sqrt_square. assumption.
Qed.

Lemma norm_turn (x y z : R) : norm (Vec [x; y; z]) = norm (Vec [y; z; x]).
Proof.
  unfold norm, Np.sum. simpl. f_equal. ring.
Qed.

(** An obstacle at a right angle to a velocity of magnitude 1, at the
    distance [r] of at most the distance 4 of the goal: the angle is
    [PI/2] and the obstacle adds
    [obs_gamma * PI/2 * exp(-obs_beta * PI/2)]. *)
Lemma dphi_of_right_angle (self : DynamicMovementPrimitive) (o : list R)
  (r : R) :
  norm (Vec (zip_with Rminus o [0; 0; 0])) = r -> 0 < r <= 4 ->
  Np.sum (zip_with Rmult [1; 0; 0] (zip_with Rminus o [0; 0; 0])) = 0 ->
  dphi_of self [0; 0; 0] [1; 0; 0] [4; 0; 0] o
  = obs_gamma self * (PI / 2) * exp (- obs_beta self * (PI / 2)).
Proof.
  intros Hr Hrange Hdot. unfold dphi_of.
  rewrite Hr, Hdot.
  rewrite (norm_axis 1 0 0) by (lra || reflexivity).
  assert (Hg : norm (Vec (zip_with Rminus [4; 0; 0] [0; 0; 0])) = 4).
  { simpl zip_with. rewrite norm_axis by lra. lra. }
  rewrite Hg.
  replace (Rltb (5 / 100000) 1) with true
    by (symmetry; apply Rltb_true; lra).
  replace (Rltb 0 0) with false by (symmetry; apply Rltb_false; lra).
  replace (Rltb 4 r) with false by (symmetry; apply Rltb_false; lra).
  replace (0 / (r * 1)) with 0 by (field; lra).
  rewrite acos_0.
  rewrite (Rabs_pos_eq (PI / 2)) by (pose proof PI_RGT_0; lra).
  reflexivity.
Qed.

Lemma avoid_obstacles_uniform_witness :
  let self := {| a := 25; ng := 10; stb := true; obs := true;
                 obs_gamma := 1200; obs_beta := 63662 / 10000 |} in
  let d := 1200 * (PI / 2) * exp (- (63662 / 10000) * (PI / 2)) in
  avoid_obstacles self (Vec [0; 0; 0]) (Vec [1; 0; 0]) (Vec [4; 0; 0])
                  (ObstacleArray [[0; 1; 0; 9]; [0; 0; 2]])
  = Ok (Vec [0 + d + d; 0 + d + d; 0 + d + d]) /\
  0 < 0 + d + d.
Proof.
  intros self d.
  assert (N1 : norm (Vec (zip_with Rminus [0; 1; 0] [0; 0; 0])) = 1).
  { simpl zip_with. rewrite norm_turn.
    rewrite norm_axis by lra. lra. }
  assert (N2 : norm (Vec (zip_with Rminus [0; 0; 2] [0; 0; 0])) = 2).
  { simpl zip_with. rewrite norm_turn, norm_turn.
    rewrite norm_axis by lra. lra. }
  assert (S1 : Np.sum (zip_with Rmult [1; 0; 0]
                         (zip_with Rminus [0; 1; 0] [0; 0; 0])) = 0).
  { unfold Np.sum. simpl. ring. }
  assert (S2 : Np.sum (zip_with Rmult [1; 0; 0]
                         (zip_with Rminus [0; 0; 2] [0; 0; 0])) = 0).
  { unfold Np.sum. simpl. ring. }
  assert (Hd : 0 < d).
  { unfold d. pose proof PI_RGT_0.
    apply Rmult_lt_0_compat; [lra | apply exp_pos]. }
  destruct (avoid_obstacles_returns self [0; 0; 0] [1; 0; 0] [4; 0; 0]
              [[0; 1; 0; 9]; [0; 0; 2]]) as [p [Hp _]];
    try reflexivity.
  { repeat constructor; simpl; lia. }
  destruct (avoid_obstacles_uniform self [0; 0; 0] _ _ _ _ Hp)
    as [_ Hval].
  specialize (Hval [1; 0; 0] [4; 0; 0] [[0; 1; 0; 9]; [0; 0; 2]]
                eq_refl eq_refl eq_refl eq_refl eq_refl eq_refl).
  split; [|lra].
  rewrite Hp. f_equal. rewrite Hval.
  - unfold Np.sum. cbn [map fold_left firstn].
    rewrite (dphi_of_right_angle self [0; 1; 0] 1 N1) by (lra || exact S1).
    rewrite (dphi_of_right_angle self [0; 0; 2] 2 N2) by (lra || exact S2).
    reflexivity.
  - constructor; [|constructor; [|constructor]].
    + split; [simpl; lia|]. right. right. cbn [firstn].
      rewrite S1, N1, (norm_axis 1 0 0) by (lra || reflexivity).
      rewrite Rabs_R0. lra.
    + split; [simpl; lia|]. right. right. cbn [firstn].
      rewrite S2, N2, (norm_axis 1 0 0) by (lra || reflexivity).
      rewrite Rabs_R0. lra.
Defined.

(** *** Imitation *)

Section ImitateScalar.

Variable self : DynamicMovementPrimitive.
Variables (xl dxl ddxl time s : list R) (psv : list (list R)).
Variables (g x0 tau : R).

Lemma imitate_step_scalar (i : nat) (sigma sigma' : list R) (f f' : list nd) :
  (fun i '(sigma, f_target) =>
     '(mod_, sig) <-
       (if stb self then
          m <- sc (b self) .* (Ok (Sc g) .- Ok (Sc x0))
               .* (si <- index s i ;; sc si) ;;
          e <- (Ok (Sc g) .- Ok (Sc x0)) .* (si <- index s i ;; sc si) ;;
          Ok (m, e)
        else
          si <- index s i ;; Ok (Sc 0, Sc si)) ;;
     sig <- assign SlotSc sig ;;
     sigma <- set_item sigma i (scalar_of sig) ;;
     f <- sc (tau ^ 2) .* row (A1 ddxl) i
          .- sc (a self) .* (sc (b self) .* (Ok (Sc g) .- row (A1 xl) i)
                             .- sc tau .* row (A1 dxl) i)
          .+ Ok mod_ ;;
     f <- assign SlotSc f ;;
     f_target <- set_item f_target i f ;;
     Ok (sigma, f_target)) i (sigma, f) = Ok (sigma', f') ->
  set_item sigma i (sigma_at self g x0 s i) = Ok sigma' /\
  set_item f i (Sc (f_target_at self g x0 tau xl dxl ddxl s i)) = Ok f'.
Proof.
  intro H. unfold sigma_at, f_target_at, mod_at.
  unfold op2, sc, row in H.
  destruct (index s i) as [si|] eqn:Es.
  2:{ destruct (stb self); simpl in H; discriminate. }
  destruct (index_nth _ _ _ 0 Es) as [<- _].
  destruct (stb self); simpl in H.
  all: bind_top H as sg E1; bind_top H as ff E2.
  all: destruct (index ddxl i) as [ddi|] eqn:Edd; simpl in E2; [|discriminate].
  all: destruct (index xl i) as [xi|] eqn:Ex; simpl in E2; [|discriminate].
  all: destruct (index dxl i) as [dxi|] eqn:Edx; simpl in E2; [|discriminate].
  all: inversion E2; subst ff; clear E2; simpl in H.
  all: bind_top H as ft E3; inversion H; subst; clear H.
  all: destruct (index_nth _ _ _ 0 Edd) as [<- _].
  all: destruct (index_nth _ _ _ 0 Ex) as [<- _].
  all: destruct (index_nth _ _ _ 0 Edx) as [<- _].
  all: split; [reflexivity | exact E3].
Qed.

End ImitateScalar.

(** On a trajectory of scalars, [imitate] returns the target forcing
    value of every sample and one regression weight for every basis
    row, as the formulas say. *)
Lemma imitate_scalar (self : DynamicMovementPrimitive)
  (xl dxl ddxl time s : list R) (psv : list (list R)) (f w : ndarray) :
  imitate self (A1 xl) (A1 dxl) (A1 ddxl) time s psv = Ok (f, w) ->
  exists g x0 tau sigma fl wl,
    last_item xl = Ok g /\ index xl 0 = Ok x0 /\ last_item time = Ok tau /\
    f = A1 fl /\ w = A1 wl /\
    length sigma = length time /\ length fl = length time /\
    length wl = length psv /\
    (forall i, (i < length time)%nat ->
       nth i sigma 0 = sigma_at self g x0 s i /\
       nth i fl 0 = f_target_at self g x0 tau xl dxl ddxl s i) /\
    (forall k p, nth_error psv k = Some p ->
       nth k wl 0 = weight_of sigma fl p).
Proof.
  unfold imitate. simpl slot_of. cbn [bind]. unfold row_last, row. intro H.
  bind_ok H as g Eg. bind_ok H as x0 Ex0. bind_ok H as tau Etau.
  bind_top H as sf Eloop. destruct sf as [sigma cells].
  bind_top H as wc Ew. inversion H; subst f w; clear H.
  pose proof (for_each_invariant
    (fun k (sf : list R * list nd) =>
       length (fst sf) = length time /\ length (snd sf) = length time /\
       forall i, (i < k)%nat ->
         nth i (fst sf) 0 = sigma_at self g x0 s i /\
         cellv (snd sf) i = f_target_at self g x0 tau xl dxl ddxl s i)
    _ _ O _ _ Eloop) as Hinv.
  rewrite length_seq in Hinv. simpl in Hinv.
  destruct Hinv as (Ls & Lf & Hval).
  { rewrite !repeat_length. split; [reflexivity|]. split; [reflexivity|].
    intros i Hi. lia. }
  { intros i k [sg fc] [sg' fc'] Hk (Ls & Lf & Hval) Hstep.
    apply nth_error_seq0 in Hk. destruct Hk as [-> _].
    simpl in Ls, Lf, Hval.
    destruct (imitate_step_scalar self xl dxl ddxl s g x0 tau i sg sg' fc fc'
                Hstep) as [Ss Sf].
    simpl.
    rewrite (set_item_length _ _ _ _ Ss), (set_item_length _ _ _ _ Sf).
    split; [assumption|]. split; [assumption|].
    intros j Hj. destruct (Nat.eq_dec j i) as [->|Hne].
    - rewrite (set_item_nth_same _ _ _ _ _ Ss), (cellv_set_same _ _ _ _ Sf).
      split; reflexivity.
    - rewrite (set_item_nth_other _ _ _ _ _ _ Ss Hne),
        (cellv_set_other _ _ _ _ _ Sf Hne).
      apply Hval. lia. }
  destruct (map_res_nth _ _ _ Ew) as [Lw Hw].
  exists g, x0, tau, sigma, (map scalar_of cells), (map scalar_of wc).
  rewrite !length_map.
  split; [reflexivity|]. split; [reflexivity|]. split; [reflexivity|].
  split; [reflexivity|].
  split; [destruct wc; reflexivity|].
  split; [assumption|]. split; [assumption|]. split; [assumption|].
  split.
  - intros i Hi. rewrite cellv_pack. apply Hval. assumption.
  - intros k p Hp. destruct (Hw k p Hp) as [y [Hy Hn]].
    rewrite cellv_pack. unfold cellv. rewrite (nth_error_nth _ _ _ Hn).
    unfold dot_diag, dot_rows, Np.dot in Hy.
    destruct (length sigma =? length p)%nat; [|discriminate].
    cbn [bind] in Hy.
    destruct (length (vecmat (length p) sigma (diag p)) =? length cells)%nat;
      [|discriminate].
    cbn [bind] in Hy.
    destruct (length (vecmat (length p) sigma (diag p)) =? length sigma)%nat;
      [|discriminate].
    cbn [bind] in Hy. inversion Hy; subst y. reflexivity.
Qed.

Lemma assign_scalar_vector (u : list R) :
  (2 <= length u)%nat -> assign SlotSc (Vec u) = Raise ValueError.
Proof.
  destruct u as [|x [|y u]]; simpl; intro H; try lia. reflexivity.
Qed.

(** C4 does not hold of the code for a trajectory of vectors when
    stabilization is on: [imitate] raises instead of returning the
    target forcing values and the weights, because [sigma] has one float
    per sample and [(g - x0)*s[i]] is a vector. *)
Theorem imitate_stabilized_vectors_raises (self : DynamicMovementPrimitive)
  (rows : list (list R)) (dx ddx : ndarray) (time s : list R)
  (psv : list (list R)) (g x0 : list R) :
  stb self = true ->
  last_item rows = Ok g -> index rows 0 = Ok x0 ->
  length g = length x0 -> (2 <= length x0)%nat ->
  time <> [] -> s <> [] ->
  imitate self (A2 rows) dx ddx time s psv = Raise ValueError.
Proof.
  intros Hstb Hg Hx0 Hlen HD Htime Hs.
  destruct time as [|t0 time]; [contradiction|].
  destruct s as [|s0 s]; [contradiction|].
  unfold imitate, slot_of, row_last, row.
  rewrite Hx0, Hg. cbn [bind].
  destruct (last_item (t0 :: time)) as [tau|] eqn:Htau.
  2:{ unfold last_item in Htau. simpl length in Htau.
      rewrite (index_in_range _ _ 0) in Htau by (simpl; lia). discriminate. }
  cbn [bind]. simpl length. simpl seq. cbn [for_each].
  rewrite Hstb. unfold op2, sc. simpl index. cbn [bind].
  unfold Np.sub. simpl lift2. rewrite Hlen, Nat.eqb_refl. cbn [bind].
  unfold Np.mul. cbn [lift2 bind index nth_error].
  rewrite assign_scalar_vector; [reflexivity|].
  rewrite length_map, zip_with_length; lia.
Qed.

Lemma imitate_stabilized_vectors_raises_witness :
  imitate {| a := 25; ng := 1; stb := true; obs := false;
             obs_gamma := 1200; obs_beta := 63662 / 10000 |}
          (A2 [[0; 0]; [1; 2]]) (A2 [[0; 0]; [0; 0]]) (A2 [[0; 0]; [0; 0]])
          [1 / 2; 1] [1; 1 / 2] [[1; 1]]
  = Raise ValueError.
Proof.
  apply (imitate_stabilized_vectors_raises _ [[0; 0]; [1; 2]] _ _ _ _ _
           [1; 2] [0; 0]).
  - reflexivity.
  - reflexivity.
  - reflexivity.
  - reflexivity.
  - simpl. lia.
  - discriminate.
  - discriminate.
Defined.

(** *** What [generate] leaves alone *)

Lemma iadd_value_imm (st st' : store) (d e : nd) (v : value) :
  iadd_value st (Imm d) e = Ok (st', v) -> st' = st /\ exists d', v = Imm d'.
Proof.
  unfold iadd_value. intro H. bind_top H as r E.
  inversion H; subst. split; [reflexivity | eexists; reflexivity].
Qed.

(** A turn of the loop keeps the length of the three arrays; when the
    running position is not an array of the caller, it keeps the store. *)
Lemma generate_step_frame (self : DynamicMovementPrimitive) (w : ndarray)
  (x0 g : value) (time s : list R) (psv : list (list R))
  (obstacles : obstacles_arg) (sl : slot) (tau : R) (i : nat)
  (r r' : rollout) :
  generate_step self w x0 g time s psv obstacles sl tau i r = Ok r' ->
  length (r_ddx r') = length (r_ddx r) /\
  length (r_dx r') = length (r_dx r) /\
  length (r_x r') = length (r_x r) /\
  (forall d, r_x_r r = Imm d ->
     r_mem r' = r_mem r /\ exists d', r_x_r r' = Imm d').
Proof.
  unfold generate_step. intro H.
  bind_top H as ti E1. bind_top H as dt E2.
  bind_top H as ms E3. destruct ms as [mod_ sig].
  bind_top H as sigma_i E4.
  bind_top H as pp E5. destruct pp as [p_sum p_div].
  bind_top H as q E6. bind_top H as f E7. bind_top H as f_rep_i E8.
  bind_top H as p E9. bind_top H as ddx_r E10. bind_top H as dx_r E11.
  bind_top H as sx E12. destruct sx as [st x_r].
  bind_top H as c_ddx E13. bind_top H as c_dx E14. bind_top H as c_x E15.
  bind_top H as ddx E16. bind_top H as dx E17. bind_top H as x E18.
  inversion H; subst r'; clear H. simpl.
  rewrite (set_item_length _ _ _ _ E16), (set_item_length _ _ _ _ E17),
    (set_item_length _ _ _ _ E18).
  do 3 (split; [reflexivity|]).
  intros d Hd. rewrite Hd in E12.
  bind_top E12 as e Ee.
  apply iadd_value_imm in E12. exact E12.
Qed.

(** The arrays [generate] returns have one row per time sample; called
    with a start position that is not an array of the caller, it leaves
    the store as it found it. *)
Lemma generate_frame (self : DynamicMovementPrimitive) (st st' : store)
  (w : ndarray) (x0 g : value) (time s : list R) (psv : list (list R))
  (obstacles : obstacles_arg) (out : ndarray * ndarray * ndarray) :
  generate self st w x0 g time s psv obstacles = Ok (st', out) ->
  exists sl ddx dx x,
    slot_of w = Ok sl /\
    out = (pack sl ddx, pack sl dx, pack sl x) /\
    length ddx = length time /\ length dx = length time /\
    length x = length time /\
    (forall d, x0 = Imm d -> st' = st).
Proof.
  unfold generate. intro H.
  bind_top H as sl Esl. bind_top H as tau Etau. bind_top H as r Er.
  inversion H; subst st' out; clear H.
  exists sl, (r_ddx r), (r_dx r), (r_x r).
  split; [reflexivity|]. split; [reflexivity|].
  pose proof (for_each_invariant
                (fun _ q =>
                   length (r_ddx q) = length time /\
                   length (r_dx q) = length time /\
                   length (r_x q) = length time /\
                   (forall d, x0 = Imm d ->
                      r_mem q = st /\ exists d', r_x_r q = Imm d'))
                _ _ O _ r Er) as Hinv.
  destruct Hinv as (L1 & L2 & L3 & Hmem).
  - simpl. rewrite !repeat_length.
    do 3 (split; [reflexivity|]).
    intros d Hd. split; [reflexivity | exists d; assumption].
  - intros i k r1 r2 _ (L1 & L2 & L3 & Hmem) Hstep.
    destruct (generate_step_frame _ _ _ _ _ _ _ _ _ _ _ _ _ Hstep)
      as (M1 & M2 & M3 & Mmem).
    split; [congruence|]. split; [congruence|]. split; [congruence|].
    intros d Hd. destruct (Hmem d Hd) as [Hst [d' Hd']].
    destruct (Mmem d' Hd') as [Hst' Himm].
    split; [congruence | assumption].
  - do 3 (split; [assumption|]).
    intros d Hd. apply (Hmem d Hd).
Qed.

(** With a scalar start position [generate] leaves the store as it is:
    the running position is rebound, not updated in place. *)
Lemma generate_scalar_start_keeps_store (self : DynamicMovementPrimitive)
  (st st' : store) (w : ndarray) (x0 : R) (g : value) (time s : list R)
  (psv : list (list R)) (obstacles : obstacles_arg)
  (out : ndarray * ndarray * ndarray) :
  generate self st w (Imm (Sc x0)) g time s psv obstacles = Ok (st', out) ->
  st' = st.
Proof.
  intro H.
  destruct (generate_frame _ _ _ _ _ _ _ _ _ _ _ H)
    as (sl & ddx & dx & x & _ & _ & _ & _ & _ & Hmem).
  apply (Hmem (Sc x0)). reflexivity.
Qed.

Section ScalarRollout.

Variable self : DynamicMovementPrimitive.
Variables (wl : list R) (x0 g : R) (time s : list R) (psv : list (list R)).
Variable obstacles : obstacles_arg.
Variable tau : R.

Hypothesis no_obstacles : obs self = false.
Hypothesis phase_covers : (length time <= length s)%nat.
Hypothesis some_basis : (1 <= ng self)%nat.
Hypothesis weights_cover : (ng self <= length wl)%nat.
Hypothesis rows_cover : (ng self <= length psv)%nat.
Hypothesis columns_cover :
  forall j, (j < ng self)%nat -> (length time <= length (nth j psv []))%nat.

Lemma forcing_returns (i : nat) :
  (i < length time)%nat ->
  exists ps pd,
    for_each (seq 0 (ng self))
      (fun j '(p_sum, p_div) =>
         psv_j <- index psv j ;;
         psv_ji <- index psv_j i ;;
         t <- sc psv_ji .* row (A1 wl) j ;;
         p_sum <- Np.iadd p_sum t ;;
         Ok (p_sum, p_div + psv_ji))
      (Sc 0, 0) = Ok (Sc ps, pd).
Proof.
  intro Hi.
  destruct (for_each_total
              (fun _ (st : nd * R) => exists v, fst st = Sc v)
              (seq 0 (ng self))
              (fun j '(p_sum, p_div) =>
                 psv_j <- index psv j ;;
                 psv_ji <- index psv_j i ;;
                 t <- sc psv_ji .* row (A1 wl) j ;;
                 p_sum <- Np.iadd p_sum t ;;
                 Ok (p_sum, p_div + psv_ji))
              O (Sc 0, 0)) as [[ps pd] [Hrun [v Hv]]].
  - exists 0. reflexivity.
  - intros k j [ps pd] Hk [v Hv]. simpl in Hv. subst ps.
    apply nth_error_seq0 in Hk. destruct Hk as [-> Hlt].
    rewrite (index_in_range psv k []) by lia. cbn [bind].
    rewrite (index_in_range (nth k psv []) i 0)
      by (specialize (columns_cover k Hlt); lia).
    cbn [bind]. unfold op2, sc, row.
    rewrite (index_in_range wl k 0) by lia. simpl.
    eexists. split; [reflexivity|]. eexists. reflexivity.
  - simpl in Hv. subst ps. exists v, pd. assumption.
Qed.

Lemma generate_step_scalar_returns (i : nat) (r : rollout) :
  (i < length time)%nat -> scalar_state time r ->
  exists r',
    generate_step self (A1 wl) (Imm (Sc x0)) (Imm (Sc g)) time s psv
                  obstacles SlotSc tau i r = Ok r' /\
    scalar_state time r'.
Proof.
  intros Hi ([dv Hdv] & [xv Hxv] & [pv Hpv] & L1 & L2 & L3).
  unfold generate_step. rewrite no_obstacles, Hdv, Hxv, Hpv.
  rewrite (index_in_range time i 0) by assumption. cbn [bind].
  assert (Hdt : exists dt,
            match i with
            | O => Ok (nth i time 0)
            | S k => tk <- index time k ;; Ok (nth i time 0 - tk)
            end = Ok dt).
  { destruct i as [|k]; [eexists; reflexivity|].
    rewrite (index_in_range time k 0) by lia. eexists. reflexivity. }
  destruct Hdt as [dt ->]. cbn [bind].
  assert (Hms : exists m e,
            (if stb self then
               m <- sc (b self) .* (read (r_mem r) (Imm (Sc g))
                                    .- read (r_mem r) (Imm (Sc x0)))
                    .* (si <- index s i ;; sc si) ;;
               e <- (read (r_mem r) (Imm (Sc g))
                     .- read (r_mem r) (Imm (Sc x0)))
                    .* (si <- index s i ;; sc si) ;;
               Ok (m, e)
             else si <- index s i ;; Ok (Sc 0, Sc si)) = Ok (Sc m, Sc e)).
  { rewrite (index_in_range s i 0) by lia.
    destruct (stb self); simpl; eexists; eexists; reflexivity. }
  destruct Hms as (m & e & ->). cbn [bind]. simpl assign. cbn [bind].
  destruct (forcing_returns i Hi) as (ps & pd & ->). cbn [bind].
  destruct (ng self) as [|n] eqn:Hng; [lia|]. simpl Nat.eqb. cbn iota.
  unfold op2, sc, read. simpl.
  match goal with
  | |- context [set_item (r_ddx r) i ?c] =>
      destruct (set_item_in_range (r_ddx r) i c) as [ddx' Hddx']; [lia|]
  end.
  match goal with
  | |- context [set_item (r_dx r) i ?c] =>
      destruct (set_item_in_range (r_dx r) i c) as [dx' Hdx']; [lia|]
  end.
  match goal with
  | |- context [set_item (r_x r) i ?c] =>
      destruct (set_item_in_range (r_x r) i c) as [x' Hx']; [lia|]
  end.
  rewrite Hddx', Hdx', Hx'. cbn [bind].
  eexists. split; [reflexivity|].
  unfold scalar_state. simpl.
  rewrite (set_item_length _ _ _ _ Hddx'), (set_item_length _ _ _ _ Hdx'),
    (set_item_length _ _ _ _ Hx').
  split; [eexists; reflexivity|]. split; [eexists; reflexivity|].
  split; [eexists; reflexivity|].
  split; [|split]; assumption.
Qed.

(** On scalars, with obstacle avoidance off, enough phase samples and
    [ng >= 1] basis rows that cover the time samples, [generate]
    returns three one-dimensional arrays of the length of [time] and
    leaves the store alone. *)
Lemma generate_scalar_returns (st : store) :
  last_item time = Ok tau ->
  exists ddx dx x,
    generate self st (A1 wl) (Imm (Sc x0)) (Imm (Sc g)) time s psv obstacles
    = Ok (st, (A1 ddx, A1 dx, A1 x)).
Proof.
  intro Htau. unfold generate. simpl slot_of. cbn [bind].
  rewrite Htau. cbn [bind].
  destruct (for_each_total
              (fun _ r => scalar_state time r) (seq 0 (length time))
              (generate_step self (A1 wl) (Imm (Sc x0)) (Imm (Sc g)) time s
                             psv obstacles SlotSc tau)
              O {| r_mem := st; r_dx_r := Sc 0; r_x_r := Imm (Sc x0);
                   r_p := Sc 0; r_ddx := repeat (zero SlotSc) (length time);
                   r_dx := repeat (zero SlotSc) (length time);
                   r_x := repeat (zero SlotSc) (length time) |})
    as [r [Hrun _]].
  - unfold scalar_state. simpl. rewrite !repeat_length.
    split; [eexists; reflexivity|]. split; [eexists; reflexivity|].
    split; [eexists; reflexivity|]. auto.
  - intros i k r1 Hk Hr1.
    apply nth_error_seq0 in Hk. destruct Hk as [-> Hlt].
    apply generate_step_scalar_returns; assumption.
  - pose proof Hrun as Hrun'. 
    assert (Hgen : generate self st (A1 wl) (Imm (Sc x0)) (Imm (Sc g)) time s
                     psv obstacles
                   = Ok (r_mem r, (pack SlotSc (r_ddx r), pack SlotSc (r_dx r),
                                   pack SlotSc (r_x r)))).
    { unfold generate. simpl slot_of. cbn [bind]. rewrite Htau. cbn [bind].
      rewrite Hrun. reflexivity. }
    rewrite Hrun. cbn [bind].
    rewrite (generate_scalar_start_keeps_store _ _ _ _ _ _ _ _ _ _ _ Hgen).
    simpl. eexists. eexists. eexists. reflexivity.
Qed.

End ScalarRollout.

(** *** Integration with zero weights *)

Lemma zero_weights_forcing (self : DynamicMovementPrimitive) (wl : list R)
  (psv : list (list R)) (i : nat) (p_sum : nd) (p_div : R) :
  Forall (eq 0) wl ->
  for_each (seq 0 (ng self))
    (fun j '(p_sum, p_div) =>
       psv_j <- index psv j ;;
       psv_ji <- index psv_j i ;;
       t <- sc psv_ji .* row (A1 wl) j ;;
       p_sum <- Np.iadd p_sum t ;;
       Ok (p_sum, p_div + psv_ji))
    (Sc 0, 0) = Ok (p_sum, p_div) ->
  (exists v, p_sum = Sc v /\ v = 0) /\ p_div = activation_sum self psv i.
Proof.
  intros Hw H.
  pose proof (for_each_invariant
           (fun k (st : nd * R) =>
              (exists v, fst st = Sc v /\ v = 0) /\
              snd st = Np.sum (map (fun j => nth i (nth j psv []) 0)
                                   (seq 0 k)))
           _ _ O _ (p_sum, p_div) H) as Hinv.
  rewrite length_seq in Hinv. apply Hinv; clear Hinv.
  - split; [exists 0; split; reflexivity | reflexivity].
  - intros j k [ps pd] [ps' pd'] Hk [[v [Hv Hv0]] Hpd] Hstep.
    apply nth_error_seq0 in Hk. destruct Hk as [-> _].
    simpl in Hv, Hpd. subst ps. simpl Nat.add.
    bind_ok Hstep as psv_j E1. bind_ok Hstep as psv_ji E2.
    unfold op2, sc, row in Hstep.
    bind_ok Hstep as wk E3.
    inversion Hstep; subst ps' pd'; clear Hstep. simpl fst. simpl snd.
    destruct (index_nth wl j wk 0 E3) as [Hnth Hlt].
    destruct (index_nth psv j psv_j [] E1) as [Hrow _].
    destruct (index_nth psv_j i psv_ji 0 E2) as [Hent _].
    split.
    + eexists. split; [reflexivity|].
      rewrite Forall_forall in Hw.
      assert (Hz : 0 = wk).
      { apply Hw. rewrite <- Hnth. apply nth_In. assumption. }
      rewrite <- Hz, Hv0. ring.
    + rewrite seq_S, map_app. simpl. rewrite sum_snoc.
      rewrite Hrow, Hent, Hpd. reflexivity.
Qed.

Lemma step_of_dt (time : list R) (i : nat) (ti dt : R) :
  index time i = Ok ti ->
  match i with
  | O => Ok ti
  | S k => tk <- index time k ;; Ok (ti - tk)
  end = Ok dt ->
  dt = step_of time i.
Proof.
  intros Hti H.
  destruct (index_nth time i ti 0 Hti) as [Hn _].
  destruct i as [|k]; simpl.
  - inversion H; subst. reflexivity.
  - bind_ok H as tk Etk.
    destruct (index_nth time k tk 0 Etk) as [Hk _].
    inversion H; subst. simpl. reflexivity.
Qed.

(** One turn of the loop on scalars, without stabilization, obstacle
    term or forcing: the acceleration is that of the point attractor at
    the state the turn starts from; velocity and position are then
    advanced by [dt]. *)
Lemma generate_step_scalar (self : DynamicMovementPrimitive) (wl : list R)
  (x0 : value) (g : R) (time s : list R) (psv : list (list R))
  (obstacles : obstacles_arg) (tau : R) (i : nat) (r r' : rollout)
  (dv xv : R) :
  stb self = false -> obs self = false -> Forall (eq 0) wl -> tau <> 0 ->
  activation_sum self psv i <> 0 ->
  r_dx_r r = Sc dv -> r_x_r r = Imm (Sc xv) -> r_p r = Sc 0 ->
  generate_step self (A1 wl) x0 (Imm (Sc g)) time s psv obstacles SlotSc
                tau i r = Ok r' ->
  exists ddv,
    tau ^ 2 * ddv = a self * (b self * (g - xv) - tau * dv) /\
    let dv' := dv + ddv * step_of time i in
    let xv' := xv + dv' * step_of time i in
    r_mem r' = r_mem r /\ r_dx_r r' = Sc dv' /\ r_x_r r' = Imm (Sc xv') /\
    r_p r' = Sc 0 /\
    set_item (r_ddx r) i (Sc ddv) = Ok (r_ddx r') /\
    set_item (r_dx r) i (Sc dv') = Ok (r_dx r') /\
    set_item (r_x r) i (Sc xv') = Ok (r_x r').
Proof.
  intros Hstb Hobs Hw Htau Hact Hdx Hx Hp H.
  unfold generate_step in H. rewrite Hstb, Hobs, Hdx, Hx, Hp in H.
  bind_ok H as ti Eti.
  bind_ok H as dt Edt.
  pose proof (step_of_dt time i ti dt Eti Edt) as Hdt. subst dt.
  bind_ok H as si Esi.
  simpl assign in H.
  bind_ok H as pp Epp. destruct pp as [p_sum p_div].
  destruct (zero_weights_forcing self wl psv i p_sum p_div Hw Epp)
    as [[v [Hv Hv0]] Hdiv]. subst p_sum v p_div.
  destruct (ng self =? 0)%nat; [discriminate|].
  unfold op2, sc, read in H. simpl in H.
  bind_ok H as ddx' Eddx. bind_ok H as dx' Edx. bind_ok H as x' Ex.
  inversion H; subst r'; clear H. simpl.
  eexists. split.
  2:{ repeat split; eassumption. }
  field. split; assumption.
Qed.

Lemma before_ext {A : Type} (init : A) (f h : nat -> A) (i : nat) :
  (forall j, (j < i)%nat -> f j = h j) -> before init f i = before init h i.
Proof. destruct i; simpl; intro H; [reflexivity | apply H; lia]. Qed.

Section PointAttractor.

Variable self : DynamicMovementPrimitive.
Variables (wl : list R) (x0 g : R) (time s : list R) (psv : list (list R)).
Variable obstacles : obstacles_arg.
Variable tau : R.

Hypothesis no_stabilization : stb self = false.
Hypothesis no_obstacles : obs self = false.
Hypothesis zero_weights : Forall (eq 0) wl.
Hypothesis tau_nonzero : tau <> 0.
Hypothesis activations :
  forall i, (i < length time)%nat -> activation_sum self psv i <> 0.

Lemma attractor_inv_step (st : store) (v0 : value) (k : nat) (r r' : rollout) :
  (k < length time)%nat ->
  attractor_inv self x0 g tau time st k r ->
  generate_step self (A1 wl) v0 (Imm (Sc g)) time s psv obstacles SlotSc
                tau k r = Ok r' ->
  attractor_inv self x0 g tau time st (S k) r'.
Proof.
  intros Hk (Hmem & Hp & Lddx & Ldx & Lx & Hdx & Hx & Hrec) Hstep.
  destruct (generate_step_scalar self wl v0 g time s psv obstacles tau k r r'
              _ _ no_stabilization no_obstacles zero_weights tau_nonzero
              (activations k Hk) Hdx Hx Hp Hstep)
    as (ddv & Hddv & Hmem' & Hdx' & Hx' & Hp' & Sddx & Sdx & Sx).
  unfold attractor_inv.
  rewrite (set_item_length _ _ _ _ Sddx), (set_item_length _ _ _ _ Sdx),
    (set_item_length _ _ _ _ Sx).
  assert (Bx : forall i, (i <= k)%nat ->
            before x0 (cellv (r_x r')) i = before x0 (cellv (r_x r)) i).
  { intros i Hi. apply before_ext. intros j Hj.
    apply (cellv_set_other _ _ _ _ _ Sx). lia. }
  assert (Bdx : forall i, (i <= k)%nat ->
            before 0 (cellv (r_dx r')) i = before 0 (cellv (r_dx r)) i).
  { intros i Hi. apply before_ext. intros j Hj.
    apply (cellv_set_other _ _ _ _ _ Sdx). lia. }
  split; [congruence|]. split; [assumption|].
  split; [assumption|]. split; [assumption|]. split; [assumption|].
  split; [|split].
  - rewrite Hdx'. simpl before. rewrite (cellv_set_same _ _ _ _ Sdx).
    reflexivity.
  - rewrite Hx'. simpl before. rewrite (cellv_set_same _ _ _ _ Sx).
    reflexivity.
  - intros i Hi.
    rewrite (Bx i), (Bdx i) by lia.
    destruct (Nat.eq_dec i k) as [->|Hne].
    + rewrite (cellv_set_same _ _ _ _ Sddx), (cellv_set_same _ _ _ _ Sdx),
        (cellv_set_same _ _ _ _ Sx).
      repeat split; try reflexivity. exact Hddv.
    + rewrite (cellv_set_other _ _ _ _ _ Sddx Hne),
        (cellv_set_other _ _ _ _ _ Sdx Hne),
        (cellv_set_other _ _ _ _ _ Sx Hne).
      apply Hrec. lia.
Qed.

(** With zero weights, no stabilization and no obstacle term,
    [generate] on scalars leaves the store alone and returns three
    one-dimensional arrays that follow the recurrence. *)
Lemma generate_scalar_recurrence (st st' : store)
  (out : ndarray * ndarray * ndarray) :
  last_item time = Ok tau ->
  generate self st (A1 wl) (Imm (Sc x0)) (Imm (Sc g)) time s psv obstacles
  = Ok (st', out) ->
  exists ddx dx x,
    out = (A1 ddx, A1 dx, A1 x) /\ st' = st /\
    length ddx = length time /\ length dx = length time /\
    length x = length time /\
    attractor_upto self x0 g tau time (length time)
      (fun i => nth i ddx 0) (fun i => nth i dx 0) (fun i => nth i x 0).
Proof.
  intros Htau H. unfold generate in H. simpl slot_of in H.
  cbn [bind] in H. rewrite Htau in H. cbn [bind] in H.
  bind_ok H as r Hr. inversion H; subst st' out; clear H.
  pose proof (for_each_invariant
                (fun k r => (k <= length time)%nat ->
                            attractor_inv self x0 g tau time st k r)
                _ _ O _ r Hr) as Hinv.
  rewrite length_seq in Hinv.
  assert (Hfin : attractor_inv self x0 g tau time st (length time) r).
  { apply Hinv; [| |lia].
    - intros _. unfold attractor_inv. simpl.
      rewrite !repeat_length.
      repeat (split; [reflexivity|]). intros i Hi. lia.
    - intros i k r1 r2 Hk IH Hstep Hle.
      apply nth_error_seq0 in Hk. destruct Hk as [-> Hlt].
      simpl Nat.add in *.
      apply (attractor_inv_step st (Imm (Sc x0)) i r1 r2 Hlt);
        [apply IH; lia | exact Hstep]. }
  destruct Hfin as (Hmem & _ & Lddx & Ldx & Lx & _ & _ & Hrec).
  exists (map scalar_of (r_ddx r)), (map scalar_of (r_dx r)),
    (map scalar_of (r_x r)).
  rewrite !length_map.
  split; [reflexivity|]. split; [assumption|].
  split; [assumption|]. split; [assumption|]. split; [assumption|].
  intros i Hi. destruct (Hrec i Hi) as (E1 & E2 & E3).
  split; [|split].
  - rewrite cellv_pack.
    rewrite (before_ext x0 _ (cellv (r_x r)))
      by (intros; apply cellv_pack).
    rewrite (before_ext 0 _ (cellv (r_dx r)))
      by (intros; apply cellv_pack).
    exact E1.
  - rewrite !cellv_pack.
    rewrite (before_ext 0 _ (cellv (r_dx r)))
      by (intros; apply cellv_pack).
    exact E2.
  - rewrite !cellv_pack.
    rewrite (before_ext x0 _ (cellv (r_x r)))
      by (intros; apply cellv_pack).
    exact E3.
Qed.

End PointAttractor.

(** C3 (as amended). With all-zero weights, stabilization and obstacle
    avoidance disabled, [tau = time[-1]] non-zero and activations that do
    not sum to zero, the sequences returned by [generate] satisfy at every
    sample [i] the point-attractor equation at the state the step starts
    from: [tau^2 * ddx[i] = a * (b * (g - x[i-1]) - tau * dx[i-1])], with
    [x[-1] = x0] and [dx[-1] = 0]; then [dx[i] = dx[i-1] + ddx[i]*dt] and
    [x[i] = x[i-1] + dx[i]*dt]. *)
Theorem generate_point_attractor (self : DynamicMovementPrimitive)
  (st st' : store) (wl : list R) (x0 g : R) (time s : list R)
  (psv : list (list R)) (obstacles : obstacles_arg) (tau : R)
  (ddx dx x : list R) :
  stb self = false -> obs self = false -> Forall (eq 0) wl ->
  last_item time = Ok tau -> tau <> 0 ->
  (forall i, (i < length time)%nat -> activation_sum self psv i <> 0) ->
  generate self st (A1 wl) (Imm (Sc x0)) (Imm (Sc g)) time s psv obstacles
  = Ok (st', (A1 ddx, A1 dx, A1 x)) ->
  forall i, (i < length time)%nat ->
    tau ^ 2 * nth i ddx 0
    = a self * (b self * (g - before x0 (fun k => nth k x 0) i)
                - tau * before 0 (fun k => nth k dx 0) i) /\
    nth i dx 0 = before 0 (fun k => nth k dx 0) i
                 + nth i ddx 0 * step_of time i /\
    nth i x 0 = before x0 (fun k => nth k x 0) i
                + nth i dx 0 * step_of time i.
Proof.
  intros Hstb Hobs Hw Htau Hnz Hact Hgen.
  destruct (generate_scalar_recurrence self wl x0 g time s psv obstacles tau
              Hstb Hobs Hw Hnz Hact st st' _ Htau Hgen)
    as (ddx' & dx' & x' & Hout & _ & _ & _ & _ & Hrec).
  inversion Hout; subst ddx' dx' x'. exact Hrec.
Qed.

Lemma generate_point_attractor_witness :
  let self := {| a := 4; ng := 1; stb := false; obs := false;
                 obs_gamma := 1200; obs_beta := 63662 / 10000 |} in
  let time := [1 / 2; 1] in
  exists ddx dx x,
    generate self [] (A1 [0]) (Imm (Sc 0)) (Imm (Sc 1)) time [1; 1 / 2]
             [[1; 1]] PyEmptyList = Ok ([], (A1 ddx, A1 dx, A1 x)) /\
    forall i, (i < length time)%nat ->
      1 ^ 2 * nth i ddx 0
      = a self * (b self * (1 - before 0 (fun k => nth k x 0) i)
                  - 1 * before 0 (fun k => nth k dx 0) i) /\
      nth i dx 0 = before 0 (fun k => nth k dx 0) i
                   + nth i ddx 0 * step_of time i /\
      nth i x 0 = before 0 (fun k => nth k x 0) i
                  + nth i dx 0 * step_of time i.
Proof.
  intros self time. eexists. eexists. eexists. split.
  - cbn. reflexivity.
  - apply (generate_point_attractor self [] [] [0] 0 1 time [1; 1 / 2]
             [[1; 1]] PyEmptyList 1 _ _ _ eq_refl eq_refl).
    + repeat constructor.
    + reflexivity.
    + lra.
    + intros i Hi. unfold activation_sum, Np.sum. simpl in Hi.
      destruct i as [|[|i]]; simpl; try lra. lia.
    + cbn. reflexivity.
Defined.

(** C3 (as stated) fails: after one step of length 1 from rest at 0
    towards the goal 1, with [a = 4] and [tau = 1], the returned sample
    has [ddx = dx = x = 4], which does not satisfy the equation taken at
    the same index. *)
Lemma generate_same_index_equation_fails :
  let self := {| a := 4; ng := 1; stb := false; obs := false;
                 obs_gamma := 1200; obs_beta := 63662 / 10000 |} in
  exists ddx dx x,
    generate self [] (A1 [0]) (Imm (Sc 0)) (Imm (Sc 1)) [1] [1] [[1]]
             PyEmptyList = Ok ([], (A1 ddx, A1 dx, A1 x)) /\
    nth 0 ddx 0 = 4 /\ nth 0 dx 0 = 4 /\ nth 0 x 0 = 4 /\
    1 ^ 2 * nth 0 ddx 0
    <> a self * (b self * (1 - nth 0 x 0) - 1 * nth 0 dx 0).
Proof.
  intro self. eexists. eexists. eexists. split.
  - cbn. reflexivity.
  - unfold b. cbn. repeat split; lra.
Qed.

(** *** The turns of [adapt] *)

Lemma transpose_rollouts_ok (N : nat)
  (rs : list (list R * list R * list R)) (ddx dx x : list (list R)) :
  transpose_rollouts N rs = Ok (ddx, dx, x) ->
  ddx = by_sample N (map (fun r => fst (fst r)) rs) /\
  dx = by_sample N (map (fun r => snd (fst r)) rs) /\
  x = by_sample N (map snd rs).
Proof.
  destruct rs as [|r rs]; [discriminate|].
  intro H. inversion H. repeat split; reflexivity.
Qed.

Section Turn.

Variable argsort : list R -> list nat.
Variable randn : nat -> R.
Variable self : DynamicMovementPrimitive.
Variables (x0 g : R) (t s : list R) (psv : list (list R)).

(** The rollouts of one turn: one call of [generate] for each action,
    none of which touches the store. *)
Lemma rollouts_of_actions (actions : list (list R)) (st0 st1 : store)
  (rollouts : list (list R * list R * list R)) :
  for_each actions
    (fun act '(st, acc) =>
       '(st, out) <- generate self st (A1 act) (Imm (Sc x0)) (Imm (Sc g))
                              t s psv PyEmptyList ;;
       match out with
       | (A1 ddx, A1 dx, A1 x) => Ok (st, acc ++ [(ddx, dx, x)])
       | _ => Raise ValueError
       end)
    (st0, []) = Ok (st1, rollouts) ->
  st1 = st0 /\
  forall i act, nth_error actions i = Some act ->
    exists ddx dx x,
      nth_error rollouts i = Some (ddx, dx, x) /\
      generate self st0 (A1 act) (Imm (Sc x0)) (Imm (Sc g)) t s psv
               PyEmptyList = Ok (st0, (A1 ddx, A1 dx, A1 x)) /\
      length ddx = length t /\ length dx = length t /\ length x = length t.
Proof.
  intro H.
  pose proof (for_each_invariant
    (fun k (sa : store * list (list R * list R * list R)) =>
       fst sa = st0 /\ length (snd sa) = k /\
       forall i act, (i < k)%nat -> nth_error actions i = Some act ->
         exists ddx dx x,
           nth_error (snd sa) i = Some (ddx, dx, x) /\
           generate self st0 (A1 act) (Imm (Sc x0)) (Imm (Sc g)) t s psv
                    PyEmptyList = Ok (st0, (A1 ddx, A1 dx, A1 x)) /\
           length ddx = length t /\ length dx = length t /\
           length x = length t)
    _ _ O _ _ H) as Hinv.
  simpl in Hinv. destruct Hinv as (Hst & Hlen & Hall).
  - split; [reflexivity|]. split; [reflexivity|]. intros i act Hi. lia.
  - intros i act [st acc] [st' acc'] Hact (Hst & Hlen & Hall) Hstep.
    simpl in Hst, Hlen, Hall. subst st.
    bind_top Hstep as so Egen. destruct so as [st2 out].
    destruct (generate_frame _ _ _ _ _ _ _ _ _ _ _ Egen)
      as (sl & cddx & cdx & cx & Hsl & Hout & L1 & L2 & L3 & Hmem).
    simpl in Hsl. inversion Hsl; subst sl. simpl in Hout. subst out.
    specialize (Hmem _ eq_refl). subst st2.
    inversion Hstep; subst st' acc'; clear Hstep. simpl.
    split; [reflexivity|]. split; [rewrite length_app; simpl; lia|].
    intros j act' Hj Hact'.
    destruct (Nat.eq_dec j i) as [->|Hne].
    + assert (act' = act) by congruence. subst act'.
      exists (map scalar_of cddx), (map scalar_of cdx), (map scalar_of cx).
      rewrite !length_map.
      split; [|split; [exact Egen | auto]].
      rewrite nth_error_app2 by lia.
      replace (i - length acc)%nat with O by lia. reflexivity.
    + destruct (Hall j act') as (ddx & dx & x & Hn & Hrest); [lia|assumption|].
      exists ddx, dx, x. split; [|exact Hrest].
      rewrite nth_error_app1 by (apply nth_error_Some; congruence).
      assumption.
  - split; [assumption|]. intros i act Hact.
    apply (Hall i act); [|assumption].
    apply nth_error_Some. congruence.
Qed.

Variables (aref : loc) (samples : nat) (rate tau : R).

(** What a turn that ran to its end has bound. *)
Lemma adapt_iteration_spec (st st' : store) (k : nat) (it : iteration) :
  adapt_iteration argsort randn self st aref x0 g t s psv samples rate tau k
  = Ok (st', it) ->
  index (it_sort_Q it) 0 = Ok (it_best it) /\
  it_sort_Q it
  = slice_to (rev (argsort (it_Q it))) (Zfloor (INR samples * rate)) /\
  index (it_Q it) (it_best it) = Ok (it_gain it) /\
  (exists x_last x_end,
     last_item (it_x it) = Ok x_last /\
     index x_last (it_best it) = Ok x_end /\
     it_met_threshold it = Rltb (Rabs (x_end - g)) (1 / 100)) /\
  (forall i act, index (it_actions it) i = Ok act ->
     exists ddx dx x,
       generate self st (A1 act) (Imm (Sc x0)) (Imm (Sc g)) t s psv
                PyEmptyList = Ok (st, (A1 ddx, A1 dx, A1 x)) /\
       column (it_ddx it) i = Ok ddx /\
       column (it_dx it) i = Ok dx /\
       column (it_x it) i = Ok x) /\
  (forall q, In q (it_Q it) ->
     exists rs, q = Np.sum rs /\
       Forall (fun r => exists pos tj, r = reward_default g pos tj tau) rs).
Proof.
  unfold adapt_iteration. intro H.
  bind_top H as exploration E1. bind_top H as actions E2.
  bind_top H as sr E3. destruct sr as [st1 rollouts].
  bind_top H as tr E4. destruct tr as [[ddx dx] x].
  bind_top H as Q E5.
  bind_top H as sumQ_y E6. bind_top H as sumQ_x E7.
  bind_top H as update E8. bind_top H as st2 E9.
  bind_top H as best E10. bind_top H as gain E11.
  bind_top H as x_end E12.
  inversion H; subst st' it; clear H. simpl.
  split; [assumption|]. split; [reflexivity|]. split; [assumption|].
  split; [|split].
  - destruct (last_item x) as [x_last|] eqn:El; [|discriminate].
    cbn [bind] in E12. exists x_last, x_end.
    split; [reflexivity|]. split; [assumption | reflexivity].
  - intros i act Hact. apply index_Some in Hact.
    destruct (rollouts_of_actions actions st st1 rollouts E3) as [_ Hroll].
    destruct (Hroll i act Hact) as (ddx_i & dx_i & x_i & Hn & Hgen & L1 & L2 & L3).
    exists ddx_i, dx_i, x_i. split; [assumption|].
    destruct (transpose_rollouts_ok _ _ _ _ _ E4) as (-> & -> & ->).
    split; [|split]; apply column_by_sample; try assumption;
      rewrite nth_error_map, Hn; reflexivity.
  - intros q Hq.
    destruct (map_res_In _ _ _ _ E5 Hq) as [i [_ Hi]].
    bind_top Hi as rs Ers. inversion Hi; subst q; clear Hi.
    exists rs. split; [reflexivity|].
    apply Forall_forall. intros r Hr.
    destruct (map_res_In _ _ _ _ Ers Hr) as [j [_ Hj]].
    bind_top Hj as x_j Exj. bind_top Hj as x_ji Exji. bind_top Hj as t_j Etj.
    inversion Hj; subst r. exists x_ji, t_j. reflexivity.
Qed.

End Turn.

(** *** The loop of [adapt] *)

Section Loop.

Variable argsort : list R -> list nat.
Variable randn : nat -> R.
Variable self : DynamicMovementPrimitive.
Variables (aref : loc) (x0 g : R) (t s : list R) (psv : list (list R)).
Variables (samples : nat) (rate tau : R).

(** A run of the loop that returns is a sequence of turns below the
    threshold followed by one that meets it, whose names the [return]
    reads; [gain] has one more entry for every turn. *)
Lemma adapt_loop_turns (fuel : nat) :
  forall (st st' : store) (k : nat) (gain : list R) (out : adapted),
    adapt_loop argsort randn fuel self st aref x0 g t s psv samples rate tau
               k gain = Some (Ok (st', out)) ->
    exists its st_n k_n it,
      adapt_turns argsort randn self aref x0 g t s psv samples rate tau
                  st k its st_n k_n /\
      adapt_iteration argsort randn self st_n aref x0 g t s psv samples rate
                      tau k_n = Ok (st', it) /\
      it_met_threshold it = true /\
      adapt_return it (gain ++ map it_gain (its ++ [it])) = Ok out.
Proof.
  induction fuel as [|fuel IH]; intros st st' k gain out H; simpl in H.
  - discriminate.
  - destruct (adapt_iteration argsort randn self st aref x0 g t s psv samples
                rate tau k) as [[st1 it]|e] eqn:Hit; [|discriminate].
    destruct (it_met_threshold it) eqn:Hmet.
    + inversion H as [H1]; clear H.
      bind_top H1 as o Eo. inversion H1; subst st1 o; clear H1.
      exists [], st, k, it.
      split; [constructor|]. split; [assumption|]. split; [assumption|].
      exact Eo.
    + destruct (IH _ _ _ _ _ H) as (its & st_n & k_n & itf & Hturns & Hlast
                                    & Hmetf & Hret).
      exists (it :: its), st_n, k_n, itf.
      split; [econstructor; eassumption|].
      split; [assumption|]. split; [assumption|].
      simpl. rewrite <- app_assoc in Hret. exact Hret.
Qed.

Lemma adapt_turns_gains (P : iteration -> Prop) :
  (forall st st' k it,
     adapt_iteration argsort randn self st aref x0 g t s psv samples rate
                     tau k = Ok (st', it) -> P it) ->
  forall st k its st' k',
    adapt_turns argsort randn self aref x0 g t s psv samples rate tau
                st k its st' k' ->
    Forall P its.
Proof.
  intros HP st k its st' k' H. induction H.
  - constructor.
  - constructor; [eapply HP; eassumption | assumption].
Qed.

Lemma iteration_gain_nonneg (st st' : store) (k : nat) (it : iteration) :
  0 < tau ->
  adapt_iteration argsort randn self st aref x0 g t s psv samples rate tau k
  = Ok (st', it) ->
  0 <= it_gain it.
Proof.
  intros Htau H.
  destruct (adapt_iteration_spec _ _ _ _ _ _ _ _ _ _ _ _ _ _ _ _ H)
    as (_ & _ & Hgain & _ & _ & HQ).
  destruct (index_nth _ _ _ 0 Hgain) as [Hn Hlt].
  destruct (HQ (it_gain it)) as [rs [-> Hrs]].
  { rewrite <- Hn. apply nth_In. assumption. }
  apply sum_nonneg. apply Forall_forall. intros r Hr.
  rewrite Forall_forall in Hrs. destruct (Hrs r Hr) as (pos & tj & ->).
  left. apply reward_default_pos. assumption.
Qed.

End Loop.

Lemma cumsum_from_length (acc : R) (l : list R) :
  length (cumsum_from acc l) = length l.
Proof.
  revert acc. induction l as [|x l IH]; intro acc; simpl;
    [reflexivity | f_equal; apply IH].
Qed.

Lemma cumsum_from_lower (l : list R) :
  Forall (fun r => 0 <= r) l ->
  forall acc j, (j < length l)%nat -> acc <= nth j (cumsum_from acc l) 0.
Proof.
  induction 1 as [|x l Hx Hl IH]; intros acc j Hj; simpl in *.
  - lia.
  - destruct j as [|j]; [lra|].
    apply Rle_trans with (acc + x); [lra|]. apply IH. lia.
Qed.

Lemma cumsum_from_monotone (l : list R) :
  Forall (fun r => 0 <= r) l ->
  forall acc i j, (i <= j)%nat -> (j < length l)%nat ->
    nth i (cumsum_from acc l) 0 <= nth j (cumsum_from acc l) 0.
Proof.
  induction 1 as [|x l Hx Hl IH]; intros acc i j Hij Hj; simpl in *.
  - lia.
  - destruct i as [|i], j as [|j]; try lia.
    + lra.
    + apply cumsum_from_lower; [assumption | lia].
    + apply IH; lia.
Qed.

(** C1. When [adapt] returns, the last position of the returned
    trajectory is within 0.01 of the goal, and what it returns comes from
    the last turn of the loop: the weight vector is the candidate
    [actions[sort_Q[0]]] of the best elite, the three sequences are the
    rollout [generate] makes of that candidate, and the trace is the
    cumulative sum of the best elite's score [Q[sort_Q[0]]] over all
    turns. *)
Theorem adapt_returns_best_elite (argsort : list R -> list nat)
  (randn : nat -> R) (fuel : nat) (self : DynamicMovementPrimitive)
  (st st' : store) (w : loc) (x0 g : R) (t s : list R)
  (psv : list (list R)) (samples : nat) (rate : R) (out : adapted) :
  adapt argsort randn fuel self st w x0 g t s psv samples rate
  = Some (Ok (st', out)) ->
  (exists x_end,
     last_item (out_x out) = Ok x_end /\ Rabs (x_end - g) < 1 / 100) /\
  exists tau its st_n k_n it,
    last_item t = Ok tau /\
    adapt_turns argsort randn self w x0 g t s psv samples rate tau
                st 0 its st_n k_n /\
    adapt_iteration argsort randn self st_n w x0 g t s psv samples rate
                    tau k_n = Ok (st', it) /\
    it_met_threshold it = true /\
    index (it_sort_Q it) 0 = Ok (it_best it) /\
    it_sort_Q it
    = slice_to (rev (argsort (it_Q it))) (Zfloor (INR samples * rate)) /\
    index (it_actions it) (it_best it) = Ok (out_w out) /\
    generate self st_n (A1 (out_w out)) (Imm (Sc x0)) (Imm (Sc g)) t s psv
             PyEmptyList
    = Ok (st_n, (A1 (out_ddx out), A1 (out_dx out), A1 (out_x out))) /\
    out_trace out = cumsum (map it_gain (its ++ [it])) /\
    Forall (fun i => index (it_Q i) (it_best i) = Ok (it_gain i))
           (its ++ [it]).
Proof.
  unfold adapt. intro H.
  destruct (last_item t) as [tau|] eqn:Htau; [|discriminate].
  destruct (adapt_loop_turns _ _ _ _ _ _ _ _ _ _ _ _ _ _ _ _ _ _ H)
    as (its & st_n & k_n & it & Hturns & Hlast & Hmet & Hret).
  destruct (adapt_iteration_spec _ _ _ _ _ _ _ _ _ _ _ _ _ _ _ _ Hlast)
    as (Hbest & Hsort & Hgain & (x_last & x_end & Hxl & Hxe & Hthr)
        & Hroll & _).
  unfold adapt_return in Hret.
  bind_top Hret as ddx Eddx. bind_top Hret as dx Edx.
  bind_top Hret as x Ex. bind_top Hret as wv Ew.
  inversion Hret; subst out; clear Hret. simpl.
  destruct (Hroll _ _ Ew) as (ddx' & dx' & x' & Hgen & Cddx & Cdx & Cx).
  assert (ddx' = ddx) by congruence.
  assert (dx' = dx) by congruence.
  assert (x' = x) by congruence. subst ddx' dx' x'.
  split.
  - exists x_end. split.
    + apply (map_res_last _ _ _ _ _ Ex Hxl Hxe).
    + apply Rltb_true. congruence.
  - exists tau, its, st_n, k_n, it.
    split; [reflexivity|]. split; [assumption|]. split; [assumption|].
    split; [assumption|]. split; [assumption|]. split; [assumption|].
    split; [assumption|]. split; [assumption|]. split; [reflexivity|].
    apply Forall_app. split.
    + apply (adapt_turns_gains argsort randn self w x0 g t s psv samples
               rate tau _) with (1 := fun st1 st2 k it' Hit' =>
                 proj1 (proj2 (proj2
                   (adapt_iteration_spec _ _ _ _ _ _ _ _ _ _ _ _ _ _ _ _
                      Hit'))))
        (2 := Hturns).
    + constructor; [assumption | constructor].
Qed.

Lemma cumsum_from_nth (l : list R) :
  forall acc j, (j < length l)%nat ->
    nth j (cumsum_from acc l) 0 = fold_left Rplus (firstn (S j) l) acc.
Proof.
  induction l as [|x l IH]; intros acc j Hj; simpl in Hj; [lia|].
  destruct j as [|j].
  - simpl. destruct l; reflexivity.
  - change (nth j (cumsum_from (acc + x) l) 0
            = fold_left Rplus (firstn (S j) l) (acc + x)).
    apply IH. lia.
Qed.

Lemma iteration_best_score (argsort : list R -> list nat) (randn : nat -> R)
  (self : DynamicMovementPrimitive) (aref : loc) (x0 g : R) (t s : list R)
  (psv : list (list R)) (samples : nat) (rate tau : R) (st st' : store)
  (k : nat) (it : iteration) :
  0 < tau ->
  adapt_iteration argsort randn self st aref x0 g t s psv samples rate tau k
  = Ok (st', it) ->
  best_score g tau it.
Proof.
  intros Htau H.
  destruct (adapt_iteration_spec _ _ _ _ _ _ _ _ _ _ _ _ _ _ _ _ H)
    as (Hbest & _ & Hgain & _ & _ & HQ).
  split; [assumption|]. split; [assumption|].
  destruct (index_nth _ _ _ 0 Hgain) as [Hn Hlt].
  destruct (HQ (it_gain it)) as [rs [Hsum Hrs]].
  { rewrite <- Hn. apply nth_In. assumption. }
  exists rs. split; [assumption|].
  eapply Forall_impl; [|exact Hrs]. simpl.
  intros r (pos & tj & ->). split.
  - apply reward_default_pos. assumption.
  - exists pos, tj. reflexivity.
Qed.

Lemma best_score_nonneg (g tau : R) (it : iteration) :
  best_score g tau it -> 0 <= it_gain it.
Proof.
  intros (_ & _ & rs & -> & Hrs). apply sum_nonneg.
  eapply Forall_impl; [|exact Hrs]. simpl. intros r [Hr _]. lra.
Qed.

(** C9. When [adapt] returns and [tau = t[-1] > 0], the trace has one
    entry for every turn of the loop (at least one); entry [j] is the
    sum of the scores [Q[sort_Q[0]]] of the turns up to [j], each of
    them a sum of positive rewards; and the trace never decreases. *)
Theorem adapt_trace_monotone (argsort : list R -> list nat)
  (randn : nat -> R) (fuel : nat) (self : DynamicMovementPrimitive)
  (st st' : store) (w : loc) (x0 g : R) (t s : list R)
  (psv : list (list R)) (samples : nat) (rate tau : R) (out : adapted) :
  last_item t = Ok tau -> 0 < tau ->
  adapt argsort randn fuel self st w x0 g t s psv samples rate
  = Some (Ok (st', out)) ->
  exists its st_n k_n it,
    adapt_turns argsort randn self w x0 g t s psv samples rate tau
                st 0 its st_n k_n /\
    adapt_iteration argsort randn self st_n w x0 g t s psv samples rate
                    tau k_n = Ok (st', it) /\
    Forall (best_score g tau) (its ++ [it]) /\
    let gains := map it_gain (its ++ [it]) in
    Forall (fun q => 0 <= q) gains /\
    length (out_trace out) = S (length its) /\
    (forall j, (j < length (out_trace out))%nat ->
       nth j (out_trace out) 0 = Np.sum (firstn (S j) gains)) /\
    forall i j, (i <= j)%nat -> (j < length (out_trace out))%nat ->
      nth i (out_trace out) 0 <= nth j (out_trace out) 0.
Proof.
  unfold adapt. intros Htau Hpos H. rewrite Htau in H.
  destruct (adapt_loop_turns _ _ _ _ _ _ _ _ _ _ _ _ _ _ _ _ _ _ H)
    as (its & st_n & k_n & it & Hturns & Hlast & Hmet & Hret).
  unfold adapt_return in Hret.
  bind_top Hret as ddx Eddx. bind_top Hret as dx Edx.
  bind_top Hret as x Ex. bind_top Hret as wv Ew.
  inversion Hret; subst out; clear Hret. simpl.
  assert (Hscores : Forall (best_score g tau) (its ++ [it])).
  { apply Forall_app. split.
    - apply (adapt_turns_gains argsort randn self w x0 g t s psv samples
               rate tau (best_score g tau))
        with (2 := Hturns).
      intros st1 st2 k it' Hit'.
      apply (iteration_best_score _ _ _ _ _ _ _ _ _ _ _ _ _ _ _ _ Hpos Hit').
    - constructor; [|constructor].
      apply (iteration_best_score _ _ _ _ _ _ _ _ _ _ _ _ _ _ _ _ Hpos Hlast). }
  assert (Hg : Forall (fun q => 0 <= q) (map it_gain (its ++ [it]))).
  { apply Forall_map. eapply Forall_impl; [|exact Hscores].
    intros i Hi. apply (best_score_nonneg g tau). assumption. }
  assert (Hlen : length (cumsum (map it_gain (its ++ [it])))
                 = S (length its)).
  { unfold cumsum. rewrite cumsum_from_length, length_map, length_app.
    simpl. lia. }
  exists its, st_n, k_n, it.
  split; [assumption|]. split; [assumption|]. split; [assumption|].
  split; [assumption|]. split; [assumption|]. split.
  - intros j Hj. unfold cumsum in *.
    rewrite cumsum_from_length in Hj.
    apply (cumsum_from_nth _ 0 j Hj).
  - intros i j Hij Hj. unfold cumsum in *.
    rewrite cumsum_from_length in Hj.
    apply cumsum_from_monotone; assumption.
Qed.

(** A run that has returned or raised within [fuel] turns does the same
    with more: the bound on the turns only cuts runs that are still
    going. *)
Lemma adapt_loop_more_fuel (argsort : list R -> list nat) (randn : nat -> R)
  (self : DynamicMovementPrimitive) (aref : loc) (x0 g : R) (t s : list R)
  (psv : list (list R)) (samples : nat) (rate tau : R) (fuel n : nat) :
  forall (st : store) (k : nat) (gain : list R)
         (r : res (store * adapted)),
    adapt_loop argsort randn fuel self st aref x0 g t s psv samples rate
               tau k gain = Some r ->
    adapt_loop argsort randn (fuel + n) self st aref x0 g t s psv samples
               rate tau k gain = Some r.
Proof.
  induction fuel as [|fuel IH]; intros st k gain r H; simpl in *.
  - discriminate.
  - destruct (adapt_iteration argsort randn self st aref x0 g t s psv
                samples rate tau k) as [[st1 it]|e]; [|assumption].
    destruct (it_met_threshold it); [assumption|].
    apply IH. assumption.
Qed.

Lemma adapt_more_fuel (argsort : list R -> list nat) (randn : nat -> R)
  (fuel n : nat) (self : DynamicMovementPrimitive) (st : store) (w : loc)
  (x0 g : R) (t s : list R) (psv : list (list R)) (samples : nat)
  (rate : R) (r : res (store * adapted)) :
  adapt argsort randn fuel self st w x0 g t s psv samples rate = Some r ->
  adapt argsort randn (fuel + n) self st w x0 g t s psv samples rate
  = Some r.
Proof.
  unfold adapt. destruct (last_item t) as [tau|e].
  - apply adapt_loop_more_fuel.
  - destruct fuel; intro H; exact H.
Qed.

(** *** A run of [adapt] *)

Lemma std_example : std [1 * 2; 3 * 2] = 2.
Proof.
  unfold std, mean, Np.sum. simpl.
  match goal with |- sqrt ?u = _ => replace u with (2 * 2) by field end.
  apply sqrt_square. lra.
Qed.

(** One turn on a single candidate: with weight 2, basis row [1, 3] and
    the draw 1/2 the candidate is 3; its rollout from 0 towards the goal
    0 over the times 1, 2 ends at 0, so the loop stops, having added the
    exploration noise to the weight array of the caller. *)
Lemma adapt_example_run :
  exists st' out,
    adapt argsort_insertion (fun _ => 1 / 2) 1 dmp_plain [[2]] 0%nat 0 0
          [1; 2] [1; 1] [[1; 3]] 1 1 = Some (Ok (st', out)) /\
    exists w', st' = [[w']] /\ w' = 3.
Proof.
  eexists. eexists.
  unfold adapt. simpl last_item. cbn [adapt_loop]. unfold adapt_iteration.
  assert (EZ : Zfloor (INR 1 * 1) = 1%Z).
  { apply Zfloor_eq. simpl. lra. }
  rewrite EZ. cbn. change (Pos.to_nat 1) with 1%nat. cbn.
  unfold normal. rewrite std_example.
  match goal with
  | |- context [Rltb ?u ?v] => replace (Rltb u v) with true
  end.
  - cbn. split; [reflexivity|].
    eexists. split; [reflexivity|].
    match goal with
    | |- 2 + (0 + ?e * ?q) / (0 + ?q) = 3 =>
        assert (Hq : 0 < q); [|field_simplify; lra]
    end.
    apply Rplus_lt_le_0_compat.
    + apply Rplus_le_lt_0_compat; [lra|]. apply reward_default_pos. lra.
    + left. apply reward_default_pos. lra.
  - symmetry. apply Rltb_true. unfold b. cbn.
    match goal with |- Rabs ?u < _ => replace u with 0 by lra end.
    rewrite Rabs_R0. lra.
Qed.

Lemma adapt_returns_best_elite_witness :
  exists st' out x_end,
    adapt argsort_insertion (fun _ => 1 / 2) 1 dmp_plain [[2]] 0%nat 0 0
          [1; 2] [1; 1] [[1; 3]] 1 1 = Some (Ok (st', out)) /\
    last_item (out_x out) = Ok x_end /\ Rabs (x_end - 0) < 1 / 100.
Proof.
  destruct adapt_example_run as (st' & out & Hrun & _).
  destruct (adapt_returns_best_elite _ _ _ _ _ _ _ _ _ _ _ _ _ _ _ Hrun)
    as [(x_end & Hlast & Hclose) _].
  exists st', out, x_end.
  split; [exact Hrun|]. split; [exact Hlast | exact Hclose].
Defined.

(** A run of two turns.  From the weight 2 and the basis row [1, 3] the
    first draw, 0, adds nothing: the candidate 2 ends its rollout at
    -1/2, away from the goal -1, and the loop goes on from the same
    weight.  The second draw, 1, gives the candidate 4, whose rollout
    ends at the goal. *)
Lemma adapt_first_turn :
  exists it1,
    adapt_iteration argsort_insertion two_draws dmp_plain [[2]] 0%nat 0 (-1)
                    [1; 2] [1; 0] [[1; 3]] 1 1 2 0
    = Ok ([[2]], it1) /\
    it_met_threshold it1 = false.
Proof.
  unfold adapt_iteration.
  assert (EZ : Zfloor (INR 1 * 1) = 1%Z).
  { apply Zfloor_eq. simpl. lra. }
  rewrite EZ. cbn. change (Pos.to_nat 1) with 1%nat. cbn.
  unfold normal. rewrite std_example. unfold two_draws.
  eexists. split.
  - match goal with
    | |- Ok ([[?e]], _) = _ => replace e with 2 by (unfold Rdiv; ring)
    end.
    reflexivity.
  - simpl it_met_threshold. apply Rltb_false.
    match goal with
    | |- _ <= Rabs ?u => replace u with (1 / 2) by (unfold b; simpl; field)
    end.
    rewrite Rabs_pos_eq; lra.
Qed.

Lemma adapt_second_turn :
  exists st2 it2,
    adapt_iteration argsort_insertion two_draws dmp_plain [[2]] 0%nat 0 (-1)
                    [1; 2] [1; 0] [[1; 3]] 1 1 2 1
    = Ok (st2, it2) /\
    it_met_threshold it2 = true /\
    forall gain, exists out,
      adapt_return it2 gain = Ok out /\ out_trace out = cumsum gain.
Proof.
  unfold adapt_iteration.
  assert (EZ : Zfloor (INR 1 * 1) = 1%Z).
  { apply Zfloor_eq. simpl. lra. }
  rewrite EZ. cbn. change (Pos.to_nat 1) with 1%nat. cbn.
  unfold normal. rewrite std_example. unfold two_draws.
  eexists. eexists. split; [reflexivity|]. split.
  - simpl it_met_threshold. apply Rltb_true.
    match goal with
    | |- Rabs ?u < _ => replace u with 0 by (unfold b; simpl; field)
    end.
    rewrite Rabs_R0. lra.
  - intro gain. eexists. split; [cbn; reflexivity | reflexivity].
Qed.

Lemma adapt_two_turns :
  exists st' out,
    adapt argsort_insertion two_draws 2 dmp_plain [[2]] 0%nat 0 (-1)
          [1; 2] [1; 0] [[1; 3]] 1 1 = Some (Ok (st', out)) /\
    length (out_trace out) = 2%nat.
Proof.
  destruct adapt_first_turn as (it1 & H1 & M1).
  destruct adapt_second_turn as (st2 & it2 & H2 & M2 & R2).
  destruct (R2 (([] ++ [it_gain it1]) ++ [it_gain it2]))
    as (out & Hout & Htrace).
  exists st2, out. split.
  - unfold adapt. change (last_item [1; 2]) with (@Ok R 2).
    cbn [adapt_loop]. rewrite H1. cbv beta iota. rewrite M1.
    change (0 + 1 * ng dmp_plain)%nat with 1%nat.
    rewrite H2. cbv beta iota. rewrite M2, Hout. reflexivity.
  - rewrite Htrace. reflexivity.
Qed.

Lemma adapt_trace_monotone_witness :
  exists st' out,
    adapt argsort_insertion two_draws 2 dmp_plain [[2]] 0%nat 0 (-1)
          [1; 2] [1; 0] [[1; 3]] 1 1 = Some (Ok (st', out)) /\
    length (out_trace out) = 2%nat /\
    nth 0 (out_trace out) 0 <= nth 1 (out_trace out) 0 /\
    exists q1 q2,
      0 <= q1 /\ 0 <= q2 /\
      nth 0 (out_trace out) 0 = Np.sum [q1] /\
      nth 1 (out_trace out) 0 = Np.sum [q1; q2].
Proof.
  destruct adapt_two_turns as (st' & out & Hrun & Hlen).
  destruct (adapt_trace_monotone argsort_insertion two_draws 2 dmp_plain
              [[2]] st' 0%nat 0 (-1) [1; 2] [1; 0] [[1; 3]] 1%nat 1 2 out)
    as (its & st_n & k_n & it & _ & _ & _ & Hg & Hl & Hnth & Hmono).
  - reflexivity.
  - lra.
  - exact Hrun.
  - exists st', out. split; [exact Hrun|]. split; [exact Hlen|].
    split; [apply Hmono; rewrite ?Hlen; lia|].
    assert (L1 : length its = 1%nat) by lia.
    destruct its as [|i1 [|i2 its]]; try discriminate.
    exists (it_gain i1), (it_gain it).
    simpl in Hg. inversion Hg as [|q1 l1 Hq1 Hrest]; subst.
    inversion Hrest as [|q2 l2 Hq2 _]; subst.
    split; [exact Hq1|]. split; [exact Hq2|].
    split.
    + apply (Hnth 0%nat). rewrite Hlen. lia.
    + apply (Hnth 1%nat). rewrite Hlen. lia.
Defined.

(** *** Arrays of the caller *)

(** C2 does not hold of the code: the arrays of the caller are
    modified.  [adapt] binds [a = w] and updates [a] in place, so the
    weight array of the caller holds 3 instead of 2 after the run above;
    [generate] binds [x_r = x0] and integrates in place, so a start
    position passed as an array holds the final position afterwards. *)
Theorem adapt_and_generate_update_caller_arrays :
  (exists st' out w',
     adapt argsort_insertion (fun _ => 1 / 2) 1 dmp_plain [[2]] 0%nat 0 0
           [1; 2] [1; 1] [[1; 3]] 1 1 = Some (Ok (st', out)) /\
     read [[2]] (Ref 0%nat) = Ok (Vec [2]) /\
     read st' (Ref 0%nat) = Ok (Vec [w']) /\ w' = 3) /\
  (exists st' out u v,
     generate dmp_plain [[0; 0]] (A2 [[0; 0]]) (Ref 0%nat) (Imm (Vec [1; 1]))
              [1] [1] [[1]] PyEmptyList = Ok (st', out) /\
     read [[0; 0]] (Ref 0%nat) = Ok (Vec [0; 0]) /\
     read st' (Ref 0%nat) = Ok (Vec [u; v]) /\ u = 4 /\ v = 4).
Proof.
  split.
  - destruct adapt_example_run as (st' & out & Hrun & w' & -> & Hw).
    exists [[w']], out, w'.
    split; [exact Hrun|]. split; [reflexivity|]. split; [reflexivity|].
    exact Hw.
  - eexists. eexists. eexists. eexists.
    split; [cbn; reflexivity|]. split; [reflexivity|].
    split; [cbn; reflexivity|]. unfold b. cbn. split; lra.
Qed.


(** ** Further properties of the methods *)

(** *** Reward: bounds and order *)

(** X1. At a fixed time and for [tau > 0], a position closer to the goal
    has a strictly higher reward. *)
Theorem reward_closer_is_higher (goal p_near p_far time tau : R) :
  0 < tau ->
  Rabs (goal - p_near) < Rabs (goal - p_far) ->
  reward_default goal p_far time tau < reward_default goal p_near time tau.
Proof.
  intros Htau Hd.
  assert (He : exp (- Rabs (goal - p_far)) < exp (- Rabs (goal - p_near))).
  { apply exp_increasing. lra. }
  destruct (Rlt_dec (Rabs (time - tau)) (1 / 100)) as [H|H].
  - rewrite !reward_end by assumption. lra.
  - rewrite !reward_mid by assumption.
    apply Rmult_lt_compat_r; [apply Rinv_0_lt_compat; assumption | lra].
Qed.

Lemma reward_closer_is_higher_witness :
  reward_default 1 0 (1 / 2) 1 < reward_default 1 (1 / 2) (1 / 2) 1.
Proof.
  apply reward_closer_is_higher.
  - lra.
  - replace (1 - 1 / 2) with (1 / 2) by lra.
    replace (1 - 0) with 1 by lra.
    rewrite Rabs_R1, Rabs_pos_eq; lra.
Defined.

(** X2. Near the end of the trajectory the reward is in (0, 0.9], and it
    is 0.9 exactly when the position is the goal. *)
Theorem reward_end_bounds (goal position time tau : R) :
  Rabs (time - tau) < 1 / 100 ->
  0 < reward_default goal position time tau <= 9 / 10 /\
  (reward_default goal position time tau = 9 / 10 <-> position = goal).
Proof.
  intro Hend. rewrite reward_end by assumption.
  pose proof (exp_pos (- Rabs (goal - position))) as Hpos.
  pose proof (Rabs_pos (goal - position)) as Habs.
  assert (Hle : exp (- Rabs (goal - position)) <= 1).
  { rewrite <- exp_0. destruct (Req_dec (Rabs (goal - position)) 0) as [E|E].
    - rewrite E, Ropp_0. right. reflexivity.
    - left. apply exp_increasing. lra. }
  split; [lra|]. split; intro H.
  - assert (E1 : exp (- Rabs (goal - position)) = 1) by lra.
    destruct (Req_dec (Rabs (goal - position)) 0) as [E|E].
    + destruct (Req_dec (goal - position) 0) as [E0|E0]; [lra|].
      apply Rabs_no_R0 in E0. contradiction.
    + assert (exp (- Rabs (goal - position)) < exp 0)
        by (apply exp_increasing; lra).
      rewrite exp_0 in *. lra.
  - subst position. replace (goal - goal) with 0 by ring.
    rewrite Rabs_R0, Ropp_0, exp_0. lra.
Qed.

Lemma reward_end_bounds_witness :
  0 < reward_default 1 0 1 1 <= 9 / 10 /\
  (reward_default 1 0 1 1 = 9 / 10 <-> 0 = 1).
Proof.
  apply reward_end_bounds.
  replace (1 - 1) with 0 by ring. rewrite Rabs_R0. lra.
Defined.

(** *** Phase and basis builder together *)

Lemma fold_max_head (l : list R) (x : R) :
  Forall (fun y => y <= x) l -> fold_left Rmax l x = x.
Proof.
  induction l as [|y l IH]; intro H; simpl; [reflexivity|].
  inversion H; subst. rewrite Rmax_left by assumption. apply IH. assumption.
Qed.

Lemma fold_min_lower (l : list R) (x m : R) :
  m <= x -> Forall (fun y => m <= y) l -> m <= fold_left Rmin l x.
Proof.
  revert x. induction l as [|y l IH]; intros x Hx H; simpl; [assumption|].
  inversion H; subst. apply IH; [|assumption].
  apply Rmin_glb; assumption.
Qed.

Lemma fold_min_upper (l : list R) (x : R) :
  fold_left Rmin l x <= x /\ Forall (fun y => fold_left Rmin l x <= y) l.
Proof.
  revert x. induction l as [|y l IH]; intro x; simpl.
  - split; [lra | constructor].
  - destruct (IH (Rmin x y)) as [H1 H2].
    pose proof (Rmin_l x y). pose proof (Rmin_r x y).
    split; [lra|]. constructor; [lra | assumption].
Qed.

Lemma phase_range (self : DynamicMovementPrimitive) (time : list R) (y : R) :
  0 < a self -> (2 <= length time)%nat -> In y (phase self time) ->
  exp (- as_deg self) <= y <= 1.
Proof.
  intros Ha HN Hy.
  destruct (In_nth _ _ 0 Hy) as [i [Hi <-]].
  rewrite phase_length in Hi. rewrite phase_nth by lia.
  assert (Hden : 0 < INR (length time - 1)) by (apply lt_0_INR; lia).
  assert (Hdeg : 0 < as_deg self) by (unfold as_deg; lra).
  assert (Hfrac : 0 <= INR i / INR (length time - 1) <= 1).
  { split.
    - apply Rmult_le_pos; [apply pos_INR|].
      left. apply Rinv_0_lt_compat. assumption.
    - apply (Rmult_le_reg_r (INR (length time - 1))); [assumption|].
      unfold Rdiv. rewrite Rmult_assoc, Rinv_l by lra.
      rewrite Rmult_1_r, Rmult_1_l. apply le_INR. lia. }
  set (u := INR i / INR (length time - 1)) in *.
  split.
  - destruct (Req_dec (- as_deg self) (- as_deg self * u)) as [E|E].
    + rewrite <- E. right. reflexivity.
    + left. apply exp_increasing. nra.
  - rewrite <- exp_0. destruct (Req_dec (- as_deg self * u) 0) as [E|E].
    + rewrite E. right. reflexivity.
    + left. apply exp_increasing. nra.
Qed.

Lemma phase_min_max (self : DynamicMovementPrimitive) (time : list R) :
  0 < a self -> (2 <= length time)%nat ->
  py_max (phase self time) = Ok 1 /\
  py_min (phase self time) = Ok (exp (- as_deg self)) /\
  exp (- as_deg self) < 1.
Proof.
  intros Ha HN.
  pose proof (phase_length self time) as Hlen.
  pose proof (phase_range self time) as Hrange.
  assert (H0 : nth 0 (phase self time) 0 = 1).
  { rewrite phase_nth by lia. simpl INR.
    replace (- as_deg self * (0 / INR (length time - 1))) with 0
      by (unfold Rdiv; ring).
    apply exp_0. }
  assert (Hlast : nth (length time - 1) (phase self time) 0
                  = exp (- as_deg self)).
  { rewrite phase_nth by lia. f_equal.
    assert (INR (length time - 1) <> 0) by (apply not_0_INR; lia).
    field. assumption. }
  assert (Hin : In (exp (- as_deg self)) (phase self time)).
  { rewrite <- Hlast. apply nth_In. lia. }
  destruct (phase self time) as [|s0 rest] eqn:Es; [simpl in Hlen; lia|].
  simpl in H0. subst s0.
  assert (Hall : Forall (fun y => exp (- as_deg self) <= y <= 1) rest).
  { apply Forall_forall. intros y Hy. apply Hrange; try assumption.
    right. assumption. }
  split; [|split].
  - simpl. f_equal. apply fold_max_head.
    eapply Forall_impl; [|exact Hall]. simpl. intros y Hy. lra.
  - simpl. f_equal. apply Rle_antisym.
    + destruct (fold_min_upper rest 1) as [H1 H2].
      destruct Hin as [E|Hin]; [lra|].
      rewrite Forall_forall in H2. apply H2. assumption.
    + apply fold_min_lower.
      * destruct (Hrange 1 Ha HN (or_introl eq_refl)). lra.
      * eapply Forall_impl; [|exact Hall]. simpl. intros y Hy. lra.
  - rewrite <- exp_0. apply exp_increasing. unfold as_deg. lra.
Qed.

(** X3. For a gain [a > 0] and at least two time samples, the largest
    value of the phase is its first, 1, and the smallest is its last,
    [exp(-as_deg) < 1], and every sample lies between them: the interval
    over which [distributions] spreads the centres. *)
Theorem phase_extremes (self : DynamicMovementPrimitive) (time : list R) :
  0 < a self -> (2 <= length time)%nat ->
  py_max (phase self time) = Ok 1 /\
  py_min (phase self time) = Ok (exp (- as_deg self)) /\
  exp (- as_deg self) < 1 /\
  nth 0 (phase self time) 0 = 1 /\
  nth (length time - 1) (phase self time) 0 = exp (- as_deg self) /\
  forall y, In y (phase self time) -> exp (- as_deg self) <= y <= 1.
Proof.
  intros Ha HN.
  destruct (phase_min_max self time Ha HN) as (Hmax & Hmin & Hlt).
  split; [assumption|]. split; [assumption|]. split; [assumption|].
  split; [|split].
  - rewrite phase_nth by lia. simpl INR.
    replace (- as_deg self * (0 / INR (length time - 1))) with 0
      by (unfold Rdiv; ring).
    apply exp_0.
  - rewrite phase_nth by lia. f_equal.
    assert (INR (length time - 1) <> 0) by (apply not_0_INR; lia).
    field. assumption.
  - intros y Hy. apply (phase_range self time y Ha HN Hy).
Qed.

Lemma phase_extremes_witness :
  let time := [0; 1 / 2; 1] in
  py_max (phase dmp_plain time) = Ok 1 /\
  py_min (phase dmp_plain time) = Ok (exp (- as_deg dmp_plain)) /\
  exp (- as_deg dmp_plain) < 1 /\
  nth 0 (phase dmp_plain time) 0 = 1 /\
  nth (length time - 1) (phase dmp_plain time) 0
  = exp (- as_deg dmp_plain) /\
  forall y, In y (phase dmp_plain time) ->
    exp (- as_deg dmp_plain) <= y <= 1.
Proof.
  intro time. apply phase_extremes.
  - simpl. lra.
  - simpl. lia.
Defined.

Lemma distributions_rows (psi : R -> R -> R -> R)
  (self : DynamicMovementPrimitive) (s : list R) (h lo hi : R) :
  py_min s = Ok lo -> py_max s = Ok hi -> (2 <= ng self)%nat ->
  distributions psi self s h =
  Ok (map (fun k =>
             map (fun _s =>
                    psi h ((lo + INR k * ((hi - lo) / INR (ng self - 1)))
                           / ((hi - lo) / INR (ng self - 1)))
                        (_s / ((hi - lo) / INR (ng self - 1)))) s)
          (seq 0 (ng self))).
Proof.
  intros Hlo Hhi Hng. unfold distributions. rewrite Hlo, Hhi. cbn [bind].
  remember (ng self) as n eqn:En.
  destruct n as [|[|n]]; try lia.
  unfold linspace.
  set (f := fun i => lo + INR i * ((hi - lo) / INR (S (S n) - 1))).
  rewrite !index_map_seq by lia. cbn [bind].
  assert (Hd : f 1%nat - f 0%nat = (hi - lo) / INR (S (S n) - 1)).
  { unfold f. simpl INR. ring. }
  rewrite Hd. rewrite !map_map. reflexivity.
Qed.

(** X4. [distributions] returns exactly for a non-empty phase and at
    least two basis functions, and then gives [ng] rows of [len(s)]
    activations; an empty phase raises ValueError (at [min(s)]), fewer
    than two basis functions IndexError (at [c[1]]). *)
Theorem distributions_shape (psi : R -> R -> R -> R)
  (self : DynamicMovementPrimitive) (s : list R) (h : R) :
  (s = [] -> distributions psi self s h = Raise ValueError) /\
  (s <> [] -> (ng self < 2)%nat ->
   distributions psi self s h = Raise IndexError) /\
  (s <> [] -> (2 <= ng self)%nat ->
   exists psv,
     distributions psi self s h = Ok psv /\
     length psv = ng self /\
     Forall (fun row => length row = length s) psv).
Proof.
  split; [|split].
  - intros ->. reflexivity.
  - intros Hs Hng. destruct s as [|s0 s']; [contradiction|].
    unfold distributions. simpl py_min. simpl py_max. cbn [bind].
    destruct (ng self) as [|[|n]]; try lia; reflexivity.
  - intros Hs Hng. destruct s as [|s0 s']; [contradiction|].
    destruct (py_min_cons s0 s') as [lo Hlo].
    destruct (py_max_cons s0 s') as [hi Hhi].
    rewrite (distributions_rows psi self _ h lo hi Hlo Hhi Hng).
    eexists. split; [reflexivity|].
    split.
    + rewrite length_map, length_seq. reflexivity.
    + apply Forall_forall. intros row Hrow.
      apply in_map_iff in Hrow. destruct Hrow as [k [<- _]].
      apply length_map.
Qed.

Lemma distributions_shape_witness :
  exists psv,
    distributions gaussian
      {| a := 25; ng := 3; stb := true; obs := false;
         obs_gamma := 1200; obs_beta := 63662 / 10000 |}
      [1; 1 / 2; 1 / 4] 1 = Ok psv /\
    length psv = 3%nat /\
    Forall (fun row => length row = 3%nat) psv.
Proof.
  apply (proj2 (proj2 (distributions_shape gaussian
           {| a := 25; ng := 3; stb := true; obs := false;
              obs_gamma := 1200; obs_beta := 63662 / 10000 |}
           [1; 1 / 2; 1 / 4] 1))).
  - discriminate.
  - simpl. lia.
Defined.

(** X5. On the phase of a time vector (gain [a > 0], at least two
    samples, [ng >= 2]) the centres run from [exp(-as_deg)] to 1 with the
    positive spacing [d = (1 - exp(-as_deg))/(ng - 1)], so the division
    by [d] is by a non-zero number, and row [k] of the basis is the
    kernel centred at [(exp(-as_deg) + k*d)/d]. *)
Theorem distributions_of_phase (psi : R -> R -> R -> R)
  (self : DynamicMovementPrimitive) (time : list R) (h : R) :
  0 < a self -> (2 <= length time)%nat -> (2 <= ng self)%nat ->
  let lo := exp (- as_deg self) in
  let d := (1 - lo) / INR (ng self - 1) in
  0 < d /\
  distributions psi self (phase self time) h =
  Ok (map (fun k =>
             map (fun _s => psi h ((lo + INR k * d) / d) (_s / d))
                 (phase self time))
          (seq 0 (ng self))).
Proof.
  intros Ha HN Hng lo d.
  destruct (phase_min_max self time Ha HN) as (Hmax & Hmin & Hlt).
  split.
  - unfold d. apply Rmult_lt_0_compat; [unfold lo; lra|].
    apply Rinv_0_lt_compat. apply lt_0_INR. lia.
  - apply (distributions_rows psi self _ h lo 1 Hmin Hmax Hng).
Qed.

Lemma distributions_of_phase_witness :
  let self := {| a := 3; ng := 2; stb := false; obs := false;
                 obs_gamma := 1200; obs_beta := 63662 / 10000 |} in
  let d := (1 - exp (- as_deg self)) / INR (ng self - 1) in
  0 < d /\
  distributions gaussian self (phase self [0; 1]) 1 =
  Ok (map (fun k =>
             map (fun _s =>
                    gaussian 1 ((exp (- as_deg self) + INR k * d) / d)
                             (_s / d))
                 (phase self [0; 1]))
          (seq 0 (ng self))).
Proof.
  intros self d.
  apply (distributions_of_phase gaussian self [0; 1] 1).
  - simpl. lra.
  - simpl. lia.
  - simpl. lia.
Defined.

(** *** Obstacle term: scalar positions and far obstacles *)

Lemma is_negative_long (v : list R) :
  (2 <= length v)%nat -> is_negative (Vec v) = Raise ValueError.
Proof.
  destruct v as [|x [|y v]]; simpl; intro H; try lia. reflexivity.
Qed.

(** X6. For a scalar position and velocity (one-dimensional motion), a
    velocity above the threshold and a first obstacle of at least two
    coordinates, [avoid_obstacles] raises ValueError: [np.dot(dx, o - x)]
    is an array and has no truth value in the [if]. *)
Theorem avoid_obstacles_scalar_position_raises
  (self : DynamicMovementPrimitive) (x dx : R) (g : nd) (row : list R)
  (rows : list (list R)) :
  5 / 100000 < norm (Sc dx) -> (2 <= length row)%nat ->
  avoid_obstacles self (Sc x) (Sc dx) g (ObstacleArray (row :: rows))
  = Raise ValueError.
Proof.
  intros Hfast Hrow. unfold avoid_obstacles, first_three.
  cbn [bind map for_each]. unfold avoid_one.
  apply Rltb_true in Hfast. rewrite Hfast.
  unfold Np.sub, Np.dot, Np.mul, Np.div. cbn [lift2 bind].
  rewrite is_negative_long; [reflexivity|].
  rewrite !length_map, length_firstn. lia.
Qed.

Lemma norm_one : norm (Sc 1) = 1.
Proof.
  unfold norm, Np.sum. simpl.
  replace (0 + 1 * 1) with 1 by ring. apply sqrt_1.
Qed.

Lemma avoid_obstacles_scalar_position_raises_witness :
  avoid_obstacles dmp_plain (Sc 0) (Sc 1) (Sc 2)
                  (ObstacleArray [[1; 1; 0]]) = Raise ValueError.
Proof.
  apply avoid_obstacles_scalar_position_raises.
  - rewrite norm_one. lra.
  - simpl. lia.
Defined.

Lemma add_zero_uniform (x : list R) :
  iadd_array (Vec (map (fun _ => 0) x)) (Sc 0)
  = Ok (Vec (map (fun _ => 0) x)).
Proof.
  unfold iadd_array, Np.add. cbn [lift2 bind same_shape].
  rewrite !length_map, Nat.eqb_refl. rewrite map_map.
  f_equal. f_equal. apply map_ext. intro. ring.
Qed.

(** X7. Obstacles that are farther from the position than the goal is
    add nothing: when that is so of every obstacle, the repulsion term
    of a three-dimensional position is zero, whatever the velocity. *)
Theorem avoid_obstacles_beyond_goal (self : DynamicMovementPrimitive)
  (x dx g : list R) (rows : list (list R)) :
  length x = 3%nat -> length dx = 3%nat -> length g = 3%nat ->
  Forall (fun o =>
            (3 <= length o)%nat /\
            norm (Vec (zip_with Rminus g x))
            < norm (Vec (zip_with Rminus (firstn 3 o) x))) rows ->
  avoid_obstacles self (Vec x) (Vec dx) (Vec g) (ObstacleArray rows)
  = Ok (Vec (map (fun _ => 0) x)).
Proof.
  intros Hx Hdx Hg Hrows. unfold avoid_obstacles, first_three, zeros_like.
  cbn [bind].
  apply for_each_unchanged. intros o Ho.
  apply in_map_iff in Ho. destruct Ho as [row [<- Hrow]].
  rewrite Forall_forall in Hrows. destruct (Hrows row Hrow) as [Hlen Hfar].
  assert (Lo : length (firstn 3 row) = 3%nat)
    by (rewrite length_firstn; lia).
  unfold avoid_one.
  destruct (Rltb (5 / 100000) (norm (Vec dx))); [|reflexivity].
  unfold Np.sub. cbn [lift2]. rewrite Lo, Hx. cbn [Nat.eqb bind].
  unfold Np.dot. rewrite Hdx, zip_with_length by congruence.
  rewrite Lo. cbn [Nat.eqb bind].
  unfold Np.div. cbn [lift2 bind is_negative].
  unfold op2, sc.
  apply Rltb_true in Hfar.
  destruct (Rltb (Np.sum (zip_with Rmult dx (zip_with Rminus (firstn 3 row) x)))
                 0);
    cbn [lift1]; unfold Np.mul; cbn [lift2 bind];
    rewrite Hg; cbn [Nat.eqb bind]; rewrite Hfar;
    apply add_zero_uniform.
Qed.

Lemma norm_cube (c : R) :
  0 <= c -> norm (Vec [c; 0; 0]) = c.
Proof.
  intro Hc. unfold norm, Np.sum. simpl.
  replace (0 + c * c + 0 * 0 + 0 * 0) with (c * c) by ring.
  apply sqrt_square. assumption.
Qed.

Lemma avoid_obstacles_beyond_goal_witness :
  avoid_obstacles dmp_plain (Vec [0; 0; 0]) (Vec [1; 0; 0]) (Vec [1; 0; 0])
                  (ObstacleArray [[2; 0; 0; 7]])
  = Ok (Vec [0; 0; 0]).
Proof.
  apply (avoid_obstacles_beyond_goal dmp_plain [0; 0; 0] [1; 0; 0] [1; 0; 0]
           [[2; 0; 0; 7]]); try reflexivity.
  constructor; [|constructor]. split; [simpl; lia|].
  simpl zip_with. simpl firstn. simpl zip_with.
  replace (1 - 0) with 1 by ring. replace (2 - 0) with 2 by ring.
  replace (0 - 0) with 0 by ring.
  rewrite !norm_cube by lra. lra.
Defined.

(** *** [generate]: when it returns *)

Lemma for_each_steps {A St : Type} (l : list A) (body : A -> St -> res St) :
  forall (s0 s : St),
    for_each l body s0 = Ok s ->
    forall i x, nth_error l i = Some x ->
      exists s1 s2, body x s1 = Ok s2.
Proof.
  induction l as [|y l IH]; intros s0 s H i x Hi; simpl in H.
  - destruct i; discriminate.
  - destruct (body y s0) as [s1|e] eqn:Hb; [|discriminate].
    destruct i as [|i]; simpl in Hi.
    + inversion Hi; subst. exists s0, s1. assumption.
    + apply (IH s1 s H i x Hi).
Qed.

Lemma op2_ok (f : nd -> nd -> res nd) (ma mb : res nd) (v : nd) :
  op2 f ma mb = Ok v ->
  exists x y, ma = Ok x /\ mb = Ok y /\ f x y = Ok v.
Proof.
  unfold op2. intro H.
  destruct ma as [x|]; [|discriminate]. cbn [bind] in H.
  destruct mb as [y|]; [|discriminate]. cbn [bind] in H.
  exists x, y. auto.
Qed.

Lemma index_ok_lt {A : Type} (l : list A) (i : nat) (v : A) :
  index l i = Ok v -> (i < length l)%nat.
Proof.
  intro H. apply index_Some in H. apply nth_error_Some. congruence.
Qed.

(** What a turn of the loop that ran to its end has found in its
    arguments. *)
Lemma generate_step_needs (self : DynamicMovementPrimitive) (w : ndarray)
  (x0 g : value) (time s : list R) (psv : list (list R))
  (obstacles : obstacles_arg) (sl : slot) (tau : R) (i : nat)
  (r r' : rollout) :
  generate_step self w x0 g time s psv obstacles sl tau i r = Ok r' ->
  (i < length time)%nat /\ (i < length s)%nat /\ (1 <= ng self)%nat /\
  (forall j, (j < ng self)%nat ->
     (j < length psv)%nat /\ (i < length (nth j psv []))%nat /\
     (j < nrows w)%nat) /\
  (obs self = true -> obstacles <> PyEmptyList).
Proof.
  unfold generate_step. intro H.
  bind_top H as ti E1. bind_top H as dt E2.
  bind_top H as ms E3. destruct ms as [mod_ sig].
  bind_top H as sigma_i E4.
  bind_top H as pp E5. destruct pp as [p_sum p_div].
  bind_top H as q E6. bind_top H as f E7. bind_top H as f_rep_i E8.
  bind_top H as p E9.
  split; [apply (index_ok_lt _ _ _ E1)|].
  split.
  { destruct (stb self).
    - bind_top E3 as m Em.
      apply op2_ok in Em. destruct Em as (u & v & _ & Hv & _).
      bind_top Hv as si Esi. apply (index_ok_lt _ _ _ Esi).
    - bind_top E3 as si Esi. apply (index_ok_lt _ _ _ Esi). }
  split.
  { destruct (ng self); [discriminate | lia]. }
  split.
  { intros j Hj.
    destruct (for_each_steps _ _ _ _ E5 j j) as ([ps pd] & sp' & Hstep).
    { rewrite nth_error_seq. destruct (Nat.ltb_spec j (ng self)); [|lia].
      reflexivity. }
    bind_top Hstep as psv_j Ej. bind_top Hstep as psv_ji Eji.
    bind_top Hstep as t Et.
    destruct (index_nth _ _ _ [] Ej) as [Hrow Hlt]. subst psv_j.
    split; [assumption|]. split; [apply (index_ok_lt _ _ _ Eji)|].
    apply op2_ok in Et. destruct Et as (u & v & _ & Hv & _).
    unfold row in Hv. destruct w as [wl|rows]; simpl.
    + bind_top Hv as wj Ewj. apply (index_ok_lt _ _ _ Ewj).
    + bind_top Hv as wj Ewj. apply (index_ok_lt _ _ _ Ewj). }
  intros Hobs ->. rewrite Hobs in E9.
  bind_top E9 as xp Exp. bind_top E9 as dxp Edxp. bind_top E9 as gv Egv.
  discriminate.
Qed.

(** A call that returned has run the turn of its last sample. *)
Lemma generate_last_step (self : DynamicMovementPrimitive)
  (st : store) (w : ndarray) (x0 g : value) (time s : list R)
  (psv : list (list R)) (obstacles : obstacles_arg)
  (res_ : store * (ndarray * ndarray * ndarray)) :
  generate self st w x0 g time s psv obstacles = Ok res_ ->
  time <> [] /\
  exists sl tau r1 r2,
    generate_step self w x0 g time s psv obstacles sl tau
                  (length time - 1)%nat r1 = Ok r2.
Proof.
  unfold generate. intro H.
  bind_top H as sl Esl. bind_top H as tau Etau. bind_top H as r Er.
  assert (Hne : time <> []).
  { intros ->. discriminate. }
  split; [assumption|].
  exists sl, tau.
  apply (for_each_steps _ _ _ _ Er (length time - 1)%nat
           (length time - 1)%nat).
  rewrite nth_error_seq.
  destruct (Nat.ltb_spec (length time - 1)%nat (length time)) as [_|Hge];
    [reflexivity|].
  destruct time; [contradiction | simpl in Hge; lia].
Qed.

(** X8. [generate] returns only for a non-empty time vector, a phase that
    has a sample for every time, at least one basis function, a basis
    matrix with [ng] rows that cover the time samples and [ng] rows of
    weights; with obstacle avoidance on it never returns for the default
    [obstacles=[]].  Otherwise it raises (IndexError, ZeroDivisionError
    for [ng = 0], TypeError for the list). *)
Theorem generate_returns_only_if (self : DynamicMovementPrimitive)
  (st : store) (w : ndarray) (x0 g : value) (time s : list R)
  (psv : list (list R)) (obstacles : obstacles_arg)
  (res_ : store * (ndarray * ndarray * ndarray)) :
  generate self st w x0 g time s psv obstacles = Ok res_ ->
  time <> [] /\ (length time <= length s)%nat /\
  (1 <= ng self)%nat /\ (ng self <= length psv)%nat /\
  (forall j, (j < ng self)%nat ->
     (length time <= length (nth j psv []))%nat) /\
  (ng self <= nrows w)%nat /\
  (obs self = true -> obstacles <> PyEmptyList).
Proof.
  intro H.
  destruct (generate_last_step _ _ _ _ _ _ _ _ _ _ H)
    as (Hne & sl & tau & r1 & r2 & Hlast).
  assert (HN : (1 <= length time)%nat).
  { destruct time; [contradiction | simpl; lia]. }
  destruct (generate_step_needs _ _ _ _ _ _ _ _ _ _ _ _ _ Hlast)
    as (_ & Hs & Hng & Hrows & Hobs).
  split; [assumption|]. split; [lia|]. split; [assumption|].
  split; [destruct (Hrows (ng self - 1)%nat) as (? & _ & _); lia|].
  split; [intros j Hj; destruct (Hrows j Hj) as (_ & ? & _); lia|].
  split; [destruct (Hrows (ng self - 1)%nat) as (_ & _ & ?); lia|].
  assumption.
Qed.

Lemma generate_returns_only_if_witness :
  let time := [1 / 2; 1] in
  let s := [1; 1 / 2] in
  let psv := [[1; 1]] in
  let w := A1 [0] in
  time <> [] /\ (length time <= length s)%nat /\
  (1 <= ng dmp_plain)%nat /\ (ng dmp_plain <= length psv)%nat /\
  (forall j, (j < ng dmp_plain)%nat ->
     (length time <= length (nth j psv []))%nat) /\
  (ng dmp_plain <= nrows w)%nat /\
  (obs dmp_plain = true -> PyEmptyList <> PyEmptyList).
Proof.
  intros time s psv w.
  eapply (generate_returns_only_if dmp_plain [] w (Imm (Sc 0))
            (Imm (Sc 1)) time s psv PyEmptyList).
  cbn. reflexivity.
Defined.

(** *** The empty obstacle list *)

(** C7 does not hold of the code for the empty list of obstacles, the
    default [obstacles=[]] of [generate]: the slicing [obstacles[:,:3]]
    is that of a two-dimensional array, so [avoid_obstacles] raises
    TypeError on the list, at any velocity, instead of returning zeros,
    and [generate] with obstacle avoidance on never returns for its own
    default.  An array without rows, the other way of having no
    obstacle, gives the zeros of the claim. *)
Theorem avoid_obstacles_empty_list_raises :
  (forall (self : DynamicMovementPrimitive) (x dx g : nd),
     avoid_obstacles self x dx g PyEmptyList = Raise TypeError) /\
  (forall (self : DynamicMovementPrimitive) (st : store) (w : ndarray)
          (x0 g : value) (time s : list R) (psv : list (list R))
          (res_ : store * (ndarray * ndarray * ndarray)),
     obs self = true ->
     generate self st w x0 g time s psv PyEmptyList <> Ok res_) /\
  (forall (self : DynamicMovementPrimitive) (x dx g : nd),
     avoid_obstacles self x dx g (ObstacleArray []) = Ok (zeros_like x)).
Proof.
  split; [|split].
  - intros self x dx g. reflexivity.
  - intros self st w x0 g time s psv res_ Hobs H.
    destruct (generate_last_step _ _ _ _ _ _ _ _ _ _ H)
      as (_ & sl & tau & r1 & r2 & Hlast).
    destruct (generate_step_needs _ _ _ _ _ _ _ _ _ _ _ _ _ Hlast)
      as (_ & _ & _ & _ & Hlist).
    apply (Hlist Hobs). reflexivity.
  - intros self x dx g. reflexivity.
Qed.

Lemma avoid_obstacles_empty_list_raises_witness :
  let self := {| a := 4; ng := 1; stb := false; obs := true;
                 obs_gamma := 1200; obs_beta := 63662 / 10000 |} in
  avoid_obstacles self (Vec [1; 2; 3]) (Vec [0; 0; 0]) (Vec [4; 4; 4])
                  PyEmptyList = Raise TypeError /\
  (forall res_,
     generate self [] (A1 [3]) (Imm (Sc 0)) (Imm (Sc 1)) [1 / 2; 1]
              [1; 1 / 2] [[1; 2]] PyEmptyList <> Ok res_) /\
  generate self [] (A1 [3]) (Imm (Sc 0)) (Imm (Sc 1)) [1 / 2; 1]
           [1; 1 / 2] [[1; 2]] PyEmptyList = Raise TypeError /\
  exists out,
    generate (without_obstacles self) [] (A1 [3]) (Imm (Sc 0)) (Imm (Sc 1))
             [1 / 2; 1] [1; 1 / 2] [[1; 2]] PyEmptyList = Ok out.
Proof.
  intro self. split; [|split; [|split]].
  - apply (proj1 avoid_obstacles_empty_list_raises).
  - intro res_.
    apply (proj1 (proj2 avoid_obstacles_empty_list_raises) self).
    reflexivity.
  - cbn. reflexivity.
  - eexists. cbn. reflexivity.
Defined.

(** *** [generate]: the transformation system *)

Lemma weights_forcing (self : DynamicMovementPrimitive) (wl : list R)
  (psv : list (list R)) (i : nat) (p_sum : nd) (p_div : R) :
  for_each (seq 0 (ng self))
    (fun j '(p_sum, p_div) =>
       psv_j <- index psv j ;;
       psv_ji <- index psv_j i ;;
       t <- sc psv_ji .* row (A1 wl) j ;;
       p_sum <- Np.iadd p_sum t ;;
       Ok (p_sum, p_div + psv_ji))
    (Sc 0, 0) = Ok (p_sum, p_div) ->
  (exists v, p_sum = Sc v /\ v = weighted_sum self psv wl i) /\
  p_div = activation_sum self psv i.
Proof.
  intro H.
  pose proof (for_each_invariant
           (fun k (st : nd * R) =>
              (exists v, fst st = Sc v /\
                 v = Np.sum (map (fun j => nth i (nth j psv []) 0
                                           * nth j wl 0) (seq 0 k))) /\
              snd st = Np.sum (map (fun j => nth i (nth j psv []) 0)
                                   (seq 0 k)))
           _ _ O _ (p_sum, p_div) H) as Hinv.
  rewrite length_seq in Hinv. apply Hinv; clear Hinv.
  - split; [exists 0; split; reflexivity | reflexivity].
  - intros j k [ps pd] [ps' pd'] Hk [[v [Hv Hv0]] Hpd] Hstep.
    apply nth_error_seq0 in Hk. destruct Hk as [-> _].
    simpl in Hv, Hpd. subst ps. simpl Nat.add.
    bind_ok Hstep as psv_j E1. bind_ok Hstep as psv_ji E2.
    unfold op2, sc, row in Hstep.
    bind_ok Hstep as wk E3.
    inversion Hstep; subst ps' pd'; clear Hstep. simpl fst. simpl snd.
    destruct (index_nth wl j wk 0 E3) as [Hnth Hlt].
    destruct (index_nth psv j psv_j [] E1) as [Hrow _].
    destruct (index_nth psv_j i psv_ji 0 E2) as [Hent _].
    split.
    + eexists. split; [reflexivity|].
      rewrite seq_S, map_app. simpl. rewrite sum_snoc.
      rewrite Hrow, Hent, Hnth, Hv0. reflexivity.
    + rewrite seq_S, map_app. simpl. rewrite sum_snoc.
      rewrite Hrow, Hent, Hpd. reflexivity.
Qed.

Lemma generate_step_driven (self : DynamicMovementPrimitive) (wl : list R)
  (x0 g : R) (time s : list R) (psv : list (list R))
  (obstacles : obstacles_arg) (tau : R) (i : nat) (r r' : rollout)
  (dv xv : R) :
  obs self = false ->
  r_dx_r r = Sc dv -> r_x_r r = Imm (Sc xv) -> r_p r = Sc 0 ->
  generate_step self (A1 wl) (Imm (Sc x0)) (Imm (Sc g)) time s psv
                obstacles SlotSc tau i r = Ok r' ->
  exists ddv,
    ddv = (a self * (b self * (g - xv) - tau * dv)
           + forcing_at self psv wl g x0 s i + mod_at self g x0 s i)
          / tau ^ 2 /\
    let dv' := dv + ddv * step_of time i in
    let xv' := xv + dv' * step_of time i in
    r_mem r' = r_mem r /\ r_dx_r r' = Sc dv' /\ r_x_r r' = Imm (Sc xv') /\
    r_p r' = Sc 0 /\
    set_item (r_ddx r) i (Sc ddv) = Ok (r_ddx r') /\
    set_item (r_dx r) i (Sc dv') = Ok (r_dx r') /\
    set_item (r_x r) i (Sc xv') = Ok (r_x r').
Proof.
  intros Hobs Hdx Hx Hp H.
  unfold generate_step in H. rewrite Hobs, Hdx, Hx, Hp in H.
  bind_top H as ti Eti.
  bind_top H as dt Edt.
  pose proof (step_of_dt time i ti dt Eti Edt) as Hdt. subst dt.
  destruct (index s i) as [si|] eqn:Esi.
  2:{ unfold op2, sc, read in H. destruct (stb self); simpl in H;
      discriminate. }
  destruct (index_nth _ _ _ 0 Esi) as [Hsi _].
  assert (Hms :
    (if stb self
     then
       m <- sc (b self) .* (read (r_mem r) (Imm (Sc g))
                            .- read (r_mem r) (Imm (Sc x0)))
            .* (si0 <- Ok si ;; sc si0) ;;
       e <- (read (r_mem r) (Imm (Sc g)) .- read (r_mem r) (Imm (Sc x0)))
            .* (si0 <- Ok si ;; sc si0) ;;
       Ok (m, e)
     else si0 <- Ok si ;; Ok (Sc 0, Sc si0))
    = Ok (Sc (mod_at self g x0 s i), Sc (sigma_at self g x0 s i))).
  { unfold mod_at, sigma_at. rewrite Hsi.
    destruct (stb self); reflexivity. }
  rewrite Hms in H. clear Hms. cbn [bind] in H. simpl assign in H.
  bind_top H as pp Epp. destruct pp as [p_sum p_div].
  destruct (weights_forcing self wl psv i p_sum p_div Epp)
    as [[v [Hv Hv0]] Hdiv]. subst p_sum.
  destruct (ng self =? 0)%nat; [discriminate|].
  unfold op2, sc, read in H. simpl in H.
  bind_top H as ddx' Eddx. bind_top H as dx' Edx. bind_top H as x' Ex.
  inversion H; subst r'; clear H. simpl.
  eexists. split.
  2:{ repeat split; eassumption. }
  unfold forcing_at. rewrite <- Hv0, <- Hdiv. unfold Rdiv. ring.
Qed.

Section Driven.

Variable self : DynamicMovementPrimitive.
Variables (wl : list R) (x0 g : R) (time s : list R) (psv : list (list R)).
Variable obstacles : obstacles_arg.
Variable tau : R.

Hypothesis no_obstacles : obs self = false.

Lemma driven_inv_step (st : store) (k : nat) (r r' : rollout) :
  driven_inv self psv wl x0 g tau time s st k r ->
  generate_step self (A1 wl) (Imm (Sc x0)) (Imm (Sc g)) time s psv
                obstacles SlotSc tau k r = Ok r' ->
  driven_inv self psv wl x0 g tau time s st (S k) r'.
Proof.
  intros (Hmem & Hp & Lddx & Ldx & Lx & Hdx & Hx & Hrec) Hstep.
  destruct (generate_step_driven self wl x0 g time s psv obstacles tau k r r'
              _ _ no_obstacles Hdx Hx Hp Hstep)
    as (ddv & Hddv & Hmem' & Hdx' & Hx' & Hp' & Sddx & Sdx & Sx).
  unfold driven_inv.
  rewrite (set_item_length _ _ _ _ Sddx), (set_item_length _ _ _ _ Sdx),
    (set_item_length _ _ _ _ Sx).
  assert (Bx : forall i, (i <= k)%nat ->
            before x0 (cellv (r_x r')) i = before x0 (cellv (r_x r)) i).
  { intros i Hi. apply before_ext. intros j Hj.
    apply (cellv_set_other _ _ _ _ _ Sx). lia. }
  assert (Bdx : forall i, (i <= k)%nat ->
            before 0 (cellv (r_dx r')) i = before 0 (cellv (r_dx r)) i).
  { intros i Hi. apply before_ext. intros j Hj.
    apply (cellv_set_other _ _ _ _ _ Sdx). lia. }
  split; [congruence|]. split; [assumption|].
  split; [assumption|]. split; [assumption|]. split; [assumption|].
  split; [|split].
  - rewrite Hdx'. simpl before. rewrite (cellv_set_same _ _ _ _ Sdx).
    reflexivity.
  - rewrite Hx'. simpl before. rewrite (cellv_set_same _ _ _ _ Sx).
    reflexivity.
  - intros i Hi.
    rewrite (Bx i), (Bdx i) by lia.
    destruct (Nat.eq_dec i k) as [->|Hne].
    + rewrite (cellv_set_same _ _ _ _ Sddx), (cellv_set_same _ _ _ _ Sdx),
        (cellv_set_same _ _ _ _ Sx).
      repeat split; try reflexivity. exact Hddv.
    + rewrite (cellv_set_other _ _ _ _ _ Sddx Hne),
        (cellv_set_other _ _ _ _ _ Sdx Hne),
        (cellv_set_other _ _ _ _ _ Sx Hne).
      apply Hrec. lia.
Qed.

Lemma generate_scalar_driven (st st' : store)
  (out : ndarray * ndarray * ndarray) :
  last_item time = Ok tau ->
  generate self st (A1 wl) (Imm (Sc x0)) (Imm (Sc g)) time s psv obstacles
  = Ok (st', out) ->
  exists ddx dx x,
    out = (A1 ddx, A1 dx, A1 x) /\
    driven_upto self psv wl x0 g tau time s (length time)
      (fun i => nth i ddx 0) (fun i => nth i dx 0) (fun i => nth i x 0).
Proof.
  intros Htau H. unfold generate in H. simpl slot_of in H.
  cbn [bind] in H. rewrite Htau in H. cbn [bind] in H.
  bind_ok H as r Hr. inversion H; subst st' out; clear H.
  pose proof (for_each_invariant
                (fun k r => driven_inv self psv wl x0 g tau time s st k r)
                _ _ O _ r Hr) as Hinv.
  rewrite length_seq in Hinv.
  assert (Hfin : driven_inv self psv wl x0 g tau time s st (length time) r).
  { apply Hinv.
    - unfold driven_inv. simpl.
      rewrite !repeat_length.
      repeat (split; [reflexivity|]). intros i Hi. lia.
    - intros i k r1 r2 Hk IH Hstep.
      apply nth_error_seq0 in Hk. destruct Hk as [-> Hlt].
      simpl Nat.add in *.
      apply (driven_inv_step st i r1 r2 IH Hstep). }
  destruct Hfin as (Hmem & _ & Lddx & Ldx & Lx & _ & _ & Hrec).
  exists (map scalar_of (r_ddx r)), (map scalar_of (r_dx r)),
    (map scalar_of (r_x r)).
  split; [reflexivity|].
  intros i Hi. destruct (Hrec i Hi) as (E1 & E2 & E3).
  split; [|split].
  - rewrite cellv_pack.
    rewrite (before_ext x0 _ (cellv (r_x r)))
      by (intros; apply cellv_pack).
    rewrite (before_ext 0 _ (cellv (r_dx r)))
      by (intros; apply cellv_pack).
    exact E1.
  - rewrite !cellv_pack.
    rewrite (before_ext 0 _ (cellv (r_dx r)))
      by (intros; apply cellv_pack).
    exact E2.
  - rewrite !cellv_pack.
    rewrite (before_ext x0 _ (cellv (r_x r)))
      by (intros; apply cellv_pack).
    exact E3.
Qed.

End Driven.

(** X9. On scalars and with obstacle avoidance off, every sample that
    [generate] returns follows the transformation system from the state
    before it: [ddx[i] = (a*(b*(g - x[i-1]) - tau*dx[i-1]) + f_rep[i] +
    mod[i]) / tau^2] with [x[-1] = x0], [dx[-1] = 0], the forcing term
    [f_rep[i] = (sum_j psv[j][i]*w[j]) / (sum_j psv[j][i]) * sigma[i]], and
    [mod], [sigma] as the stabilization flag says; then
    [dx[i] = dx[i-1] + ddx[i]*dt] and [x[i] = x[i-1] + dx[i]*dt].  The
    divisions are by [tau = time[-1]] and by the activation sums, taken
    to be non-zero. *)
Theorem generate_transformation_system (self : DynamicMovementPrimitive)
  (st st' : store) (wl : list R) (x0 g : R) (time s : list R)
  (psv : list (list R)) (obstacles : obstacles_arg) (tau : R)
  (ddx dx x : list R) :
  obs self = false -> last_item time = Ok tau -> tau <> 0 ->
  (forall i, (i < length time)%nat -> activation_sum self psv i <> 0) ->
  generate self st (A1 wl) (Imm (Sc x0)) (Imm (Sc g)) time s psv obstacles
  = Ok (st', (A1 ddx, A1 dx, A1 x)) ->
  forall i, (i < length time)%nat ->
    nth i ddx 0
    = (a self * (b self * (g - before x0 (fun k => nth k x 0) i)
                 - tau * before 0 (fun k => nth k dx 0) i)
       + forcing_at self psv wl g x0 s i + mod_at self g x0 s i)
      / tau ^ 2 /\
    nth i dx 0 = before 0 (fun k => nth k dx 0) i
                 + nth i ddx 0 * step_of time i /\
    nth i x 0 = before x0 (fun k => nth k x 0) i
                + nth i dx 0 * step_of time i.
Proof.
  intros Hobs Htau Hnz Hact Hgen.
  destruct (generate_scalar_driven self wl x0 g time s psv obstacles tau
              Hobs st st' _ Htau Hgen)
    as (ddx' & dx' & x' & Hout & Hrec).
  inversion Hout; subst ddx' dx' x'. exact Hrec.
Qed.

Lemma generate_transformation_system_witness :
  let self := {| a := 4; ng := 1; stb := true; obs := false;
                 obs_gamma := 1200; obs_beta := 63662 / 10000 |} in
  let time := [1 / 2; 1] in
  let s := [1; 1 / 2] in
  let psv := [[1; 2]] in
  exists ddx dx x,
    generate self [] (A1 [3]) (Imm (Sc 0)) (Imm (Sc 1)) time s psv
             PyEmptyList = Ok ([], (A1 ddx, A1 dx, A1 x)) /\
    forall i, (i < length time)%nat ->
      nth i ddx 0
      = (a self * (b self * (1 - before 0 (fun k => nth k x 0) i)
                   - 1 * before 0 (fun k => nth k dx 0) i)
         + forcing_at self psv [3] 1 0 s i + mod_at self 1 0 s i)
        / 1 ^ 2 /\
      nth i dx 0 = before 0 (fun k => nth k dx 0) i
                   + nth i ddx 0 * step_of time i /\
      nth i x 0 = before 0 (fun k => nth k x 0) i
                  + nth i dx 0 * step_of time i.
Proof.
  intros self time s psv. eexists. eexists. eexists. split.
  - cbn. reflexivity.
  - apply (generate_transformation_system self [] [] [3] 0 1 time s psv
             PyEmptyList 1 _ _ _ eq_refl eq_refl).
    + lra.
    + intros i Hi. unfold activation_sum, Np.sum.
      destruct i as [|[|i]]; simpl; try lra. simpl in Hi. lia.
    + cbn. reflexivity.
Defined.

(** *** [generate]: shapes, and the arrays it is given *)

(** X10. On scalars and with obstacle avoidance off, the conditions that
    a returning call needs are also enough: for a non-empty time vector,
    a phase sample for every time, [ng >= 1] weights and [ng] basis rows
    that cover the time samples, [generate] returns three arrays with
    one number per time sample and leaves the store alone. *)
Theorem generate_scalar_total (self : DynamicMovementPrimitive) (st : store)
  (wl : list R) (x0 g : R) (time s : list R) (psv : list (list R))
  (obstacles : obstacles_arg) :
  obs self = false -> time <> [] ->
  (length time <= length s)%nat ->
  (1 <= ng self)%nat -> (ng self <= length wl)%nat ->
  (ng self <= length psv)%nat ->
  (forall j, (j < ng self)%nat ->
     (length time <= length (nth j psv []))%nat) ->
  exists ddx dx x,
    generate self st (A1 wl) (Imm (Sc x0)) (Imm (Sc g)) time s psv obstacles
    = Ok (st, (A1 ddx, A1 dx, A1 x)) /\
    length ddx = length time /\ length dx = length time /\
    length x = length time.
Proof.
  intros Hobs Htime Hs Hng Hw Hpsv Hcols.
  assert (Htau : exists tau, last_item time = Ok tau).
  { destruct time as [|t0 time']; [contradiction|].
    unfold last_item. rewrite (index_in_range _ _ 0) by (simpl; lia).
    eexists. reflexivity. }
  destruct Htau as [tau Htau].
  destruct (generate_scalar_returns self wl x0 g time s psv obstacles tau
              Hobs Hs Hng Hw Hpsv Hcols st Htau) as (ddx & dx & x & Hgen).
  exists ddx, dx, x. split; [exact Hgen|].
  destruct (generate_frame _ _ _ _ _ _ _ _ _ _ _ Hgen)
    as (sl & cddx & cdx & cx & Hsl & Hout & L1 & L2 & L3 & _).
  simpl in Hsl. inversion Hsl; subst sl. simpl in Hout.
  inversion Hout; subst. rewrite !length_map. auto.
Qed.

Lemma generate_scalar_total_witness :
  let time := [1 / 2; 1] in
  exists ddx dx x,
    generate dmp_plain [] (A1 [3]) (Imm (Sc 0)) (Imm (Sc 1)) time
             [1; 1 / 2] [[1; 2]] PyEmptyList
    = Ok ([], (A1 ddx, A1 dx, A1 x)) /\
    length ddx = length time /\ length dx = length time /\
    length x = length time.
Proof.
  intro time.
  apply (generate_scalar_total dmp_plain [] [3] 0 1 time [1; 1 / 2]
           [[1; 2]] PyEmptyList).
  - reflexivity.
  - discriminate.
  - simpl. lia.
  - simpl. lia.
  - simpl. lia.
  - simpl. lia.
  - intros j Hj. simpl in Hj. destruct j as [|j]; [simpl; lia | lia].
Defined.

Lemma set_item_nth_error_same {A : Type} (l l' : list A) (i : nat) (v : A) :
  set_item l i v = Ok l' -> nth_error l' i = Some v.
Proof.
  revert i l'. induction l as [|h t IH]; intros [|i] l' H; simpl in H;
    try discriminate.
  - inversion H; subst. reflexivity.
  - destruct (set_item t i v) as [t'|] eqn:E; [|discriminate].
    inversion H; subst. simpl. apply (IH i). assumption.
Qed.

Lemma set_item_nth_error_other {A : Type} (l l' : list A) (i j : nat)
  (v : A) :
  set_item l i v = Ok l' -> j <> i -> nth_error l' j = nth_error l j.
Proof.
  revert i j l'. induction l as [|h t IH]; intros [|i] j l' H Hj;
    simpl in H; try discriminate.
  - inversion H; subst. destruct j; [contradiction | reflexivity].
  - destruct (set_item t i v) as [t'|] eqn:E; [|discriminate].
    inversion H; subst. destruct j; simpl; [reflexivity|].
    apply (IH i); [assumption | lia].
Qed.

Lemma iadd_array_vec (u : list R) (e r : nd) :
  iadd_array (Vec u) e = Ok r -> exists v, r = Vec v /\ length v = length u.
Proof.
  unfold iadd_array. intro H. bind_top H as r' E.
  destruct r' as [y|v]; simpl in H; [discriminate|].
  destruct (length u =? length v)%nat eqn:El; [|discriminate].
  inversion H; subst. exists v. split; [reflexivity|].
  symmetry. apply Nat.eqb_eq. assumption.
Qed.

(** A turn of the loop whose running position is an array of the caller:
    the array is replaced, where it is, by one of the same length, and
    row [i] of [x] is read back from it. *)
Lemma generate_step_ref (self : DynamicMovementPrimitive) (w : ndarray)
  (x0 g : value) (time s : list R) (psv : list (list R))
  (obstacles : obstacles_arg) (sl : slot) (tau : R) (i : nat)
  (r r' : rollout) (l : loc) :
  r_x_r r = Ref l ->
  generate_step self w x0 g time s psv obstacles sl tau i r = Ok r' ->
  r_x_r r' = Ref l /\
  exists old new c,
    index (r_mem r) l = Ok old /\
    set_item (r_mem r) l new = Ok (r_mem r') /\
    length new = length old /\
    assign sl (Vec new) = Ok c /\
    set_item (r_x r) i c = Ok (r_x r').
Proof.
  unfold generate_step. intros Hx H.
  bind_top H as ti E1. bind_top H as dt E2.
  bind_top H as ms E3. destruct ms as [mod_ sig].
  bind_top H as sigma_i E4.
  bind_top H as pp E5. destruct pp as [p_sum p_div].
  bind_top H as q E6. bind_top H as f E7. bind_top H as f_rep_i E8.
  bind_top H as p E9. bind_top H as ddx_r E10. bind_top H as dx_r E11.
  bind_top H as sx E12. destruct sx as [st x_r].
  bind_top H as c_ddx E13. bind_top H as c_dx E14. bind_top H as c_x E15.
  bind_top H as ddx E16. bind_top H as dx E17. bind_top H as x E18.
  inversion H; subst r'; clear H. simpl.
  rewrite Hx in E12. bind_top E12 as e Ee.
  unfold iadd_value in E12.
  bind_top E12 as old Eold. bind_top E12 as rr Err. bind_top E12 as st2 Est.
  inversion E12; subst st x_r; clear E12.
  destruct (iadd_array_vec _ _ _ Err) as [new [-> Hlen]]. simpl in Est.
  split; [reflexivity|].
  exists old, new, c_x.
  split; [reflexivity|]. split; [assumption|]. split; [assumption|].
  unfold read in E15.
  rewrite (proj2 (index_Some _ _ _) (set_item_nth_error_same _ _ _ _ Est))
    in E15.
  cbn [bind] in E15. split; assumption.
Qed.

Lemma nrows_pack (sl : slot) (cells : list nd) :
  nrows (pack sl cells) = length cells.
Proof. destruct sl; simpl; apply length_map. Qed.

(** X11. Whatever the shapes, the three arrays [generate] returns have
    one row per time sample.  The store keeps its arrays: all of them
    when the start position is not an array of the caller, all but that
    one when it is. *)
Theorem generate_shape_and_frame (self : DynamicMovementPrimitive)
  (st st' : store) (w : ndarray) (x0 g : value) (time s : list R)
  (psv : list (list R)) (obstacles : obstacles_arg) (ddx dx x : ndarray) :
  generate self st w x0 g time s psv obstacles = Ok (st', (ddx, dx, x)) ->
  nrows ddx = length time /\ nrows dx = length time /\
  nrows x = length time /\
  length st' = length st /\
  (forall d, x0 = Imm d -> st' = st) /\
  (forall l l', x0 = Ref l -> l' <> l -> nth_error st' l' = nth_error st l').
Proof.
  intro H.
  destruct (generate_frame _ _ _ _ _ _ _ _ _ _ _ H)
    as (sl & cddx & cdx & cx & Hsl & Hout & L1 & L2 & L3 & Himm).
  inversion Hout; subst ddx dx x. rewrite !nrows_pack.
  do 3 (split; [assumption|]).
  destruct x0 as [d|l].
  - rewrite (Himm d eq_refl).
    split; [reflexivity|]. split; [reflexivity|].
    intros l l' Hl. discriminate.
  - unfold generate in H.
    bind_top H as sl' Esl. bind_top H as tau Etau. bind_top H as r Er.
    inversion H; subst st'. clear H.
    pose proof (for_each_invariant
                  (fun _ q =>
                     r_x_r q = Ref l /\ length (r_mem q) = length st /\
                     forall l', l' <> l ->
                       nth_error (r_mem q) l' = nth_error st l')
                  _ _ O _ r Er) as Hinv.
    destruct Hinv as (_ & Hlen & Hother).
    + simpl. split; [reflexivity|]. split; reflexivity.
    + intros i k r1 r2 _ (Hx & Hlen & Hother) Hstep.
      destruct (generate_step_ref _ _ _ _ _ _ _ _ _ _ _ _ _ l Hx Hstep)
        as (Hx' & old & new & c & _ & Hset & _ & _ & _).
      split; [assumption|].
      split; [rewrite (set_item_length _ _ _ _ Hset); assumption|].
      intros l' Hl'.
      rewrite (set_item_nth_error_other _ _ _ _ _ Hset Hl').
      apply Hother. assumption.
    + split; [assumption|]. split.
      * intros d Hd. discriminate.
      * intros l0 l' Hl0 Hl'. inversion Hl0; subst l0.
        apply Hother. assumption.
Qed.

Lemma generate_shape_and_frame_witness :
  exists st' ddx dx x,
    generate dmp_plain [[0; 0]; [5]] (A2 [[0; 0]]) (Ref 0%nat)
             (Imm (Vec [1; 1])) [1] [1] [[1]] PyEmptyList
    = Ok (st', (ddx, dx, x)) /\
    nrows ddx = 1%nat /\ nrows dx = 1%nat /\ nrows x = 1%nat /\
    length st' = 2%nat /\
    (forall d, Ref 0%nat = Imm d -> st' = [[0; 0]; [5]]) /\
    (forall l l', Ref 0%nat = Ref l -> l' <> l ->
       nth_error st' l' = nth_error [[0; 0]; [5]] l').
Proof.
  eexists. eexists. eexists. eexists. split.
  - cbn. reflexivity.
  - apply (generate_shape_and_frame dmp_plain [[0; 0]; [5]] _
             (A2 [[0; 0]]) (Ref 0%nat) (Imm (Vec [1; 1])) [1] [1] [[1]]
             PyEmptyList).
    cbn. reflexivity.
Defined.

Lemma last_item_map {A B : Type} (f : A -> B) (l : list A) (n : nat) (v : A) :
  length l = S n -> nth_error l n = Some v -> last_item (map f l) = Ok (f v).
Proof.
  intros Hlen Hn. destruct l as [|y l]; [discriminate|].
  unfold last_item. simpl map. unfold index.
  rewrite <- map_cons, length_map, Hlen.
  replace (S n - 1)%nat with n by lia.
  rewrite nth_error_map, Hn. reflexivity.
Qed.

(** X12. A start position passed as an array of the row length of [w] is
    integrated where it is: when [generate] returns, the array of the
    caller holds the last row of the returned positions. *)
Theorem generate_overwrites_start (self : DynamicMovementPrimitive)
  (st st' : store) (w : ndarray) (l : loc) (g : value) (time s : list R)
  (psv : list (list R)) (obstacles : obstacles_arg) (ddx dx x : ndarray)
  (D : nat) (v0 : list R) :
  slot_of w = Ok (SlotRow D) -> index st l = Ok v0 -> length v0 = D ->
  generate self st w (Ref l) g time s psv obstacles
  = Ok (st', (ddx, dx, x)) ->
  exists v, read st' (Ref l) = Ok (Vec v) /\ row_last x = Ok (Vec v).
Proof.
  intros Hsl Hv0 HD H. unfold generate in H. rewrite Hsl in H.
  cbn [bind] in H.
  bind_top H as tau Etau. bind_top H as r Er.
  inversion H; subst st' ddx dx x; clear H.
  pose proof (for_each_invariant
                (fun k q =>
                   r_x_r q = Ref l /\ length (r_x q) = length time /\
                   exists v, index (r_mem q) l = Ok v /\ length v = D /\
                     forall n, k = S n -> nth_error (r_x q) n = Some (Vec v))
                _ _ O _ r Er) as Hinv.
  rewrite length_seq in Hinv. simpl in Hinv.
  destruct Hinv as (_ & Hlen & v & Hv & _ & Hlast).
  - split; [reflexivity|]. split; [apply repeat_length|].
    exists v0. split; [assumption|]. split; [assumption|].
    intros n Hn. discriminate.
  - intros i k r1 r2 Hk (Hx & Hlen & v & Hv & Lv & _) Hstep.
    apply nth_error_seq0 in Hk. destruct Hk as [-> _].
    destruct (generate_step_ref _ _ _ _ _ _ _ _ _ _ _ _ _ l Hx Hstep)
      as (Hx' & old & new & c & Hold & Hset & Lnew & Hc & Hsx).
    assert (old = v) by congruence. subst old.
    split; [assumption|].
    split; [rewrite (set_item_length _ _ _ _ Hsx); assumption|].
    exists new.
    split; [apply index_Some; apply (set_item_nth_error_same _ _ _ _ Hset)|].
    split; [congruence|].
    intros n Hn. inversion Hn; subst n.
    simpl in Hc. rewrite Lnew, Lv, Nat.eqb_refl in Hc.
    inversion Hc; subst c.
    apply (set_item_nth_error_same _ _ _ _ Hsx).
  - exists v. unfold read. rewrite Hv. split; [reflexivity|].
    simpl pack. unfold row_last.
    destruct time as [|t0 time']; [discriminate|].
    rewrite (last_item_map ravel (r_x r) (length time') (Vec v)).
    + reflexivity.
    + rewrite Hlen. reflexivity.
    + apply Hlast. reflexivity.
Qed.

Lemma generate_overwrites_start_witness :
  exists st' ddx dx x v,
    generate dmp_plain [[0; 0]] (A2 [[0; 0]]) (Ref 0%nat)
             (Imm (Vec [1; 1])) [1] [1] [[1]] PyEmptyList
    = Ok (st', (ddx, dx, x)) /\
    read st' (Ref 0%nat) = Ok (Vec v) /\ row_last x = Ok (Vec v).
Proof.
  assert (H : exists st' ddx dx x,
            generate dmp_plain [[0; 0]] (A2 [[0; 0]]) (Ref 0%nat)
                     (Imm (Vec [1; 1])) [1] [1] [[1]] PyEmptyList
            = Ok (st', (ddx, dx, x))).
  { eexists. eexists. eexists. eexists. cbn. reflexivity. }
  destruct H as (st' & ddx & dx & x & H).
  destruct (generate_overwrites_start dmp_plain [[0; 0]] st' (A2 [[0; 0]])
              0%nat (Imm (Vec [1; 1])) [1] [1] [[1]] PyEmptyList ddx dx x
              2%nat [0; 0] eq_refl eq_refl eq_refl H) as [v Hv].
  exists st', ddx, dx, x, v. split; [exact H | exact Hv].
Defined.

(** *** [adapt]: when it returns, and what it leaves in the store *)

Section AdaptNeeds.

Variable argsort : list R -> list nat.
Variable randn : nat -> R.
Variable self : DynamicMovementPrimitive.
Variables (aref : loc) (x0 g : R) (t s : list R) (psv : list (list R)).
Variables (samples : nat) (rate tau : R).

(** What a turn of the loop that ran to its end has found. *)
Lemma adapt_iteration_needs (st st' : store) (k : nat) (it : iteration) :
  adapt_iteration argsort randn self st aref x0 g t s psv samples rate tau k
  = Ok (st', it) ->
  (1 <= samples)%nat /\ Zfloor (INR samples * rate) <> 0%Z /\
  obs self = false /\ (1 <= ng self)%nat /\
  (length t <= length s)%nat /\ (ng self <= length psv)%nat /\
  (forall j, (j < ng self)%nat -> (length t <= length (nth j psv []))%nat).
Proof.
  unfold adapt_iteration. intro H.
  bind_top H as exploration E1. bind_top H as actions E2.
  bind_top H as sr E3. destruct sr as [st1 rollouts].
  bind_top H as tr E4. destruct tr as [[ddx dx] x].
  bind_top H as Q E5.
  bind_top H as sumQ_y E6. bind_top H as sumQ_x E7.
  bind_top H as update E8.
  destruct (map_res_nth _ _ _ E1) as [L1 _].
  destruct (map_res_nth _ _ _ E2) as [L2 _].
  rewrite length_seq in L1.
  assert (Hact : exists act acts, actions = act :: acts).
  { destruct actions as [|act acts]; [|eexists; eexists; reflexivity].
    simpl in E3. inversion E3; subst st1 rollouts. discriminate. }
  destruct Hact as (act & acts & ->).
  split; [simpl in L2; lia|].
  split.
  { intro Ez. rewrite Ez in E8. simpl in E8. discriminate. }
  destruct (for_each_steps _ _ _ _ E3 O act eq_refl)
    as ([st2 acc] & sa & Hstep).
  bind_top Hstep as so Egen.
  destruct (generate_last_step _ _ _ _ _ _ _ _ _ _ Egen)
    as (Hne & sl & tau' & r1 & r2 & Hlast).
  assert (HN : (1 <= length t)%nat).
  { destruct t; [contradiction | simpl; lia]. }
  destruct (generate_step_needs _ _ _ _ _ _ _ _ _ _ _ _ _ Hlast)
    as (_ & Hs & Hng & Hrows & Hobs).
  split.
  { destruct (obs self); [|reflexivity].
    exfalso. apply (Hobs eq_refl). reflexivity. }
  split; [assumption|]. split; [lia|].
  split; [destruct (Hrows (ng self - 1)%nat) as (? & _ & _); lia|].
  intros j Hj. destruct (Hrows j Hj) as (_ & ? & _). lia.
Qed.

(** A turn changes the array of the weights and no other. *)
Lemma adapt_iteration_frame (st st' : store) (k : nat) (it : iteration) :
  adapt_iteration argsort randn self st aref x0 g t s psv samples rate tau k
  = Ok (st', it) ->
  length st' = length st /\
  (forall l, l <> aref -> nth_error st' l = nth_error st l) /\
  exists a0 a1,
    index st aref = Ok a0 /\ index st' aref = Ok a1 /\
    length a1 = length a0.
Proof.
  unfold adapt_iteration. intro H.
  bind_top H as exploration E1. bind_top H as actions E2.
  bind_top H as sr E3. destruct sr as [st1 rollouts].
  bind_top H as tr E4. destruct tr as [[ddx dx] x].
  bind_top H as Q E5.
  bind_top H as sumQ_y E6. bind_top H as sumQ_x E7.
  bind_top H as update E8. bind_top H as st2 E9.
  bind_top H as best E10. bind_top H as gain E11.
  bind_top H as x_end E12.
  inversion H; subst st' it; clear H.
  destruct (rollouts_of_actions self x0 g t s psv actions st st1 rollouts E3)
    as [-> _].
  bind_top E9 as a_ Ea. bind_top E9 as r Er.
  destruct (iadd_array_vec _ _ _ Er) as [v [-> Hlen]]. simpl in E9.
  split; [apply (set_item_length _ _ _ _ E9)|].
  split.
  - intros l Hl. apply (set_item_nth_error_other _ _ _ _ _ E9 Hl).
  - exists a_, v. split; [reflexivity|].
    split; [|assumption].
    apply index_Some. apply (set_item_nth_error_same _ _ _ _ E9).
Qed.

Lemma adapt_turns_frame (st st' : store) (k k' : nat)
  (its : list iteration) :
  adapt_turns argsort randn self aref x0 g t s psv samples rate tau
              st k its st' k' ->
  length st' = length st /\
  (forall l, l <> aref -> nth_error st' l = nth_error st l) /\
  (forall a0, index st aref = Ok a0 ->
     exists a1, index st' aref = Ok a1 /\ length a1 = length a0).
Proof.
  induction 1 as [st k|st st1 st' k k' it its Hit Hmet Hrest IH].
  - split; [reflexivity|]. split; [reflexivity|].
    intros a0 Ha0. exists a0. split; [assumption | reflexivity].
  - destruct (adapt_iteration_frame _ _ _ _ Hit)
      as (L1 & F1 & a0 & a1 & Ha0 & Ha1 & La).
    destruct IH as (L2 & F2 & Hw).
    split; [congruence|]. split.
    + intros l Hl. rewrite (F2 l Hl). apply F1. assumption.
    + intros a0' Ha0'. assert (a0' = a0) by congruence. subst a0'.
      destruct (Hw a1 Ha1) as (a2 & Ha2 & L). exists a2.
      split; [assumption | congruence].
Qed.

End AdaptNeeds.

(** X13. [adapt] returns only with obstacle avoidance off (its rollouts
    call [generate] with the default [obstacles=[]]), at least one sample,
    a number of elites [floor(samples*rate)] that is not zero, a non-empty
    time vector, a phase sample for every time, and at least one basis
    function with rows that cover the time samples; otherwise it raises
    or does not leave its loop. *)
Theorem adapt_returns_only_if (argsort : list R -> list nat)
  (randn : nat -> R) (fuel : nat) (self : DynamicMovementPrimitive)
  (st st' : store) (w : loc) (x0 g : R) (t s : list R)
  (psv : list (list R)) (samples : nat) (rate : R) (out : adapted) :
  adapt argsort randn fuel self st w x0 g t s psv samples rate
  = Some (Ok (st', out)) ->
  obs self = false /\ (1 <= samples)%nat /\
  Zfloor (INR samples * rate) <> 0%Z /\
  t <> [] /\ (length t <= length s)%nat /\
  (1 <= ng self)%nat /\ (ng self <= length psv)%nat /\
  (forall j, (j < ng self)%nat -> (length t <= length (nth j psv []))%nat).
Proof.
  unfold adapt. intro H.
  destruct (last_item t) as [tau|] eqn:Htau; [|discriminate].
  destruct (adapt_loop_turns _ _ _ _ _ _ _ _ _ _ _ _ _ _ _ _ _ _ H)
    as (its & st_n & k_n & it & _ & Hlast & _ & _).
  destruct (adapt_iteration_needs _ _ _ _ _ _ _ _ _ _ _ _ _ _ _ _ Hlast)
    as (Hsamples & Helite & Hobs & Hng & Hs & Hpsv & Hcols).
  split; [assumption|]. split; [assumption|]. split; [assumption|].
  split; [intros ->; discriminate|].
  split; [assumption|]. split; [assumption|]. split; assumption.
Qed.

Lemma adapt_returns_only_if_witness :
  let t := [1; 2] in
  let s := [1; 1] in
  let psv := [[1; 3]] in
  obs dmp_plain = false /\ (1 <= 1)%nat /\
  Zfloor (INR 1 * 1) <> 0%Z /\
  t <> [] /\ (length t <= length s)%nat /\
  (1 <= ng dmp_plain)%nat /\ (ng dmp_plain <= length psv)%nat /\
  (forall j, (j < ng dmp_plain)%nat ->
     (length t <= length (nth j psv []))%nat).
Proof.
  intros t s psv.
  destruct adapt_example_run as (st' & out & Hrun & _).
  apply (adapt_returns_only_if _ _ _ _ _ _ _ _ _ _ _ _ _ _ _ Hrun).
Defined.

(** X14. With the start position and the goal passed as numbers (floats,
    which the rollouts rebind and never update in place), a call of
    [adapt] that returns leaves every array of the caller but the weights
    as it found it; the weights keep their length.  (A start position
    passed as an array is another matter: [generate] integrates it in
    place, X12.) *)
Theorem adapt_changes_only_weights (argsort : list R -> list nat)
  (randn : nat -> R) (fuel : nat) (self : DynamicMovementPrimitive)
  (st st' : store) (w : loc) (x0 g : R) (t s : list R)
  (psv : list (list R)) (samples : nat) (rate : R) (out : adapted) :
  adapt argsort randn fuel self st w x0 g t s psv samples rate
  = Some (Ok (st', out)) ->
  length st' = length st /\
  (forall l, l <> w -> nth_error st' l = nth_error st l) /\
  exists a0 a1,
    index st w = Ok a0 /\ index st' w = Ok a1 /\ length a1 = length a0.
Proof.
  unfold adapt. intro H.
  destruct (last_item t) as [tau|] eqn:Htau; [|discriminate].
  destruct (adapt_loop_turns _ _ _ _ _ _ _ _ _ _ _ _ _ _ _ _ _ _ H)
    as (its & st_n & k_n & it & Hturns & Hlast & _ & _).
  destruct (adapt_turns_frame _ _ _ _ _ _ _ _ _ _ _ _ _ _ _ _ _ Hturns)
    as (L1 & F1 & Hw).
  destruct (adapt_iteration_frame _ _ _ _ _ _ _ _ _ _ _ _ _ _ _ _ Hlast)
    as (L2 & F2 & a_n & a1 & Han & Ha1 & La).
  split; [congruence|]. split.
  - intros l Hl. rewrite (F2 l Hl). apply F1. assumption.
  - destruct (index st w) as [a0|] eqn:Ha0.
    + destruct (Hw a0 eq_refl) as (a_n' & Han' & Ln).
      assert (a_n' = a_n) by congruence. subst a_n'.
      exists a0, a1. split; [reflexivity|]. split; [assumption|congruence].
    + exfalso. apply index_Some in Han.
      assert (Hlt : (w < length st_n)%nat)
        by (apply nth_error_Some; congruence).
      rewrite L1 in Hlt. apply nth_error_Some in Hlt.
      unfold index in Ha0. destruct (nth_error st w); [discriminate|].
      apply Hlt. reflexivity.
Qed.

Lemma adapt_changes_only_weights_witness :
  exists st' out,
    adapt argsort_insertion (fun _ => 1 / 2) 1 dmp_plain [[2]] 0%nat 0 0
          [1; 2] [1; 1] [[1; 3]] 1 1 = Some (Ok (st', out)) /\
    length st' = 1%nat /\
    (forall l, l <> 0%nat -> nth_error st' l = nth_error [[2]] l) /\
    exists a0 a1,
      index [[2]] 0 = Ok a0 /\ index st' 0 = Ok a1 /\
      length a1 = length a0.
Proof.
  destruct adapt_example_run as (st' & out & Hrun & _).
  exists st', out. split; [exact Hrun|].
  apply (adapt_changes_only_weights _ _ _ _ _ _ _ _ _ _ _ _ _ _ _ Hrun).
Defined.

(** *** [adapt]: the exploration is in proportion to the weights *)

Lemma In_zip_with (f : R -> R -> R) (u v : list R) (z : R) :
  In z (zip_with f u v) -> exists x y, In x u /\ In y v /\ z = f x y.
Proof.
  revert v. induction u as [|x u IH]; intros [|y v] H; simpl in H;
    try contradiction.
  destruct H as [<-|H].
  - exists x, y. simpl. auto.
  - destruct (IH v H) as (x' & y' & Hx & Hy & E).
    exists x', y'. simpl. auto.
Qed.

(** Every entry of the result of a broadcast operation is the operation
    on an entry of each argument. *)
Lemma lift2_entries (f : R -> R -> R) (a b r : nd) (z : R) :
  lift2 f a b = Ok r -> In z (ravel r) ->
  exists x y, In x (ravel a) /\ In y (ravel b) /\ z = f x y.
Proof.
  destruct a as [x|u], b as [y|v]; simpl; intros H Hz.
  - inversion H; subst r. simpl in Hz. destruct Hz as [<-|[]].
    exists x, y. auto.
  - inversion H; subst r. simpl in Hz. apply in_map_iff in Hz.
    destruct Hz as (y & <- & Hy). exists x, y. auto.
  - inversion H; subst r. simpl in Hz. apply in_map_iff in Hz.
    destruct Hz as (x & <- & Hx). exists x, y. auto.
  - destruct (length u =? length v)%nat.
    + inversion H; subst r. simpl in Hz. apply In_zip_with. assumption.
    + destruct u as [|x [|x' u]].
      * destruct v as [|y [|y' v]]; try discriminate.
        inversion H; subst r. simpl in Hz. contradiction.
      * inversion H; subst r. simpl in Hz. apply in_map_iff in Hz.
        destruct Hz as (y & <- & Hy). exists x, y. simpl. auto.
      * destruct v as [|y [|y' v]]; try discriminate.
        inversion H; subst r.
        change (In z (map (fun x1 => f x1 y) (x :: x' :: u))) in Hz.
        apply in_map_iff in Hz.
        destruct Hz as (x1 & <- & Hx). exists x1, y.
        split; [exact Hx | split; [left; reflexivity | reflexivity]].
Qed.

Lemma add_all_zero (a b r : nd) :
  all_zero a -> all_zero b -> Np.add a b = Ok r -> all_zero r.
Proof.
  unfold all_zero. intros Ha Hb H. apply Forall_forall. intros z Hz.
  destruct (lift2_entries _ _ _ _ _ H Hz) as (x & y & Hx & Hy & ->).
  rewrite Forall_forall in Ha, Hb.
  rewrite <- (Ha x Hx), <- (Hb y Hy). ring.
Qed.

Lemma div_all_zero (a r : nd) (q : R) :
  all_zero a -> Np.div a (Sc q) = Ok r -> all_zero r.
Proof.
  unfold all_zero. intros Ha H. apply Forall_forall. intros z Hz.
  destruct (lift2_entries _ _ _ _ _ H Hz) as (x & y & Hx & Hy & ->).
  rewrite Forall_forall in Ha.
  rewrite <- (Ha x Hx). unfold Rdiv. ring.
Qed.

Lemma sum_zeros (l : list R) : Forall (eq 0) l -> Np.sum l = 0.
Proof.
  unfold Np.sum. intro H.
  assert (G : forall acc, fold_left Rplus l acc = acc).
  { induction H as [|x l Hx Hl IH]; intro acc; simpl; [reflexivity|].
    rewrite IH. subst x. ring. }
  apply G.
Qed.

(** The deviation of an array of zeros is zero. *)
Lemma std_zeros (l : list R) : Forall (eq 0) l -> std l = 0.
Proof.
  intro H. unfold std, mean.
  rewrite (sum_zeros l H).
  rewrite sum_zeros.
  - replace (0 / INR (length (map (fun x => (x - 0 / INR (length l))
                                            * (x - 0 / INR (length l))) l)))
      with 0 by (unfold Rdiv; ring).
    apply sqrt_0.
  - apply Forall_forall. intros z Hz. apply in_map_iff in Hz.
    destruct Hz as (x & <- & Hx). rewrite Forall_forall in H.
    rewrite <- (H x Hx). unfold Rdiv. ring.
Qed.

Section ZeroWeights.

Variable argsort : list R -> list nat.
Variable randn : nat -> R.
Variable self : DynamicMovementPrimitive.
Variables (aref : loc) (x0 g : R) (t s : list R) (psv : list (list R)).
Variables (samples : nat) (rate tau : R).

(** A turn that starts from weights that are all zero draws no noise:
    every candidate is zero, and so is the array the turn leaves. *)
Lemma adapt_iteration_zero (st st' : store) (k : nat) (it : iteration)
  (a0 : list R) :
  index st aref = Ok a0 -> Forall (eq 0) a0 ->
  adapt_iteration argsort randn self st aref x0 g t s psv samples rate tau k
  = Ok (st', it) ->
  Forall (Forall (eq 0)) (it_actions it) /\
  exists a1, index st' aref = Ok a1 /\ Forall (eq 0) a1.
Proof.
  intros Ha0 Hzero. unfold adapt_iteration. intro H.
  bind_top H as exploration E1. bind_top H as actions E2.
  bind_top H as sr E3. destruct sr as [st1 rollouts].
  bind_top H as tr E4. destruct tr as [[ddx dx] x].
  bind_top H as Q E5.
  bind_top H as sumQ_y E6. bind_top H as sumQ_x E7.
  bind_top H as update E8. bind_top H as st2 E9.
  bind_top H as best E10. bind_top H as gain E11.
  bind_top H as x_end E12.
  inversion H; subst st' it; clear H. simpl.
  destruct (rollouts_of_actions self x0 g t s psv actions st st1 rollouts E3)
    as [-> _].
  rewrite Ha0 in *. cbn [bind] in *.
  assert (Hexp : Forall (Forall (eq 0)) exploration).
  { apply Forall_forall. intros e He.
    destruct (map_res_In _ _ _ _ E1 He) as (i & _ & Hi).
    apply Forall_forall. intros v Hv.
    destruct (map_res_In _ _ _ _ Hi Hv) as (j & _ & Hj).
    bind_top Hj as psv_j Ej. bind_top Hj as a_j Eaj.
    inversion Hj; subst v; clear Hj.
    destruct (index_nth _ _ _ 0 Eaj) as [<- Hlt].
    rewrite Forall_forall in Hzero.
    rewrite <- (Hzero (nth j a0 0) (nth_In _ _ Hlt)).
    unfold normal. rewrite std_zeros; [ring|].
    apply Forall_forall. intros z Hz. apply in_map_iff in Hz.
    destruct Hz as (y & <- & _). ring. }
  split.
  - apply Forall_forall. intros act Hact.
    destruct (map_res_In _ _ _ _ E2 Hact) as (e & He & Hadd).
    bind_top Hadd as r Er. inversion Hadd; subst act.
    apply (add_all_zero (Vec a0) (Vec e) r); try assumption.
    rewrite Forall_forall in Hexp. apply Hexp. assumption.
  - bind_top E7 as es Ees.
    assert (Hsum : all_zero sumQ_x).
    { pose proof (for_each_invariant (fun _ acc => all_zero acc)
                    _ _ O _ _ E7) as Hinv.
      apply Hinv.
      - constructor; [reflexivity | constructor].
      - intros i e acc acc' Hi Hacc Hstep.
        apply (add_all_zero acc (Vec e) acc'); try assumption.
        apply nth_error_In in Hi.
        destruct (map_res_In _ _ _ _ Ees Hi) as (n & _ & Hn).
        bind_top Hn as e0 Ee0. bind_top Hn as q Eq.
        inversion Hn; subst e.
        apply Forall_forall. intros z Hz. apply in_map_iff in Hz.
        destruct Hz as (y & <- & Hy).
        apply index_Some in Ee0. apply nth_error_In in Ee0.
        rewrite Forall_forall in Hexp.
        pose proof (Hexp e0 Ee0) as He0. rewrite Forall_forall in He0.
        rewrite <- (He0 y Hy). ring. }
    assert (Hupd : all_zero update).
    { destruct (slice_to (rev (argsort Q)) (Zfloor (INR samples * rate)));
        [discriminate|].
      apply (div_all_zero _ _ _ Hsum E8). }
    bind_top E9 as r Er.
    unfold iadd_array in Er. bind_top Er as r' Er'.
    destruct (same_shape (Vec a0) r'); [|discriminate].
    inversion Er; subst r'.
    exists (ravel r). split.
    + apply index_Some. apply (set_item_nth_error_same _ _ _ _ E9).
    + apply (add_all_zero (Vec a0) update r); assumption.
Qed.

Lemma adapt_turns_zero (st st' : store) (k k' : nat)
  (its : list iteration) :
  adapt_turns argsort randn self aref x0 g t s psv samples rate tau
              st k its st' k' ->
  forall a0, index st aref = Ok a0 -> Forall (eq 0) a0 ->
    exists a1, index st' aref = Ok a1 /\ Forall (eq 0) a1.
Proof.
  induction 1 as [st k|st st1 st' k k' it its Hit Hmet Hrest IH];
    intros a0 Ha0 Hzero.
  - exists a0. split; assumption.
  - destruct (adapt_iteration_zero _ _ _ _ _ Ha0 Hzero Hit)
      as (_ & a1 & Ha1 & Hz1).
    apply (IH a1 Ha1 Hz1).
Qed.

End ZeroWeights.

(** X15. The noise [adapt] adds to weight [j] has the deviation
    [std(psv[j]*a[j])], which is zero for a zero weight.  Started on
    weights that are all zero, a call that returns (with [tau = t[-1] > 0],
    so that the scores it divides by are positive) has explored nothing:
    the weights it returns and the array it leaves to the caller are
    still all zero. *)
Theorem adapt_zero_weights_stay_zero (argsort : list R -> list nat)
  (randn : nat -> R) (fuel : nat) (self : DynamicMovementPrimitive)
  (st st' : store) (w : loc) (x0 g : R) (t s : list R)
  (psv : list (list R)) (samples : nat) (rate tau : R) (out : adapted)
  (a0 : list R) :
  index st w = Ok a0 -> Forall (eq 0) a0 ->
  last_item t = Ok tau -> 0 < tau ->
  adapt argsort randn fuel self st w x0 g t s psv samples rate
  = Some (Ok (st', out)) ->
  Forall (eq 0) (out_w out) /\
  exists a1, index st' w = Ok a1 /\ Forall (eq 0) a1.
Proof.
  intros Ha0 Hzero Htau Hpos. unfold adapt. rewrite Htau. intro H.
  destruct (adapt_loop_turns _ _ _ _ _ _ _ _ _ _ _ _ _ _ _ _ _ _ H)
    as (its & st_n & k_n & it & Hturns & Hlast & _ & Hret).
  destruct (adapt_turns_zero _ _ _ _ _ _ _ _ _ _ _ _ _ _ _ _ _ Hturns
              a0 Ha0 Hzero) as (a_n & Han & Hzn).
  destruct (adapt_iteration_zero _ _ _ _ _ _ _ _ _ _ _ _ _ _ _ _ _ Han Hzn
              Hlast) as (Hacts & a1 & Ha1 & Hz1).
  split; [|exists a1; split; assumption].
  unfold adapt_return in Hret.
  bind_top Hret as ddx Eddx. bind_top Hret as dx Edx.
  bind_top Hret as x Ex. bind_top Hret as wv Ew.
  inversion Hret; subst out; clear Hret. simpl.
  rewrite Forall_forall in Hacts. apply Hacts.
  apply index_Some in Ew. apply (nth_error_In _ _ Ew).
Qed.

(** One turn from the weight 0: no noise is drawn, the rollout of the
    only candidate stays at the goal 0 and the loop stops. *)
Lemma adapt_zero_run :
  exists st' out,
    adapt argsort_insertion (fun _ => 1 / 2) 1 dmp_plain [[0]] 0%nat 0 0
          [1; 2] [1; 1] [[1; 3]] 1 1 = Some (Ok (st', out)).
Proof.
  eexists. eexists.
  unfold adapt. simpl last_item. cbn [adapt_loop]. unfold adapt_iteration.
  assert (EZ : Zfloor (INR 1 * 1) = 1%Z).
  { apply Zfloor_eq. simpl. lra. }
  rewrite EZ. cbn. change (Pos.to_nat 1) with 1%nat. cbn.
  unfold normal.
  rewrite (std_zeros [1 * 0; 3 * 0])
    by (constructor; [ring | constructor; [ring | constructor]]).
  match goal with
  | |- context [Rltb ?u ?v] => replace (Rltb u v) with true
  end.
  - cbn. reflexivity.
  - symmetry. apply Rltb_true. unfold b. cbn.
    match goal with |- Rabs ?u < _ => replace u with 0 by lra end.
    rewrite Rabs_R0. lra.
Qed.

Lemma adapt_zero_weights_stay_zero_witness :
  exists st' out a1,
    adapt argsort_insertion (fun _ => 1 / 2) 1 dmp_plain [[0]] 0%nat 0 0
          [1; 2] [1; 1] [[1; 3]] 1 1 = Some (Ok (st', out)) /\
    Forall (eq 0) (out_w out) /\
    index st' 0 = Ok a1 /\ Forall (eq 0) a1.
Proof.
  destruct adapt_zero_run as (st' & out & Hrun).
  destruct (adapt_zero_weights_stay_zero argsort_insertion (fun _ => 1 / 2)
              1 dmp_plain [[0]] st' 0%nat 0 0 [1; 2] [1; 1] [[1; 3]] 1%nat 1
              2 out [0]) as (Hw & a1 & Ha1 & Hz1).
  - reflexivity.
  - constructor; [reflexivity | constructor].
  - reflexivity.
  - lra.
  - exact Hrun.
  - exists st', out, a1. split; [exact Hrun|].
    split; [exact Hw|]. split; [exact Ha1 | exact Hz1].
Defined.

(** *** [imitate]: when it returns *)

Lemma map_res_returns {A B : Type} (f : A -> res B) (l : list A) :
  (forall x, In x l -> exists y, f x = Ok y) -> exists l', map_res f l = Ok l'.
Proof.
  induction l as [|x l IH]; intro H; simpl.
  - eexists. reflexivity.
  - destruct (H x) as [y ->]; [left; reflexivity|].
    destruct IH as [l' ->]; [intros z Hz; apply H; right; assumption|].
    eexists. reflexivity.
Qed.

Lemma vecmat_length (D : nat) (v : list R) (m : list (list R)) :
  Forall (fun r => length r = D) m -> length (vecmat D v m) = D.
Proof.
  intro Hm. unfold vecmat.
  assert (G : forall (l : list (R * list R)) (acc : list R),
            Forall (fun vr => length (snd vr) = D) l -> length acc = D ->
            length (fold_left
                      (fun acc vr =>
                         zip_with Rplus acc (map (Rmult (fst vr)) (snd vr)))
                      l acc) = D).
  { induction l as [|vr l IH]; intros acc Hl Hacc; simpl; [assumption|].
    inversion Hl as [|vr' l' Hvr Hrest]. apply IH; [assumption|].
    rewrite zip_with_length; [assumption|].
    rewrite length_map. congruence. }
  apply G; [|apply repeat_length].
  apply Forall_forall. intros [x r] Hin. simpl.
  rewrite Forall_forall in Hm. apply Hm.
  apply (in_combine_r _ _ _ _ Hin).
Qed.

Lemma diag_rows (p : list R) :
  Forall (fun r => length r = length p) (diag p).
Proof.
  apply Forall_forall. intros r Hr. unfold diag in Hr.
  apply in_map_iff in Hr. destruct Hr as (j & <- & _).
  rewrite length_map, length_seq. reflexivity.
Qed.

Section ImitateDomain.

Variable self : DynamicMovementPrimitive.
Variables (xl dxl ddxl time s : list R) (psv : list (list R)).
Variables (g x0 tau : R).

(** What a turn of the loop of [imitate] that ran to its end has found
    in the arguments. *)
Lemma imitate_step_needs (i : nat) (sigma sigma' : list R) (f f' : list nd) :
  (fun i '(sigma, f_target) =>
     '(mod_, sig) <-
       (if stb self then
          m <- sc (b self) .* (Ok (Sc g) .- Ok (Sc x0))
               .* (si <- index s i ;; sc si) ;;
          e <- (Ok (Sc g) .- Ok (Sc x0)) .* (si <- index s i ;; sc si) ;;
          Ok (m, e)
        else
          si <- index s i ;; Ok (Sc 0, Sc si)) ;;
     sig <- assign SlotSc sig ;;
     sigma <- set_item sigma i (scalar_of sig) ;;
     f <- sc (tau ^ 2) .* row (A1 ddxl) i
          .- sc (a self) .* (sc (b self) .* (Ok (Sc g) .- row (A1 xl) i)
                             .- sc tau .* row (A1 dxl) i)
          .+ Ok mod_ ;;
     f <- assign SlotSc f ;;
     f_target <- set_item f_target i f ;;
     Ok (sigma, f_target)) i (sigma, f) = Ok (sigma', f') ->
  (i < length s)%nat /\ (i < length ddxl)%nat /\ (i < length xl)%nat /\
  (i < length dxl)%nat.
Proof.
  intro H. unfold op2, sc, row in H.
  destruct (index s i) as [si|] eqn:Es.
  2:{ destruct (stb self); simpl in H; discriminate. }
  split; [apply (index_ok_lt _ _ _ Es)|].
  destruct (stb self); simpl in H.
  all: bind_top H as sg E1; bind_top H as ff E2.
  all: destruct (index ddxl i) as [ddi|] eqn:Edd; simpl in E2; [|discriminate].
  all: destruct (index xl i) as [xi|] eqn:Ex; simpl in E2; [|discriminate].
  all: destruct (index dxl i) as [dxi|] eqn:Edx; simpl in E2; [|discriminate].
  all: split; [apply (index_ok_lt _ _ _ Edd)|].
  all: split; [apply (index_ok_lt _ _ _ Ex) | apply (index_ok_lt _ _ _ Edx)].
Qed.

(** With every sample in range, a turn of the loop returns. *)
Lemma imitate_step_returns (i : nat) (sigma : list R) (f : list nd) :
  (i < length s)%nat -> (i < length ddxl)%nat -> (i < length xl)%nat ->
  (i < length dxl)%nat -> (i < length sigma)%nat -> (i < length f)%nat ->
  exists sigma' f',
    (fun i '(sigma, f_target) =>
       '(mod_, sig) <-
         (if stb self then
            m <- sc (b self) .* (Ok (Sc g) .- Ok (Sc x0))
                 .* (si <- index s i ;; sc si) ;;
            e <- (Ok (Sc g) .- Ok (Sc x0)) .* (si <- index s i ;; sc si) ;;
            Ok (m, e)
          else
            si <- index s i ;; Ok (Sc 0, Sc si)) ;;
       sig <- assign SlotSc sig ;;
       sigma <- set_item sigma i (scalar_of sig) ;;
       f <- sc (tau ^ 2) .* row (A1 ddxl) i
            .- sc (a self) .* (sc (b self) .* (Ok (Sc g) .- row (A1 xl) i)
                               .- sc tau .* row (A1 dxl) i)
            .+ Ok mod_ ;;
       f <- assign SlotSc f ;;
       f_target <- set_item f_target i f ;;
       Ok (sigma, f_target)) i (sigma, f) = Ok (sigma', f') /\
    length sigma' = length sigma /\ length f' = length f.
Proof.
  intros Hs Hdd Hx Hdx Hsig Hf. unfold op2, sc, row.
  rewrite (index_in_range s i 0), (index_in_range ddxl i 0),
    (index_in_range xl i 0), (index_in_range dxl i 0) by assumption.
  destruct (stb self); simpl;
    (match goal with
     | |- context [set_item sigma i ?c] =>
         destruct (set_item_in_range sigma i c Hsig) as [sigma' Hs']
     end);
    rewrite Hs'; cbn [bind];
    (match goal with
     | |- context [set_item f i ?c] =>
         destruct (set_item_in_range f i c Hf) as [f' Hf']
     end);
    rewrite Hf'; cbn [bind];
    exists sigma', f'; (split; [reflexivity|]);
    (split; [apply (set_item_length _ _ _ _ Hs')
            | apply (set_item_length _ _ _ _ Hf')]).
Qed.

End ImitateDomain.

(** X16. On a trajectory of scalars [imitate] returns exactly when the
    time vector is not empty, the trajectory, its derivatives and the
    phase have a sample for every time, and every basis row has exactly
    [len(time)] activations (the products with [np.diag(p)] need it);
    otherwise it raises IndexError or ValueError. *)
Theorem imitate_scalar_returns_iff (self : DynamicMovementPrimitive)
  (xl dxl ddxl time s : list R) (psv : list (list R)) :
  (exists f w,
     imitate self (A1 xl) (A1 dxl) (A1 ddxl) time s psv = Ok (f, w)) <->
  (time <> [] /\
   (length time <= length xl)%nat /\ (length time <= length dxl)%nat /\
   (length time <= length ddxl)%nat /\ (length time <= length s)%nat /\
   Forall (fun p => length p = length time) psv).
Proof.
  split.
  - intros (f & w & H).
    unfold imitate in H. simpl slot_of in H. cbn [bind] in H.
    unfold row_last, row in H.
    bind_ok H as g Eg. bind_ok H as x0 Ex0. bind_ok H as tau Etau.
    bind_top H as sf Eloop. destruct sf as [sigma cells].
    bind_top H as wc Ew.
    assert (Hne : time <> []) by (intros ->; discriminate).
    assert (HN : (1 <= length time)%nat)
      by (destruct time; [contradiction | simpl; lia]).
    split; [assumption|].
    destruct (for_each_steps _ _ _ _ Eloop (length time - 1)%nat
                (length time - 1)%nat) as ([sg fc] & [sg' fc'] & Hstep).
    { rewrite nth_error_seq.
      destruct (Nat.ltb_spec (length time - 1)%nat (length time));
        [reflexivity | lia]. }
    destruct (imitate_step_needs self xl dxl ddxl s g x0 tau _ sg sg' fc fc'
                Hstep) as (Hs & Hdd & Hx & Hdx).
    split; [lia|]. split; [lia|]. split; [lia|]. split; [lia|].
    pose proof (for_each_invariant
      (fun _ (sf : list R * list nd) => length (fst sf) = length time)
      _ _ O _ _ Eloop) as Hinv.
    simpl in Hinv.
    assert (Lsig : length sigma = length time).
    { apply Hinv; [apply repeat_length|].
      intros i k [sg1 fc1] [sg2 fc2] _ Hlen Hst.
      destruct (imitate_step_scalar self xl dxl ddxl s g x0 tau _ sg1 sg2
                  fc1 fc2 Hst) as [Ss _].
      simpl in *. rewrite (set_item_length _ _ _ _ Ss). assumption. }
    apply Forall_forall. intros p Hp.
    destruct (In_nth_error _ _ Hp) as [k Hk].
    destruct (map_res_nth _ _ _ Ew) as [_ Hw].
    destruct (Hw k p Hk) as (y & Hy & _).
    unfold dot_diag in Hy.
    destruct (length sigma =? length p)%nat eqn:El; [|discriminate].
    apply Nat.eqb_eq in El. congruence.
  - intros (Hne & Hx & Hdx & Hdd & Hs & Hpsv).
    assert (HN : (1 <= length time)%nat)
      by (destruct time; [contradiction | simpl; lia]).
    unfold imitate. simpl slot_of. cbn [bind]. unfold row_last, row.
    assert (Hlast : forall l : list R, (1 <= length l)%nat ->
              last_item l = Ok (nth (length l - 1) l 0)).
    { intros l Hl. destruct l as [|y l]; [simpl in Hl; lia|].
      unfold last_item. apply index_in_range. simpl. lia. }
    rewrite (Hlast xl) by lia. cbn [bind].
    rewrite (index_in_range xl 0 0) by lia. cbn [bind].
    rewrite (Hlast time) by lia. cbn [bind].
    set (g := nth (length xl - 1) xl 0).
    set (x0 := nth 0 xl 0).
    set (tau := nth (length time - 1) time 0).
    destruct (for_each_total
                (fun _ (sf : list R * list nd) =>
                   length (fst sf) = length time /\
                   length (snd sf) = length time)
                (seq 0 (length time))
                (fun i '(sigma, f_target) =>
                   '(mod_, sig) <-
                     (if stb self then
                        m <- sc (b self) .* (Ok (Sc g) .- Ok (Sc x0))
                             .* (si <- index s i ;; sc si) ;;
                        e <- (Ok (Sc g) .- Ok (Sc x0))
                             .* (si <- index s i ;; sc si) ;;
                        Ok (m, e)
                      else
                        si <- index s i ;; Ok (Sc 0, Sc si)) ;;
                   sig <- assign SlotSc sig ;;
                   sigma <- set_item sigma i (scalar_of sig) ;;
                   f <- sc (tau ^ 2) .* row (A1 ddxl) i
                        .- sc (a self)
                           .* (sc (b self) .* (Ok (Sc g) .- row (A1 xl) i)
                               .- sc tau .* row (A1 dxl) i)
                        .+ Ok mod_ ;;
                   f <- assign SlotSc f ;;
                   f_target <- set_item f_target i f ;;
                   Ok (sigma, f_target))
                O (repeat 0 (length time),
                   repeat (zero SlotSc) (length time)))
      as ([sigma cells] & Hrun & Lsig & Lcells).
    + simpl. rewrite !repeat_length. split; reflexivity.
    + intros i k [sg fc] Hk [Lsg Lfc]. simpl in Lsg, Lfc.
      apply nth_error_seq0 in Hk. destruct Hk as [-> Hlt].
      destruct (imitate_step_returns self xl dxl ddxl s g x0 tau i sg fc)
        as (sg' & fc' & Hstep & L1 & L2); try lia.
      exists (sg', fc'). split; [exact Hstep|]. simpl. split; congruence.
    + simpl in Lsig, Lcells. unfold row in Hrun. rewrite Hrun. cbn [bind].
      destruct (map_res_returns
                  (fun p =>
                     sp <- dot_diag sigma p ;;
                     num <- dot_rows SlotSc sp cells ;;
                     den <- Np.dot (Vec sp) (Vec sigma) ;;
                     Np.div num den) psv) as [w Hw].
      * intros p Hp. rewrite Forall_forall in Hpsv.
        pose proof (Hpsv p Hp) as Lp.
        assert (Lv : length (vecmat (length p) sigma (diag p))
                     = length time)
          by (rewrite (vecmat_length _ _ _ (diag_rows p)); assumption).
        unfold dot_diag.
        replace (length sigma =? length p)%nat with true
          by (symmetry; apply Nat.eqb_eq; congruence).
        cbn [bind]. unfold dot_rows.
        rewrite Lv, Lcells, Nat.eqb_refl.
        cbn [bind]. unfold Np.dot.
        rewrite Lv, Lsig, Nat.eqb_refl.
        cbn [bind]. simpl. eexists. reflexivity.
      * rewrite Hw. cbn [bind]. eexists. eexists. reflexivity.
Qed.

Lemma imitate_scalar_returns_iff_witness :
  exists f w,
    imitate dmp_plain (A1 [0; 1]) (A1 [0; 0]) (A1 [0; 0]) [1 / 2; 1]
            [1; 1 / 2] [[1; 1]] = Ok (f, w).
Proof.
  apply (proj2 (imitate_scalar_returns_iff dmp_plain [0; 1] [0; 0] [0; 0]
                  [1 / 2; 1] [1; 1 / 2] [[1; 1]])).
  split; [discriminate|].
  simpl. do 4 (split; [lia|]).
  constructor; [reflexivity | constructor].
Defined.

(** *** [imitate]: trajectories of vectors *)

Lemma nth_zip_with (f : R -> R -> R) (u v : list R) (c : nat) :
  (c < length u)%nat -> (c < length v)%nat ->
  nth c (zip_with f u v) 0 = f (nth c u 0) (nth c v 0).
Proof.
  revert v c. induction u as [|x u IH]; intros [|y v] [|c] Hu Hv;
    simpl in *; try lia; try reflexivity.
  apply IH; lia.
Qed.

Lemma nth_map_in (f : R -> R) (l : list R) (c : nat) :
  (c < length l)%nat -> nth c (map f l) 0 = f (nth c l 0).
Proof.
  intro H. rewrite (nth_indep _ 0 (f 0)) by (rewrite length_map; assumption).
  apply map_nth.
Qed.

Lemma index_Forall {A : Type} (P : A -> Prop) (l : list A) (i : nat) (v : A) :
  Forall P l -> index l i = Ok v -> P v.
Proof.
  intros H Hi. apply index_Some in Hi. apply nth_error_In in Hi.
  rewrite Forall_forall in H. apply H. assumption.
Qed.

Lemma last_item_Forall {A : Type} (P : A -> Prop) (l : list A) (v : A) :
  Forall P l -> last_item l = Ok v -> P v.
Proof.
  intros H Hl. apply last_item_nth_error in Hl. apply nth_error_In in Hl.
  rewrite Forall_forall in H. apply H. assumption.
Qed.

(** Lengths of element-wise results. *)
Ltac vec_rewrite :=
  repeat first [ rewrite length_map
               | rewrite zip_with_length; [|vec_rewrite; congruence] ].

Ltac vec_len := vec_rewrite; congruence.

Section ImitateVectors.

Variable self : DynamicMovementPrimitive.
Variables (xs dxs ddxs : list (list R)) (s : list R).
Variables (g : list R) (tau : R) (D : nat).

Hypothesis no_stabilization : stb self = false.
Hypothesis x_rows : Forall (fun r => length r = D) xs.
Hypothesis dx_rows : Forall (fun r => length r = D) dxs.
Hypothesis ddx_rows : Forall (fun r => length r = D) ddxs.
Hypothesis goal_row : length g = D.

(** A turn of the loop on rows of [D] components, without the
    stabilization term. *)
Lemma imitate_step_vectors (x0 : nd) (i : nat) (sigma sigma' : list R)
  (f f' : list nd) :
  (fun i '(sigma, f_target) =>
     '(mod_, sig) <-
       (if stb self then
          m <- sc (b self) .* (Ok (Vec g) .- Ok x0)
               .* (si <- index s i ;; sc si) ;;
          e <- (Ok (Vec g) .- Ok x0) .* (si <- index s i ;; sc si) ;;
          Ok (m, e)
        else
          si <- index s i ;; Ok (Sc 0, Sc si)) ;;
     sig <- assign SlotSc sig ;;
     sigma <- set_item sigma i (scalar_of sig) ;;
     f <- sc (tau ^ 2) .* row (A2 ddxs) i
          .- sc (a self) .* (sc (b self) .* (Ok (Vec g) .- row (A2 xs) i)
                             .- sc tau .* row (A2 dxs) i)
          .+ Ok mod_ ;;
     f <- assign (SlotRow D) f ;;
     f_target <- set_item f_target i f ;;
     Ok (sigma, f_target)) i (sigma, f) = Ok (sigma', f') ->
  exists u,
    set_item f i (Vec u) = Ok f' /\ length u = D /\
    forall c, (c < D)%nat ->
      nth c u 0
      = tau ^ 2 * nth c (nth i ddxs []) 0
        - a self * (b self * (nth c g 0 - nth c (nth i xs []) 0)
                    - tau * nth c (nth i dxs []) 0).
Proof.
  intro H. rewrite no_stabilization in H.
  bind_top H as ms Ems. bind_top Ems as si Esi.
  inversion Ems; subst ms; clear Ems. cbn [bind assign scalar_of] in H.
  bind_top H as sg Esg. bind_top H as ff Eff. bind_top H as fc Efc.
  bind_top H as ft Eft. inversion H; subst sigma' f'; clear H.
  unfold op2, sc, row in Eff.
  destruct (index ddxs i) as [ddi|] eqn:Edd; [|discriminate].
  cbn [bind] in Eff.
  destruct (index xs i) as [xi|] eqn:Ex; [|discriminate].
  cbn [bind] in Eff.
  destruct (index dxs i) as [dxi|] eqn:Edx.
  2:{ cbn [bind] in Eff. unfold Np.mul, Np.sub in Eff.
      cbn [lift2 bind] in Eff.
      destruct (length g =? length xi)%nat; [discriminate|].
      destruct g as [|? [|? ?]], xi as [|? [|? ?]]; discriminate. }
  pose proof (index_Forall _ _ _ _ ddx_rows Edd) as Ldd.
  pose proof (index_Forall _ _ _ _ x_rows Ex) as Lx.
  pose proof (index_Forall _ _ _ _ dx_rows Edx) as Ldx.
  simpl in Ldd, Lx, Ldx.
  destruct (index_nth _ _ _ [] Edd) as [Ndd _].
  destruct (index_nth _ _ _ [] Ex) as [Nx _].
  destruct (index_nth _ _ _ [] Edx) as [Ndx _].
  cbn [bind] in Eff. unfold Np.mul, Np.sub, Np.add in Eff.
  cbn [bind lift2] in Eff.
  repeat (match type of Eff with
          | context [(length ?u =? length ?v)%nat] =>
              replace (length u =? length v)%nat with true in Eff
                by (symmetry; apply Nat.eqb_eq; vec_len)
          end; cbn [bind lift2] in Eff).
  inversion Eff; subst ff; clear Eff.
  match type of Efc with
  | context [(length ?u =? D)%nat] =>
      assert (Hlen : length u = D) by vec_len
  end.
  rewrite Hlen, Nat.eqb_refl in Efc.
  inversion Efc; subst fc; clear Efc.
  eexists. split; [exact Eft|]. split; [exact Hlen|].
  intros c Hc.
  repeat first [ rewrite nth_map_in by (vec_rewrite; lia)
               | rewrite nth_zip_with by (vec_rewrite; lia) ].
  rewrite Ndd, Nx, Ndx. ring.
Qed.

End ImitateVectors.

(** X17. Without the stabilization term [imitate] takes a trajectory of
    vectors: for rows of [D] components it returns the target forcing
    values row by row and component by component,
    [f_target[i][c] = tau^2*ddx[i][c] - a*(b*(g[c] - x[i][c]) -
    tau*dx[i][c])] with [g = x[-1]] and [tau = time[-1]], and one row of
    weights for every basis row.  (With the term it raises: C4.) *)
Theorem imitate_vectors_unstabilized (self : DynamicMovementPrimitive)
  (xs dxs ddxs : list (list R)) (time s : list R) (psv : list (list R))
  (D : nat) (f w : ndarray) :
  stb self = false ->
  Forall (fun r => length r = D) xs ->
  Forall (fun r => length r = D) dxs ->
  Forall (fun r => length r = D) ddxs ->
  imitate self (A2 xs) (A2 dxs) (A2 ddxs) time s psv = Ok (f, w) ->
  exists g tau fs,
    last_item xs = Ok g /\ last_item time = Ok tau /\
    f = A2 fs /\ length fs = length time /\ nrows w = length psv /\
    forall i c, (i < length time)%nat -> (c < D)%nat ->
      nth c (nth i fs []) 0
      = tau ^ 2 * nth c (nth i ddxs []) 0
        - a self * (b self * (nth c g 0 - nth c (nth i xs []) 0)
                    - tau * nth c (nth i dxs []) 0).
Proof.
  intros Hstb Hxs Hdxs Hddxs H.
  unfold imitate, slot_of, row_last in H. unfold row at 1 in H.
  bind_ok H as r0 Er0. bind_ok H as g Eg.
  bind_top H as tau Etau.
  bind_top H as sf Eloop. destruct sf as [sigma cells].
  bind_top H as wc Ew. inversion H; subst f w; clear H.
  pose proof (index_Forall _ _ _ _ Hxs Er0) as Lr0.
  pose proof (last_item_Forall _ _ _ Hxs Eg) as Lg.
  simpl in Lr0, Lg. rewrite Lr0 in *.
  pose proof (for_each_invariant
    (fun k (sf : list R * list nd) =>
       length (snd sf) = length time /\
       forall i c, (i < k)%nat -> (c < D)%nat ->
         nth c (ravel (nth i (snd sf) (Sc 0))) 0
         = tau ^ 2 * nth c (nth i ddxs []) 0
           - a self * (b self * (nth c g 0 - nth c (nth i xs []) 0)
                       - tau * nth c (nth i dxs []) 0))
    _ _ O _ _ Eloop) as Hinv.
  rewrite length_seq in Hinv. simpl in Hinv.
  destruct Hinv as (Lcells & Hval).
  { split; [apply repeat_length|]. intros i c Hi. lia. }
  { intros i k [sg fc] [sg' fc'] Hk (Lfc & Hval) Hstep.
    apply nth_error_seq0 in Hk. destruct Hk as [-> _]. simpl in Lfc, Hval.
    destruct (imitate_step_vectors self xs dxs ddxs s g tau D Hstb Hxs Hdxs
                Hddxs Lg (Vec r0) i sg sg' fc fc' Hstep)
      as (u & Hset & Lu & Hu).
    simpl. rewrite (set_item_length _ _ _ _ Hset).
    split; [assumption|].
    intros j c Hj Hc. destruct (Nat.eq_dec j i) as [->|Hne].
    - rewrite (set_item_nth_same _ _ _ _ _ Hset). simpl. apply Hu.
      assumption.
    - rewrite (set_item_nth_other _ _ _ _ _ _ Hset Hne).
      apply Hval; [lia | assumption]. }
  exists g, tau, (map ravel cells).
  split; [reflexivity|]. split; [reflexivity|]. split; [reflexivity|].
  split; [rewrite length_map; assumption|].
  split.
  - destruct (map_res_nth _ _ _ Ew) as [Lw _].
    unfold np_array. destruct wc as [|w0 wc].
    + simpl in *. congruence.
    + rewrite nrows_pack. assumption.
  - intros i c Hi Hc.
    rewrite (nth_indep _ [] (ravel (Sc 0)))
      by (rewrite length_map; lia).
    rewrite map_nth. apply Hval; assumption.
Qed.

Lemma imitate_vectors_unstabilized_witness :
  let xs := [[0; 0]; [1; 2]] in
  let dxs := [[0; 0]; [0; 0]] in
  let ddxs := [[0; 0]; [0; 0]] in
  let time := [1 / 2; 1] in
  exists f w g tau fs,
    imitate dmp_plain (A2 xs) (A2 dxs) (A2 ddxs) time [1; 1 / 2] [[1; 1]]
    = Ok (f, w) /\
    last_item xs = Ok g /\ last_item time = Ok tau /\
    f = A2 fs /\ length fs = length time /\
    nrows w = length [[1; 1]] /\
    forall i c, (i < length time)%nat -> (c < 2)%nat ->
      nth c (nth i fs []) 0
      = tau ^ 2 * nth c (nth i ddxs []) 0
        - a dmp_plain
          * (b dmp_plain * (nth c g 0 - nth c (nth i xs []) 0)
             - tau * nth c (nth i dxs []) 0).
Proof.
  intros xs dxs ddxs time.
  assert (H : exists f w,
            imitate dmp_plain (A2 xs) (A2 dxs) (A2 ddxs) time [1; 1 / 2]
                    [[1; 1]] = Ok (f, w)).
  { eexists. eexists. cbn. reflexivity. }
  destruct H as (f & w & H).
  destruct (imitate_vectors_unstabilized dmp_plain xs dxs ddxs time
              [1; 1 / 2] [[1; 1]] 2 f w) as (g & tau & fs & Hrest).
  - reflexivity.
  - repeat constructor.
  - repeat constructor.
  - repeat constructor.
  - exact H.
  - exists f, w, g, tau, fs. split; [exact H | exact Hrest].
Defined.

(** *** [generate] with obstacle avoidance on and no obstacle *)

Lemma for_each_agree {A St : Type} (P : nat -> St -> Prop) (l : list A)
  (body1 body2 : A -> St -> res St) :
  forall (k : nat) (s0 : St),
    P k s0 ->
    (forall i x s1, nth_error l i = Some x -> P (k + i)%nat s1 ->
       body1 x s1 = body2 x s1 /\
       forall s2, body2 x s1 = Ok s2 -> P (S (k + i))%nat s2) ->
    for_each l body1 s0 = for_each l body2 s0.
Proof.
  induction l as [|x l IH]; intros k s0 H0 Hstep; simpl; [reflexivity|].
  destruct (Hstep O x s0 eq_refl) as [Heq Hnext].
  { rewrite Nat.add_0_r. assumption. }
  rewrite Heq. destruct (body2 x s0) as [s1|e]; [|reflexivity].
  apply (IH (S k) s1).
  - rewrite Nat.add_0_r in Hnext. apply Hnext. reflexivity.
  - intros i y s2 Hi HP.
    replace (S k + i)%nat with (k + S i)%nat in * by lia.
    apply (Hstep (S i) y s2 Hi HP).
Qed.

Lemma assign_scalar (v c : nd) : assign SlotSc v = Ok c -> is_scalar c.
Proof.
  destruct v as [r|[|r [|r' u]]]; simpl; intro H; inversion H; exact I.
Qed.

Lemma set_item_Forall {A : Type} (P : A -> Prop) (l l' : list A) (i : nat)
  (v : A) :
  Forall P l -> P v -> set_item l i v = Ok l' -> Forall P l'.
Proof.
  revert i l'. induction l as [|h t IH]; intros [|i] l' Hl Hv H;
    simpl in H; try discriminate.
  - inversion H; subst. inversion Hl; subst. constructor; assumption.
  - destruct (set_item t i v) as [t'|] eqn:E; [|discriminate].
    inversion H; subst. inversion Hl; subst.
    constructor; [assumption|]. apply (IH i); assumption.
Qed.

Lemma index_prev_scalar (cells : list nd) (i : nat) :
  Forall is_scalar cells -> (i < length cells)%nat ->
  exists v, index_prev cells i = Ok (Sc v).
Proof.
  intros Hall Hi.
  assert (G : forall k, (k < length cells)%nat ->
            exists v, index cells k = Ok (Sc v)).
  { intros k Hk. rewrite (index_in_range cells k (Sc 0)) by assumption.
    rewrite Forall_forall in Hall.
    pose proof (Hall _ (nth_In cells (Sc 0) Hk)) as Hs.
    destruct (nth k cells (Sc 0)) as [v|u]; [|contradiction].
    exists v. reflexivity. }
  destruct i as [|k]; simpl.
  - destruct cells as [|c cells']; [simpl in Hi; lia|].
    unfold last_item. apply G. simpl. lia.
  - apply G. lia.
Qed.

Lemma avoid_obstacles_none (self : DynamicMovementPrimitive) (x : R)
  (dx g : nd) :
  avoid_obstacles self (Sc x) dx g (ObstacleArray []) = Ok (Sc 0).
Proof. reflexivity. Qed.

(** A turn of the loop on a one-dimensional [w], with obstacle avoidance
    on and an obstacle array without rows, is the turn with obstacle
    avoidance off. *)
Lemma generate_step_clear (self : DynamicMovementPrimitive) (wl : list R)
  (x0 : value) (gd : nd) (time s : list R) (psv : list (list R))
  (obstacles : obstacles_arg) (tau : R) (i : nat) (r : rollout) :
  obs self = true -> (i < length time)%nat -> clear_state time r ->
  generate_step self (A1 wl) x0 (Imm gd) time s psv (ObstacleArray [])
                SlotSc tau i r
  = generate_step (without_obstacles self) (A1 wl) x0 (Imm gd) time s psv
                  obstacles SlotSc tau i r /\
  forall r',
    generate_step (without_obstacles self) (A1 wl) x0 (Imm gd) time s psv
                  obstacles SlotSc tau i r = Ok r' ->
    clear_state time r'.
Proof.
  intros Hobs Hi (Hp & Ldx & Lx & Sdx & Sx). split.
  - destruct (index_prev_scalar (r_x r) i Sx) as [xv Hxv]; [lia|].
    destruct (index_prev_scalar (r_dx r) i Sdx) as [dv Hdv]; [lia|].
    unfold generate_step, without_obstacles, b.
    cbn [a ng stb obs obs_gamma obs_beta].
    rewrite Hobs, Hxv, Hdv, Hp. cbn [bind read].
    rewrite avoid_obstacles_none. reflexivity.
  - intros r' H. unfold generate_step in H.
    cbn [obs without_obstacles] in H.
    bind_top H as ti E1. bind_top H as dt E2.
    bind_top H as ms E3. destruct ms as [mod_ sig].
    bind_top H as sigma_i E4.
    bind_top H as pp E5. destruct pp as [p_sum p_div].
    bind_top H as q E6. bind_top H as f E7. bind_top H as f_rep_i E8.
    bind_top H as ddx_r E10. bind_top H as dx_r E11.
    bind_top H as sx E12. destruct sx as [st x_r].
    bind_top H as c_ddx E13. bind_top H as c_dx E14. bind_top H as c_x E15.
    bind_top H as ddx E16. bind_top H as dx E17. bind_top H as x E18.
    inversion H; subst r'; clear H. unfold clear_state. simpl.
    rewrite (set_item_length _ _ _ _ E17), (set_item_length _ _ _ _ E18).
    split; [assumption|]. split; [assumption|]. split; [assumption|].
    split.
    + apply (set_item_Forall _ _ _ _ _ Sdx (assign_scalar _ _ E14) E17).
    + bind_top E15 as xv Exv.
      apply (set_item_Forall _ _ _ _ _ Sx (assign_scalar _ _ E15) E18).
Qed.

(** X18. With a one-dimensional weight vector, switching obstacle
    avoidance on and passing an obstacle array without rows changes
    nothing: [generate] returns, or raises, exactly what it does with
    obstacle avoidance off. *)
Theorem generate_without_obstacles (self : DynamicMovementPrimitive)
  (st : store) (wl : list R) (x0 : value) (gd : nd) (time s : list R)
  (psv : list (list R)) (obstacles : obstacles_arg) :
  obs self = true ->
  generate self st (A1 wl) x0 (Imm gd) time s psv (ObstacleArray [])
  = generate (without_obstacles self) st (A1 wl) x0 (Imm gd) time s psv
             obstacles.
Proof.
  intro Hobs. unfold generate. simpl slot_of. cbn [bind].
  destruct (last_item time) as [tau|e]; [|reflexivity]. cbn [bind].
  rewrite (for_each_agree (fun _ r => clear_state time r)
             (seq 0 (length time))
             (generate_step self (A1 wl) x0 (Imm gd) time s psv
                            (ObstacleArray []) SlotSc tau)
             (generate_step (without_obstacles self) (A1 wl) x0 (Imm gd)
                            time s psv obstacles SlotSc tau) O).
  - reflexivity.
  - unfold clear_state. simpl. rewrite !repeat_length.
    split; [reflexivity|]. split; [reflexivity|]. split; [reflexivity|].
    split; apply Forall_forall; intros c Hc; apply repeat_spec in Hc;
      subst c; exact I.
  - intros i k r1 Hk Hr1.
    apply nth_error_seq0 in Hk. destruct Hk as [-> Hlt].
    apply generate_step_clear; assumption.
Qed.

Lemma generate_without_obstacles_witness :
  let self := {| a := 4; ng := 1; stb := false; obs := true;
                 obs_gamma := 1200; obs_beta := 63662 / 10000 |} in
  generate self [] (A1 [3]) (Imm (Sc 0)) (Imm (Sc 1)) [1 / 2; 1]
           [1; 1 / 2] [[1; 2]] (ObstacleArray [])
  = generate (without_obstacles self) [] (A1 [3]) (Imm (Sc 0)) (Imm (Sc 1))
             [1 / 2; 1] [1; 1 / 2] [[1; 2]] PyEmptyList.
Proof.
  intro self. apply generate_without_obstacles. reflexivity.
Defined.

(** *** Obstacle term: a bound *)

(** [gamma * phi * exp(-beta*|phi|)] is at most [gamma / (beta * e)] in
    magnitude: [u * exp(-u) <= 1/e]. *)
Lemma repulsion_bound (gamma beta phi : R) :
  0 <= gamma -> 0 < beta ->
  Rabs (gamma * phi * exp (- beta * Rabs phi)) * (beta * exp 1) <= gamma.
Proof.
  intros Hg Hb.
  rewrite !Rabs_mult.
  rewrite (Rabs_pos_eq gamma) by assumption.
  rewrite (Rabs_pos_eq (exp _)) by (left; apply exp_pos).
  set (y := Rabs phi).
  assert (Hy : 0 <= y) by apply Rabs_pos.
  assert (Hk : beta * y * (exp (- beta * y) * exp 1) <= 1).
  { rewrite <- exp_plus.
    replace (- beta * y + 1) with (- (beta * y - 1)) by ring.
    pose proof (exp_ineq1_le (beta * y - 1)) as Hle.
    pose proof (exp_pos (- (beta * y - 1))) as Hpos.
    assert (E : exp (beta * y - 1) * exp (- (beta * y - 1)) = 1).
    { rewrite <- exp_plus.
      replace (beta * y - 1 + - (beta * y - 1)) with 0 by ring.
      apply exp_0. }
    apply Rle_trans with (exp (beta * y - 1) * exp (- (beta * y - 1)));
      [apply Rmult_le_compat_r; lra | rewrite E; lra]. }
  replace (gamma * y * exp (- beta * y) * (beta * exp 1))
    with (gamma * (beta * y * (exp (- beta * y) * exp 1))) by ring.
  rewrite <- (Rmult_1_r gamma) at 2.
  apply Rmult_le_compat_l; assumption.
Qed.

Lemma dphi_of_bound (self : DynamicMovementPrimitive) (x dx g o : list R) :
  0 <= obs_gamma self -> 0 < obs_beta self ->
  Rabs (dphi_of self x dx g o) * (obs_beta self * exp 1) <= obs_gamma self.
Proof.
  intros Hgam Hbeta.
  assert (Hzero : Rabs 0 * (obs_beta self * exp 1) <= obs_gamma self).
  { rewrite Rabs_R0. lra. }
  unfold dphi_of.
  destruct (Rltb (5 / 100000) (norm (Vec dx))); [|assumption].
  cbv zeta.
  destruct (Rltb (norm (Vec (zip_with Rminus g x)))
                 (norm (Vec (zip_with Rminus o x)))); [assumption|].
  apply repulsion_bound; assumption.
Qed.

Lemma sum_bound (K M : R) (l : list R) :
  0 <= K -> Forall (fun d => Rabs d * K <= M) l ->
  forall acc,
    Rabs (fold_left Rplus l acc) * K <= Rabs acc * K + INR (length l) * M.
Proof.
  intros HK Hl. induction Hl as [|d l Hd Hl IH]; intro acc.
  - simpl. lra.
  - cbn [fold_left]. rewrite (IH (acc + d)).
    change (length (d :: l)) with (S (length l)). rewrite S_INR.
    pose proof (Rabs_triang acc d) as Htri.
    assert (Rabs (acc + d) * K <= (Rabs acc + Rabs d) * K)
      by (apply Rmult_le_compat_r; assumption).
    lra.
Qed.

(** X19. For a three-dimensional position, velocity and goal, a gain
    [obs_gamma >= 0] and a decay [obs_beta > 0], the repulsion is
    bounded: each of its (equal) components is at most
    [n * obs_gamma / (obs_beta * e)] in magnitude for [n] obstacles of
    at least three coordinates, and [avoid_obstacles] returns.  Where
    the angle of an obstacle is used (velocity above the threshold,
    obstacle not farther than the goal), its quotient is strictly inside
    (-1, 1): the velocity does not point exactly at or away from the
    obstacle, and the obstacle is not at the position. *)
Theorem avoid_obstacles_bounded (self : DynamicMovementPrimitive)
  (x dx g : list R) (rows : list (list R)) :
  length x = 3%nat -> length dx = 3%nat -> length g = 3%nat ->
  Forall (fun o => (3 <= length o)%nat /\
                   angle_defined x dx g (firstn 3 o)) rows ->
  0 <= obs_gamma self -> 0 < obs_beta self ->
  exists c,
    avoid_obstacles self (Vec x) (Vec dx) (Vec g) (ObstacleArray rows)
    = Ok (Vec (map (fun _ => c) x)) /\
    Rabs c * (obs_beta self * exp 1) <= INR (length rows) * obs_gamma self.
Proof.
  intros Hx Hdx Hg Hrows Hgam Hbeta.
  eexists. split.
  - apply (avoid_obstacles_value self x dx g rows Hx Hdx Hg).
    eapply Forall_impl; [|exact Hrows]. simpl. intros o [Ho _]. exact Ho.
  - assert (HK : 0 <= obs_beta self * exp 1).
    { left. apply Rmult_lt_0_compat; [assumption | apply exp_pos]. }
    pose proof (sum_bound (obs_beta self * exp 1) (obs_gamma self)
                  (map (fun o => dphi_of self x dx g (firstn 3 o)) rows)
                  HK) as Hsum.
    unfold Np.sum. rewrite length_map in Hsum.
    rewrite (Hsum ltac:(apply Forall_forall; intros d Hd;
                        apply in_map_iff in Hd;
                        destruct Hd as (o & <- & _);
                        apply dphi_of_bound; assumption) 0).
    rewrite Rabs_R0. lra.
Qed.

Lemma avoid_obstacles_bounded_witness :
  exists c,
    avoid_obstacles dmp_plain (Vec [0; 0; 0]) (Vec [1; 0; 0]) (Vec [4; 0; 0])
                    (ObstacleArray [[0; 1; 0; 9]; [1; 1; 0]])
    = Ok (Vec (map (fun _ => c) [0; 0; 0])) /\
    Rabs c * (obs_beta dmp_plain * exp 1)
    <= INR (length [[0; 1; 0; 9]; [1; 1; 0]]) * obs_gamma dmp_plain.
Proof.
  apply (avoid_obstacles_bounded dmp_plain [0; 0; 0] [1; 0; 0] [4; 0; 0]
           [[0; 1; 0; 9]; [1; 1; 0]]); try reflexivity.
  - assert (Hdx : norm (Vec [1; 0; 0]) = 1)
      by (rewrite norm_axis by lra; reflexivity).
    constructor; [|constructor; [|constructor]].
    + split; [simpl; lia|]. right. right. cbn [firstn]. rewrite Hdx.
      simpl zip_with. rewrite norm_turn, norm_axis by lra.
      unfold Np.sum. simpl.
      replace (0 + 1 * (0 - 0) + 0 * (1 - 0) + 0 * (0 - 0)) with 0 by ring.
      rewrite Rabs_R0. lra.
    + split; [simpl; lia|]. right. right. cbn [firstn]. rewrite Hdx.
      unfold norm, Np.sum. simpl.
      replace (0 + 1 * (1 - 0) + 0 * (1 - 0) + 0 * (0 - 0)) with 1 by ring.
      replace (0 + (1 - 0) * (1 - 0) + (1 - 0) * (1 - 0) + (0 - 0) * (0 - 0))
        with 2 by ring.
      rewrite Rabs_R1, Rmult_1_r. rewrite <- sqrt_1 at 1.
      apply sqrt_lt_1_alt. lra.
  - simpl. lra.
  - simpl. lra.
Defined.
